(** * The component-tree mirror of the devtools front end

    A shallow embedding of
    [packages/app-frontend/src/features/components/index.js]: the module
    state (tree mirror, selection, expand map, reset flag), the two bridge
    handlers installed by [setupComponentsBridgeEvents], and the request
    functions, followed by the properties of the written specification.

    JavaScript objects are shared and mutated in place, so tree nodes live
    in an explicit object store and are named by their address; arrays are
    never mutated by this module and are kept as immutable lists of
    addresses (assigning [data.children = instance.children] makes two
    objects hold the same list). *)

From Stdlib Require Import String.
From stdpp Require Import gmap strings list.

Set Warnings "-register-all".
Local Open Scope string_scope.
Local Open Scope list_scope.

(** ** Data *)

(** Addresses of objects in the store. *)
Abbreviation addr := nat (only parsing).

(** A tree node as an object in the store: the three fields the module
    reads, and every other enumerable key ([name], rendering hints, ...). *)
Record Obj := mkObj {
  o_id : string;
  o_hasChildren : bool;
  o_children : list addr;
  o_fields : gmap string string
}.

(** A node as [parse] builds it from the serialized payload: a fresh tree. *)
Inductive Node :=
| mkNode (i : string) (hc : bool) (kids : list Node) (p : gmap string string).

(** An incoming node after [restoreChildrenFromComponentsMap] went over it:
    [children] is either still the array that was received, or it has been
    assigned the array of an object of the mirror. *)
Inductive Incoming :=
| Sent (i : string) (hc : bool) (kids : list Incoming) (p : gmap string string)
| Kept (i : string) (hc : bool) (stored : list addr) (p : gmap string string).

(** What [parse] can return: an array of nodes, or some other value
    (an object, as for the detail payload). *)
Inductive Parsed :=
| PArray (items : list Node)
| PObject (o : string).

(** Commands sent over the bridge. *)
Inductive Command :=
| ComponentTree (instanceId : string) (filter : string)
| ComponentSelectedData (instanceId : string).

Inductive Exn :=
| TypeError      (* a field read or write on [undefined], a non-iterable in [for...of] *)
| RangeError     (* the call stack is exhausted *)
| ParseFailure.  (* [parse] threw *)

(** The module-level variables, the object store, and the two sinks the
    module writes to: the bridge and [putError]. *)
Record State := mkState {
  heap : list Obj;
  rootInstances : list addr;
  componentsMap : gmap string addr;
  componentsParent : gmap string string;
  treeFilter : string;
  selectedComponentId : option string;
  selectedComponentData : option Parsed;
  selectedComponentPendingId : option string;
  lastSelectedComponentId : option string;
  expandedMap : gmap string bool;
  resetComponentsQueued : bool;
  sent : list Command;
  errors : list string
}.

Definition init : State :=
  mkState [] [] ∅ ∅ "" None None None None ∅ false [] [].

(** Field updates. *)
Definition set_heap (h : list Obj) (s : State) : State :=
  mkState h (rootInstances s) (componentsMap s) (componentsParent s)
    (treeFilter s) (selectedComponentId s) (selectedComponentData s)
    (selectedComponentPendingId s) (lastSelectedComponentId s)
    (expandedMap s) (resetComponentsQueued s) (sent s) (errors s).

Definition set_rootInstances (r : list addr) (s : State) : State :=
  mkState (heap s) r (componentsMap s) (componentsParent s)
    (treeFilter s) (selectedComponentId s) (selectedComponentData s)
    (selectedComponentPendingId s) (lastSelectedComponentId s)
    (expandedMap s) (resetComponentsQueued s) (sent s) (errors s).

Definition set_componentsMap (m : gmap string addr) (s : State) : State :=
  mkState (heap s) (rootInstances s) m (componentsParent s)
    (treeFilter s) (selectedComponentId s) (selectedComponentData s)
    (selectedComponentPendingId s) (lastSelectedComponentId s)
    (expandedMap s) (resetComponentsQueued s) (sent s) (errors s).

Definition set_componentsParent (m : gmap string string) (s : State) : State :=
  mkState (heap s) (rootInstances s) (componentsMap s) m
    (treeFilter s) (selectedComponentId s) (selectedComponentData s)
    (selectedComponentPendingId s) (lastSelectedComponentId s)
    (expandedMap s) (resetComponentsQueued s) (sent s) (errors s).

Definition set_selectedComponentId (v : option string) (s : State) : State :=
  mkState (heap s) (rootInstances s) (componentsMap s) (componentsParent s)
    (treeFilter s) v (selectedComponentData s)
    (selectedComponentPendingId s) (lastSelectedComponentId s)
    (expandedMap s) (resetComponentsQueued s) (sent s) (errors s).

Definition set_selectedComponentData (v : option Parsed) (s : State) : State :=
  mkState (heap s) (rootInstances s) (componentsMap s) (componentsParent s)
    (treeFilter s) (selectedComponentId s) v
    (selectedComponentPendingId s) (lastSelectedComponentId s)
    (expandedMap s) (resetComponentsQueued s) (sent s) (errors s).

Definition set_selectedComponentPendingId (v : option string) (s : State) : State :=
  mkState (heap s) (rootInstances s) (componentsMap s) (componentsParent s)
    (treeFilter s) (selectedComponentId s) (selectedComponentData s)
    v (lastSelectedComponentId s)
    (expandedMap s) (resetComponentsQueued s) (sent s) (errors s).

Definition set_lastSelectedComponentId (v : option string) (s : State) : State :=
  mkState (heap s) (rootInstances s) (componentsMap s) (componentsParent s)
    (treeFilter s) (selectedComponentId s) (selectedComponentData s)
    (selectedComponentPendingId s) v
    (expandedMap s) (resetComponentsQueued s) (sent s) (errors s).

Definition set_expandedMap (m : gmap string bool) (s : State) : State :=
  mkState (heap s) (rootInstances s) (componentsMap s) (componentsParent s)
    (treeFilter s) (selectedComponentId s) (selectedComponentData s)
    (selectedComponentPendingId s) (lastSelectedComponentId s)
    m (resetComponentsQueued s) (sent s) (errors s).

Definition set_resetComponentsQueued (b : bool) (s : State) : State :=
  mkState (heap s) (rootInstances s) (componentsMap s) (componentsParent s)
    (treeFilter s) (selectedComponentId s) (selectedComponentData s)
    (selectedComponentPendingId s) (lastSelectedComponentId s)
    (expandedMap s) b (sent s) (errors s).

Definition set_treeFilter (f : string) (s : State) : State :=
  mkState (heap s) (rootInstances s) (componentsMap s) (componentsParent s)
    f (selectedComponentId s) (selectedComponentData s)
    (selectedComponentPendingId s) (lastSelectedComponentId s)
    (expandedMap s) (resetComponentsQueued s) (sent s) (errors s).

(** [bridge.send(...)] and [putError(...)]. *)
Definition send (c : Command) (s : State) : State :=
  mkState (heap s) (rootInstances s) (componentsMap s) (componentsParent s)
    (treeFilter s) (selectedComponentId s) (selectedComponentData s)
    (selectedComponentPendingId s) (lastSelectedComponentId s)
    (expandedMap s) (resetComponentsQueued s) (sent s ++ [c]) (errors s).

Definition putError (e : string) (s : State) : State :=
  mkState (heap s) (rootInstances s) (componentsMap s) (componentsParent s)
    (treeFilter s) (selectedComponentId s) (selectedComponentData s)
    (selectedComponentPendingId s) (lastSelectedComponentId s)
    (expandedMap s) (resetComponentsQueued s) (sent s) (errors s ++ [e]).

(** ** A handler either returns or throws; both leave a state behind *)

Inductive Res (A : Type) :=
| Ok (x : A) (s : State)
| Throw (e : Exn) (s : State).
Arguments Ok {A} x s.
Arguments Throw {A} e s.

Definition M (A : Type) := State -> Res A.

Definition ret {A} (x : A) : M A := fun s => Ok x s.
Definition throw {A} (e : Exn) : M A := fun s => Throw e s.
Definition bind {A B} (m : M A) (k : A -> M B) : M B :=
  fun s => match m s with
           | Ok x s' => k x s'
           | Throw e s' => Throw e s'
           end.
Definition modify (f : State -> State) : M unit := fun s => Ok tt (f s).

Notation "'let!' x ':=' m 'in' k" := (bind m (fun x => k))
  (at level 10, x name, m at level 100, k at level 200).
Notation "m >>> k" := (bind m (fun _ => k))
  (at level 100, k at level 200, right associativity).

(** [for (const x of l) body(x)] and [l.forEach(body)]. *)
Fixpoint forEach {A} (body : A -> M unit) (l : list A) : M unit :=
  match l with
  | [] => ret tt
  | x :: l' => body x >>> forEach body l'
  end.

Definition state_of {A} (r : Res A) : State :=
  match r with Ok _ s => s | Throw _ s => s end.

(** ** JavaScript truthiness of the values the module tests *)

(** [s.endsWith(suffix)] *)
Definition endsWith (s suffix : string) : bool :=
  let n := String.length s in
  let k := String.length suffix in
  (k <=? n)%nat && String.eqb (substring (n - k) k s) suffix.

(** A string is truthy unless it is empty. *)
Definition truthy (s : string) : bool := negb (String.eqb s "").

(** [null], [undefined] and the empty string are falsy. *)
Definition truthy_opt (o : option string) : bool :=
  match o with Some s => truthy s | None => false end.

(** [a === b] for a string [a] and a string-or-null [b]. *)
Definition strict_eq (a : string) (b : option string) : bool :=
  match b with Some b' => String.eqb a b' | None => false end.

(** ** Accessors of incoming data *)

Definition node_id (n : Node) : string := let 'mkNode i _ _ _ := n in i.
Definition node_hasChildren (n : Node) : bool := let 'mkNode _ hc _ _ := n in hc.
Definition node_children (n : Node) : list Node := let 'mkNode _ _ k _ := n in k.
Definition node_fields (n : Node) : gmap string string := let 'mkNode _ _ _ p := n in p.

Definition inc_id (d : Incoming) : string :=
  match d with Sent i _ _ _ | Kept i _ _ _ => i end.
Definition inc_hasChildren (d : Incoming) : bool :=
  match d with Sent _ hc _ _ | Kept _ hc _ _ => hc end.
Definition inc_fields (d : Incoming) : gmap string string :=
  match d with Sent _ _ _ p | Kept _ _ _ p => p end.

(** An incoming node nothing was restored into. *)
Fixpoint as_sent (n : Node) : Incoming :=
  let 'mkNode i hc kids p := n in Sent i hc (map as_sent kids) p.

(** ** The object store *)

(** Turning parsed data into objects of the store: children first, then
    the node itself, each at the next free address. *)
Fixpoint alloc (d : Incoming) (h : list Obj) : addr * list Obj :=
  match d with
  | Kept i hc stored p => (length h, h ++ [mkObj i hc stored p])
  | Sent i hc kids p =>
      let '(cs, h') :=
        (fix alloc_list (l : list Incoming) (h : list Obj) : list addr * list Obj :=
           match l with
           | [] => ([], h)
           | d' :: l' =>
               let '(a, h1) := alloc d' h in
               let '(as', h2) := alloc_list l' h1 in
               (a :: as', h2)
           end) kids h in
      (length h', h' ++ [mkObj i hc cs p])
  end.

Fixpoint alloc_list (l : list Incoming) (h : list Obj) : list addr * list Obj :=
  match l with
  | [] => ([], h)
  | d :: l' =>
      let '(a, h1) := alloc d h in
      let '(as', h2) := alloc_list l' h1 in
      (a :: as', h2)
  end.

(** The [children] array of an incoming node, as a list of addresses. *)
Definition inc_children (d : Incoming) (h : list Obj) : list addr * list Obj :=
  match d with
  | Kept _ _ stored _ => (stored, h)
  | Sent _ _ kids _ => alloc_list kids h
  end.

(** [componentsMap[id]], read through to the object. *)
Definition instance_of (s : State) (i : string) : option Obj :=
  a ← componentsMap s !! i; heap s !! a.

(** ** The module's functions *)

(** [resetComponents] *)
Definition resetComponents (s : State) : State :=
  set_componentsParent ∅
    (set_componentsMap ∅
       (set_rootInstances []
          (set_resetComponentsQueued false s))).

(** [requestComponentTree (instanceId = null)] *)
Definition requestComponentTree (instanceId : option string) (s : State) : State :=
  let instanceId := if truthy_opt instanceId then default "_root" instanceId else "_root" in
  let s := if String.eqb instanceId "_root" then set_resetComponentsQueued true s else s in
  send (ComponentTree instanceId (treeFilter s)) s.

(** [loadComponent (id)] *)
Definition loadComponent (id : option string) (s : State) : State :=
  match id with
  | Some i =>
      if negb (truthy i) || strict_eq i (selectedComponentPendingId s) then s
      else
        send (ComponentSelectedData i)
          (set_selectedComponentPendingId (Some i)
             (set_lastSelectedComponentId (Some i) s))
  | None => s
  end.

(** What [setupComponentsBridgeEvents (bridge)] does to the state before it
    installs the handlers below. *)
Definition setupComponentsBridgeEvents (s : State) : State :=
  set_expandedMap ∅ (set_selectedComponentPendingId None s).

(** [setComponentOpen (id, isOpen)] *)
Definition setComponentOpen (id : string) (isOpen : bool) (s : State) : State :=
  set_expandedMap (<[id := isOpen]> (expandedMap s)) s.

(** [isExpanded] of [useComponent]: [!!expandedMap.value[instance.value.id]] *)
Definition isExpanded (instance : Obj) (s : State) : bool :=
  default false (expandedMap s !! o_id instance).

(** [toggleExpand (load = true)] of [useComponent (instance)] *)
Definition toggleExpand (instance : Obj) (load : bool) (s : State) : State :=
  if negb (o_hasChildren instance) then s
  else
    let s := setComponentOpen (o_id instance) (negb (isExpanded instance s)) s in
    if load then requestComponentTree (Some (o_id instance)) s else s.

(** [restoreChildrenFromComponentsMap (data)].  The incoming objects are not
    shared with anything yet, so the assignment to [data.children] is
    rendered by rebuilding the incoming node; the assigned array is the
    stored one, by reference. *)
Fixpoint restoreChildrenFromComponentsMap (s : State) (data : Node) : Incoming :=
  let 'mkNode i hc kids p := data in
  match instance_of s i with
  | Some instance =>
      if hc then
        if bool_decide (kids = []) && negb (bool_decide (o_children instance = []))
        then Kept i hc (o_children instance) p
        else Sent i hc (map (restoreChildrenFromComponentsMap s) kids) p
      else as_sent data
  | None => as_sent data
  end.

(** [updateComponentsMapData (data)]: every key of [data] is set on the
    stored object; keys that [data] lacks stay.  When the lookup gives
    [undefined], [Vue.set] throws on it (and so would the read of
    [instance.id] in [addToComponentsMap], which is handed the result). *)
Definition updateComponentsMapData (data : Incoming) : M addr :=
  fun s =>
    match componentsMap s !! inc_id data with
    | Some c =>
        match heap s !! c with
        | Some component =>
            let '(cs, h) := inc_children data (heap s) in
            Ok c (set_heap
                    (<[c := mkObj (inc_id data) (inc_hasChildren data) cs
                                  (inc_fields data ∪ o_fields component)]> h) s)
        | None => Throw TypeError s
        end
    | None => Throw TypeError s
    end.

(** [addToComponentsMap (instance)].  The recursion follows the store, so it
    takes the depth of call stack it may use. *)
Fixpoint addToComponentsMap (fuel : nat) (a : addr) : M unit :=
  match fuel with
  | O => throw RangeError
  | S fuel' =>
      fun s =>
        match heap s !! a with
        | None => Throw TypeError s
        | Some instance =>
            forEach
              (fun c s =>
                 match heap s !! c with
                 | None => Throw TypeError s
                 | Some child =>
                     addToComponentsMap fuel' c
                       (set_componentsParent
                          (<[o_id child := o_id instance]> (componentsParent s)) s)
                 end)
              (o_children instance)
              (set_componentsMap (<[o_id instance := a]> (componentsMap s)) s)
        end
  end.

(** The tree-data message. *)
Record TreeMsg := mkTreeMsg {
  tm_instanceId : string;
  tm_treeData : option string;
  tm_notFound : bool
}.

(** The detail-data message. *)
Record SelectedDataMsg := mkSelectedDataMsg {
  sd_instanceId : string;
  sd_data : string;
  sd_parentIds : option (list string)
}.

Section Handlers.

(** [parse] of the shared utilities: [None] when it throws. *)
Variable parse : string -> option Parsed.

(** The body of the loop over the items of a known-target update. *)
Definition mergeItem (fuel : nat) (item : Node) : M unit :=
  fun s =>
    (let! component := updateComponentsMapData (restoreChildrenFromComponentsMap s item) in
     addToComponentsMap fuel component) s.

(** "Try to load selected component again" *)
Definition reloadSelected (isRoot : bool) (s : State) : State :=
  if isRoot && truthy_opt (selectedComponentId s)
     && negb (bool_decide (is_Some (selectedComponentData s)))
     && negb (truthy_opt (selectedComponentPendingId s))
  then loadComponent (selectedComponentId s) s
  else s.

(** The handler of [TO_FRONT_COMPONENT_TREE]. *)
Definition onComponentTree (fuel : nat) (msg : TreeMsg) : M unit :=
  fun s =>
    let isRoot := endsWith (tm_instanceId msg) "root" in
    let s := if resetComponentsQueued s then resetComponents s else s in
    match tm_treeData msg with
    | Some treeData =>
        if truthy treeData then
          match parse treeData with
          | None => Throw ParseFailure s
          | Some data =>
              (match componentsMap s !! tm_instanceId msg with
               | Some _ =>
                   match data with
                   | PArray items => forEach (mergeItem fuel) items
                   | PObject _ => throw TypeError
                   end
               | None =>
                   match data with
                   | PArray items =>
                       fun s =>
                         let '(roots, h) := alloc_list (map as_sent items) (heap s) in
                         forEach (addToComponentsMap fuel) roots
                           (set_rootInstances roots (set_heap h s))
                   | PObject _ => ret tt
                   end
               end >>>
               modify (reloadSelected isRoot)) s
          end
        else
          Ok tt (if isRoot && negb (tm_notFound msg)
                 then putError "Component tree not supported" s else s)
    | None =>
        Ok tt (if isRoot && negb (tm_notFound msg)
               then putError "Component tree not supported" s else s)
    end.

(** The walk over [parentIds.reverse()]. *)
Definition openParent (id : string) (s : State) : State :=
  if endsWith id "root" then s
  else requestComponentTree (Some id) (setComponentOpen id true s).

Definition openParents (parentIds : list string) (s : State) : State :=
  foldl (fun s id => openParent id s) s (rev parentIds).

(** The handler of [TO_FRONT_COMPONENT_SELECTED_DATA]. *)
Definition onSelectedData (msg : SelectedDataMsg) : M unit :=
  fun s =>
    let id := sd_instanceId msg in
    let step2 (s : State) : Res unit :=
      let s := if strict_eq id (selectedComponentPendingId s)
               then set_selectedComponentPendingId None s else s in
      match sd_parentIds msg with
      | Some parentIds => Ok tt (openParents parentIds s)
      | None => Ok tt s
      end in
    if strict_eq id (selectedComponentId s) then
      match parse (sd_data msg) with
      | Some v => step2 (set_selectedComponentData (Some v) s)
      | None => Throw ParseFailure s
      end
    else step2 s.

End Handlers.

(** A [parse] given by a finite table, for running the handlers on
    concrete messages. *)
Definition parse_table (tbl : list (string * Parsed)) (raw : string) : option Parsed :=
  snd <$> find (fun kv => String.eqb (fst kv) raw) tbl.

(** How many of the commands [cmds] are tree fetches for [id]. *)
Definition tree_fetches_for (id : string) (cmds : list Command) : nat :=
  length (List.filter (fun c => match c with
                                | ComponentTree i _ => String.eqb i id
                                | ComponentSelectedData _ => false
                                end) cmds).

(** The target [requestComponentTree] sends for an argument [id]. *)
Definition tree_target (id : string) : string :=
  if truthy id then id else "_root".

Definition opt_target (instanceId : option string) : string :=
  match instanceId with Some i => tree_target i | None => "_root" end.

(** The message shown when the tree is not supported. *)
Definition not_supported : string := "Component tree not supported".

(** A tree-data message carries data when [treeData] is a non-empty string. *)
Definition has_data (msg : TreeMsg) : bool :=
  match tm_treeData msg with Some raw => truthy raw | None => false end.

(** The state a tree-data handler starts its work from. *)
Definition after_queued_reset (s : State) : State :=
  if resetComponentsQueued s then resetComponents s else s.

(** Example data: a root with a loaded child [a] (which has a child [x])
    and a leaf [b]. *)
Definition leaf (i : string) : Node := mkNode i false [] ∅.

Definition tree_1 : Node :=
  mkNode "1:root" true [mkNode "a" true [leaf "x"] ∅; leaf "b"] ∅.

Definition payloads : list (string * Parsed) :=
  [("tree-1", PArray [tree_1]);
   ("a-lazy", PArray [mkNode "a" true [] ∅]);
   ("a-childless", PArray [mkNode "a" false [] ∅]);
   ("a-and-new", PArray [mkNode "a" true [] ∅; leaf "n"]);
   ("x-alone", PArray [leaf "x"]);
   ("root-lazy-a", PArray [mkNode "1:root" true [mkNode "a" true [] ∅; leaf "b"] ∅]);
   ("root-wrapped-a",
    PArray [mkNode "1:root" true
              [mkNode "q" true [mkNode "a" true [] ∅] ∅; leaf "b"] ∅])].

(** The mirror after the first full fetch has been answered with [tree_1]. *)
Definition loaded : State :=
  state_of (onComponentTree (parse_table payloads) 8
              (mkTreeMsg "_root" (Some "tree-1") false)
              (requestComponentTree None init)).

(** ** Reading the store as a tree *)

(** A finite unfolding of the store from one address: the object found at
    each address, and the unfoldings of its children. *)
Inductive View :=
| VNode (a : addr) (o : Obj) (kids : list View).

Definition view_addr (v : View) : addr := let 'VNode a _ _ := v in a.
Definition view_obj (v : View) : Obj := let 'VNode _ o _ := v in o.
Definition view_kids (v : View) : list View := let 'VNode _ _ k := v in k.
Definition view_id (v : View) : string := o_id (view_obj v).

(** [shows h v]: the store [h] really unfolds to [v]. *)
Inductive shows (h : list Obj) : View -> Prop :=
| shows_node a o kids :
    h !! a = Some o ->
    o_children o = map view_addr kids ->
    Forall (shows h) kids ->
    shows h (VNode a o kids).

(** Number of nested calls [addToComponentsMap] needs on an unfolding. *)
Fixpoint depth (v : View) : nat :=
  let 'VNode _ _ kids := v in S (foldr (fun k n => max (depth k) n) 0 kids).

(** The assignments [componentsMap[id] = instance] of a traversal, in order. *)
Fixpoint map_entries (v : View) : list (string * addr) :=
  let 'VNode a o kids := v in (o_id o, a) :: flat_map map_entries kids.

(** The assignments [componentsParent[c.id] = instance.id], in order. *)
Fixpoint parent_entries (v : View) : list (string * string) :=
  let 'VNode _ o kids := v in
  flat_map (fun k => (view_id k, o_id o) :: parent_entries k) kids.

(** The addresses of an unfolding. *)
Fixpoint addrs (v : View) : list addr :=
  let 'VNode a _ kids := v in a :: flat_map addrs kids.

(** The tree of values an unfolding stands for. *)
Fixpoint erase (v : View) : Node :=
  let 'VNode _ o kids := v in
  mkNode (o_id o) (o_hasChildren o) (map erase kids) (o_fields o).

(** Carrying out assignments on a table. *)
Definition assign {V} (m : gmap string V) (l : list (string * V)) : gmap string V :=
  foldl (fun m e => <[e.1 := e.2]> m) m l.

(** What a traversal of the unfolding [v] leaves in the two tables. *)
Definition register (v : View) (s : State) : State :=
  set_componentsParent (assign (componentsParent s) (parent_entries v))
    (set_componentsMap (assign (componentsMap s) (map_entries v)) s).

(** One turn of the [forEach] of [addToComponentsMap], on unfoldings. *)
Definition attach (parent : string) (s : State) (k : View) : State :=
  register k
    (set_componentsParent (<[view_id k := parent]> (componentsParent s)) s).

(** ** Incoming trees *)

(** The ids of a tree, and its parent links as pairs (child id, parent id). *)
Fixpoint ids (t : Node) : list string :=
  let 'mkNode i _ kids _ := t in i :: flat_map ids kids.

Fixpoint edges (t : Node) : list (string * string) :=
  let 'mkNode i _ kids _ := t in
  flat_map (fun k => (node_id k, i) :: edges k) kids.

Fixpoint height (t : Node) : nat :=
  let 'mkNode _ _ kids _ := t in S (foldr (fun k n => max (height k) n) 0 kids).

Definition forest_height (ts : list Node) : nat :=
  foldr (fun k n => max (height k) n) 0 ts.

(** [below s t t']: [t'] is [t] or lies under it, and every node passed on
    the way down is one [restoreChildrenFromComponentsMap] descends through:
    it is in the mirror under its id and has [hasChildren]. *)
Inductive below (s : State) : Node -> Node -> Prop :=
| below_here t : below s t t
| below_step i kids p inst c t' :
    instance_of s i = Some inst ->
    In c kids ->
    below s c t' ->
    below s (mkNode i true kids p) t'.

(** [reach h a a']: [a'] is [a] or lies under it in the store. *)
Inductive reach (h : list Obj) : addr -> addr -> Prop :=
| reach_here a : reach h a a
| reach_step a o c a' :
    h !! a = Some o -> In c (o_children o) -> reach h c a' -> reach h a a'.

(** [fresh_view t h a h' v]: allocating [t] in [h] gave the address [a] and
    the store [h'], which extends [h] by fresh objects that unfold to [t]. *)
Definition fresh_view (t : Node) (h : list Obj) (a : addr) (h' : list Obj) (v : View) : Prop :=
  (exists ext, h' = h ++ ext) /\
  shows h' v /\ view_addr v = a /\ erase v = t /\
  Forall (fun x => length h <= x < length h') (addrs v).

Definition forest_ids (ts : list Node) : list string := flat_map ids ts.
Definition forest_edges (ts : list Node) : list (string * string) := flat_map edges ts.

(** [within d d']: [d'] is [d] or lies under it among the received children. *)
Inductive within : Incoming -> Incoming -> Prop :=
| within_here d : within d d
| within_kid i hc kids p k d' :
    In k kids -> within k d' -> within (Sent i hc kids p) d'.

(** Allocation extends the store, and a node that kept stored children is
    found under the allocated address, in any store that agrees with the new
    one on the fresh addresses. *)
Definition alloc_spec (d : Incoming) : Prop :=
  forall h x h',
    alloc d h = (x, h') ->
    (exists ext, h' = h ++ ext) /\
    length h <= x < length h' /\
    forall i hc cs p,
      within d (Kept i hc cs p) ->
      forall h'',
        (forall y, length h <= y < length h' -> h'' !! y = h' !! y) ->
        exists a', reach h'' x a' /\ h'' !! a' = Some (mkObj i hc cs p).

(** The state [updateComponentsMapData] leaves when the item is in the node
    table at the address [c], where the object [C] is. *)
Definition after_update (s : State) (item : Node) (c : addr) (C : Obj) : State :=
  let d := restoreChildrenFromComponentsMap s item in
  let '(cs, h) := inc_children d (heap s) in
  set_heap (<[c := mkObj (node_id item) (inc_hasChildren d) cs
                         (inc_fields d ∪ o_fields C)]> h) s.

(** * The rest of the module *)

(** ** Well-formed mirrors *)

(** The node table is consistent with the store: the object under an id
    carries that id. *)
Definition map_ok (s : State) : Prop :=
  forall k a, componentsMap s !! k = Some a ->
              exists o, heap s !! a = Some o /\ o_id o = k.

(** Every [children] array of the store names objects of the store. *)
Definition closed (h : list Obj) : Prop :=
  forall a o, h !! a = Some o -> Forall (fun c => c < length h) (o_children o).

Definition wf (s : State) : Prop :=
  map_ok s /\ closed (heap s) /\
  Forall (fun r => r < length (heap s)) (rootInstances s).

(** The stored arrays an incoming node was given name objects below [n]. *)
Inductive kept_ok (n : nat) : Incoming -> Prop :=
| kept_ok_Sent i hc kids p :
    Forall (kept_ok n) kids -> kept_ok n (Sent i hc kids p)
| kept_ok_Kept i hc stored p :
    Forall (fun c => c < n) stored -> kept_ok n (Kept i hc stored p).

(** [one_of ts t]: [t] is a node of the forest [ts]. *)
Inductive node_of : Node -> Node -> Prop :=
| node_of_here t : node_of t t
| node_of_kid i hc kids p k t :
    In k kids -> node_of k t -> node_of (mkNode i hc kids p) t.

(** The same for unfoldings. *)
Inductive view_of : View -> View -> Prop :=
| view_of_here v : view_of v v
| view_of_kid a o kids k w :
    In k kids -> view_of k w -> view_of (VNode a o kids) w.

(** Allocation in a closed store of a node whose stored arrays are valid
    gives a closed store and a valid address. *)
Definition alloc_closed_spec (d : Incoming) : Prop :=
  forall h x h',
    closed h -> kept_ok (length h) d -> alloc d h = (x, h') ->
    closed h' /\ x < length h' /\ length h <= length h'.

(** The fields the merges of the tree-data handler do not write. *)
Definition ui_eq (s s' : State) : Prop :=
  treeFilter s' = treeFilter s /\
  selectedComponentId s' = selectedComponentId s /\
  selectedComponentData s' = selectedComponentData s /\
  selectedComponentPendingId s' = selectedComponentPendingId s /\
  lastSelectedComponentId s' = lastSelectedComponentId s /\
  expandedMap s' = expandedMap s /\
  sent s' = sent s.

(** The test of "Try to load selected component again". *)
Definition reload_due (isRoot : bool) (s : State) : bool :=
  isRoot && truthy_opt (selectedComponentId s)
  && negb (bool_decide (is_Some (selectedComponentData s)))
  && negb (truthy_opt (selectedComponentPendingId s)).

(** ** The composables *)

(** The module state together with what the composables add to it:
    [lastSelectedApp], and the calls made on the router
    ([replace] or [push], with the [componentId] parameter). *)
Record App := mkApp {
  core : State;
  lastSelectedApp : option string;
  navigations : list (bool * string)
}.

Definition init_app : App := mkApp init None [].

Definition with_core (f : State -> State) (a : App) : App :=
  mkApp (f (core a)) (lastSelectedApp a) (navigations a).

(** [selectComponent (id, replace = false)] of [useComponentRequests] *)
Definition selectComponent (id : string) (replace : bool) (a : App) : App :=
  if negb (strict_eq id (selectedComponentId (core a)))
  then mkApp (core a) (lastSelectedApp a) (navigations a ++ [(replace, id)])
  else with_core (loadComponent (Some id)) a.

(** The watcher of [useComponents] on [treeFilter]. *)
Definition onTreeFilter (s : State) : State := requestComponentTree None s.

(** The watcher of [useComponents] on the [componentId] of the route. *)
Definition onRouteComponentId (value : option string) (s : State) : State :=
  loadComponent value (set_selectedComponentId value s).

(** The watcher of [useComponents] on [componentsMap]. *)
Definition onComponentsMap (a : App) : App :=
  match selectedComponentId (core a) with
  | Some x =>
      if truthy x
         && negb (strict_eq x (selectedComponentPendingId (core a)))
         && negb (bool_decide (is_Some (selectedComponentData (core a))))
      then selectComponent x false a
      else a
  | None => a
  end.

(** [selectLastComponent] of [useComponents] *)
Definition selectLastComponent (a : App) : App :=
  match lastSelectedComponentId (core a) with
  | Some l => if truthy l then selectComponent l true a else a
  | None => a
  end.

(** The handler of [TO_FRONT_APP_SELECTED] of [useComponents]. *)
Definition onAppSelected (id : string) (a : App) : App :=
  let a := with_core
             (fun s => set_selectedComponentData None (requestComponentTree None s)) a in
  let a := if bool_decide (is_Some (lastSelectedApp a))
           then selectLastComponent a else a in
  mkApp (core a) (Some id) (navigations a).

(** [isExpandedUndefined], [isSelected] and [select] of [useComponent],
    and the request it makes when it is set up for an expanded node. *)
Definition isExpandedUndefined (instance : Obj) (s : State) : bool :=
  negb (bool_decide (is_Some (expandedMap s !! o_id instance))).

Definition isSelected (instance : Obj) (s : State) : bool :=
  strict_eq (o_id instance) (selectedComponentId s).

Definition select (instance : Obj) (a : App) : App :=
  selectComponent (o_id instance) false a.

Definition useComponent (instance : Obj) (s : State) : State :=
  if isExpanded instance s then requestComponentTree (Some (o_id instance)) s else s.

(** The calls a watcher of [subscribeToSelectedData] or
    [subscribeToComponentTree] makes: [subscribe], whose [n]-th call returns
    the function numbered [n], and the calls of those functions. *)
Inductive SubCall :=
| Subscribe (n : nat) (instanceId : string)
| Unsubscribe (n : nat).

(** The local [unsub] of such a watcher, with the calls made so far. *)
Record Watcher := mkWatcher {
  unsub : option nat;
  calls : list SubCall;
  subscribed : nat
}.

Definition init_watcher : Watcher := mkWatcher None [] 0.

(** The callback of the watcher, run with the new value. *)
Definition onWatched (value : option string) (w : Watcher) : Watcher :=
  let w := match unsub w with
           | Some n => mkWatcher None (calls w ++ [Unsubscribe n]) (subscribed w)
           | None => w
           end in
  match value with
  | Some v => mkWatcher (Some (subscribed w))
                (calls w ++ [Subscribe (subscribed w) v]) (S (subscribed w))
  | None => w
  end.

(** The subscriptions that have been made and not undone, latest first. *)
Fixpoint active_after (acc : list (nat * string)) (l : list SubCall) : list (nat * string) :=
  match l with
  | [] => acc
  | Subscribe n v :: l' => active_after ((n, v) :: acc) l'
  | Unsubscribe n :: l' =>
      active_after (List.filter (fun e => negb (Nat.eqb (fst e) n)) acc) l'
  end.

Definition active (w : Watcher) : list (nat * string) := active_after [] (calls w).

(** ** Everything that can happen to the module *)

Inductive Event :=
| RouteChanged (value : option string)
| FilterChanged (filter : string)
| MapChanged
| AppSelected (id : string)
| SelectLast
| Select (id : string) (replace : bool)
| Toggle (instance : Obj) (load : bool)
| Mounted (instance : Obj)
| SetOpen (id : string) (isOpen : bool)
| RequestTree (instanceId : option string)
| Reset
| Setup
| TreeData (fuel : nat) (msg : TreeMsg)
| SelectedData (msg : SelectedDataMsg).

(** One event; a handler that throws leaves the state it had reached. *)
Definition step (parse : string -> option Parsed) (e : Event) (a : App) : App :=
  match e with
  | RouteChanged value => with_core (onRouteComponentId value) a
  | FilterChanged f => with_core (fun s => onTreeFilter (set_treeFilter f s)) a
  | MapChanged => onComponentsMap a
  | AppSelected id => onAppSelected id a
  | SelectLast => selectLastComponent a
  | Select id replace => selectComponent id replace a
  | Toggle instance load => with_core (toggleExpand instance load) a
  | Mounted instance => with_core (useComponent instance) a
  | SetOpen id isOpen => with_core (setComponentOpen id isOpen) a
  | RequestTree instanceId => with_core (requestComponentTree instanceId) a
  | Reset => with_core resetComponents a
  | Setup => with_core setupComponentsBridgeEvents a
  | TreeData fuel msg => with_core (fun s => state_of (onComponentTree parse fuel msg s)) a
  | SelectedData msg => with_core (fun s => state_of (onSelectedData parse msg s)) a
  end.

Definition run (parse : string -> option Parsed) (events : list Event) (a : App) : App :=
  foldl (fun a e => step parse e a) a events.

(** The selection is coherent: a pending id is a non-empty id and is the
    last selected one, and a selected id is the last selected one. *)
Definition sel_ok (s : State) : Prop :=
  (forall v, selectedComponentPendingId s = Some v ->
             truthy v = true /\ lastSelectedComponentId s = Some v) /\
  (truthy_opt (selectedComponentId s) = true ->
   lastSelectedComponentId s = selectedComponentId s).

(** The mirror proper, and the three selection variables. *)
Definition mirror_eq (s s' : State) : Prop :=
  heap s' = heap s /\ rootInstances s' = rootInstances s /\
  componentsMap s' = componentsMap s /\ componentsParent s' = componentsParent s.

Definition sel_eq (s s' : State) : Prop :=
  selectedComponentId s' = selectedComponentId s /\
  selectedComponentPendingId s' = selectedComponentPendingId s /\
  lastSelectedComponentId s' = lastSelectedComponentId s.

(** Every id with an entry in a table of [s0] has one in that table of [s]. *)
Definition tables_grow (s0 s : State) : Prop :=
  (forall k, is_Some (componentsMap s0 !! k) -> is_Some (componentsMap s !! k)) /\
  (forall k, is_Some (componentsParent s0 !! k) -> is_Some (componentsParent s !! k)).

(** The result is not a thrown [TypeError]. *)
Definition not_TypeError {A} (r : Res A) : Prop :=
  forall s, r <> Throw TypeError s.

(** Example data with fields: the child [a] is stored with a name and a
    file, and sent again with a new name only. *)
Definition tree_2 : Node :=
  mkNode "1:root" true
    [mkNode "a" true [leaf "x"] {["name" := "Old"; "file" := "a.vue"]}] ∅.

Definition payloads_2 : list (string * Parsed) :=
  [("tree-2", PArray [tree_2]);
   ("a-renamed", PArray [mkNode "a" true [] {["name" := "New"]}])].

Definition loaded_2 : State :=
  state_of (onComponentTree (parse_table payloads_2) 8
              (mkTreeMsg "_root" (Some "tree-2") false)
              (requestComponentTree None init)).

(** A component is selected through the route, the bridge is set up again
    (which forgets the pending id), and the whole tree is requested. *)
Definition reconnected : State :=
  core (run (parse_table payloads)
          [RouteChanged (Some "a"); Setup; RequestTree None] init_app).

(** ** What outlives the events *)

(** Ids that have an expand state keep one. *)
Definition keeps_expand (s s' : State) : Prop :=
  forall k, is_Some (expandedMap s !! k) -> is_Some (expandedMap s' !! k).

(** A pending detail request stays pending, possibly for another id. *)
Definition keeps_pending (s s' : State) : Prop :=
  is_Some (selectedComponentPendingId s) -> is_Some (selectedComponentPendingId s').

Definition quiet (s s' : State) : Prop := keeps_expand s s' /\ keeps_pending s s'.

(** ** Watchers at work *)

(** The watcher after its callback has run with each value in turn. *)
Definition feed (values : list (option string)) (w : Watcher) : Watcher :=
  foldl (fun w v => onWatched v w) w values.

(** The watcher holds the subscription for [value] and no other, or none
    when [value] is [null]. *)
Definition holds (w : Watcher) (value : option string) : Prop :=
  match value with
  | Some v => exists n, unsub w = Some n /\ active w = [(n, v)]
  | None => unsub w = None /\ active w = []
  end.

(** ** Cycles in the store *)

(** [b] lies under one of its own children. *)
Definition on_cycle (h : list Obj) (b : addr) : Prop :=
  exists o c, h !! b = Some o /\ In c (o_children o) /\ reach h c b.

(** An answer for [a] that lists the root, without children, as a child of
    [a]: the root's stored children, [a] among them, are restored into it. *)
Definition payloads_3 : list (string * Parsed) :=
  [("a-over-root", PArray [mkNode "a" true [mkNode "1:root" true [] ∅] ∅])].

Definition looped : State :=
  state_of (onComponentTree (parse_table payloads_3) 8
              (mkTreeMsg "a" (Some "a-over-root") false) loaded).
(** * Properties *)

(** ** Truthiness and equality tests *)

Lemma strict_eq_true a b : strict_eq a b = true <-> b = Some a.
Proof.
  destruct b as [b|]; simpl.
  - rewrite String.eqb_eq. split; [intros ->; reflexivity | intros [= ->]; reflexivity].
  - split; discriminate.
Qed.

Lemma strict_eq_false a b : strict_eq a b = false <-> b ≠ Some a.
Proof.
  rewrite <- strict_eq_true. destruct (strict_eq a b); split; congruence.
Qed.

Lemma truthy_false s : truthy s = false <-> s = "".
Proof.
  unfold truthy. rewrite negb_false_iff. apply String.eqb_eq.
Qed.

Lemma truthy_true s : truthy s = true <-> s ≠ "".
Proof.
  unfold truthy. rewrite negb_true_iff. apply String.eqb_neq.
Qed.

(** ** Requests *)

Lemma requestComponentTree_eq instanceId s :
  requestComponentTree instanceId s =
  send (ComponentTree (opt_target instanceId) (treeFilter s))
    (if String.eqb (opt_target instanceId) "_root"
     then set_resetComponentsQueued true s else s).
Proof.
  unfold requestComponentTree, opt_target, tree_target.
  destruct instanceId as [i|]; simpl.
  - destruct (truthy i); simpl.
    + destruct (String.eqb i "_root"); reflexivity.
    + reflexivity.
  - reflexivity.
Qed.

(** ** Selection: [loadComponent] *)

Lemma loadComponent_fresh s x :
  truthy x = true -> selectedComponentPendingId s ≠ Some x ->
  loadComponent (Some x) s =
  send (ComponentSelectedData x)
    (set_selectedComponentPendingId (Some x)
       (set_lastSelectedComponentId (Some x) s)).
Proof.
  intros Ht Hp. unfold loadComponent. rewrite Ht. simpl.
  apply strict_eq_false in Hp. rewrite Hp. reflexivity.
Qed.

Lemma loadComponent_pending s x :
  selectedComponentPendingId s = Some x -> loadComponent (Some x) s = s.
Proof.
  intros Hp. unfold loadComponent.
  apply strict_eq_true in Hp. rewrite Hp. rewrite orb_true_r. reflexivity.
Qed.

(** C3: [loadComponent] does nothing for an empty id and for the id that is
    already pending; otherwise it records the id as pending and as last
    selected and sends one detail fetch.  Two calls in a row for the same id
    therefore send one detail fetch. *)
Theorem loadComponent_dedup :
  (forall s id,
      truthy_opt id = false \/ (is_Some id /\ id = selectedComponentPendingId s) ->
      loadComponent id s = s) /\
  (forall s x,
      truthy x = true -> selectedComponentPendingId s ≠ Some x ->
      loadComponent (Some x) s =
      mkState (heap s) (rootInstances s) (componentsMap s) (componentsParent s)
        (treeFilter s) (selectedComponentId s) (selectedComponentData s)
        (Some x) (Some x)
        (expandedMap s) (resetComponentsQueued s)
        (sent s ++ [ComponentSelectedData x]) (errors s)) /\
  (forall s x,
      truthy x = true -> selectedComponentPendingId s ≠ Some x ->
      loadComponent (Some x) (loadComponent (Some x) s) = loadComponent (Some x) s /\
      sent (loadComponent (Some x) (loadComponent (Some x) s)) =
      sent s ++ [ComponentSelectedData x]).
Proof.
  split; [|split].
  - intros s [x|] H.
    + destruct H as [H | [_ H]].
      * simpl in H. unfold loadComponent. rewrite H. reflexivity.
      * apply loadComponent_pending. congruence.
    + reflexivity.
  - intros s x Ht Hp. rewrite loadComponent_fresh by assumption. reflexivity.
  - intros s x Ht Hp. rewrite (loadComponent_fresh s x) by assumption.
    split.
    + apply loadComponent_pending. reflexivity.
    + rewrite loadComponent_pending by reflexivity. reflexivity.
Qed.

Lemma loadComponent_dedup_witness :
  loadComponent (Some "") init = init /\
  loadComponent (Some "7") init =
    mkState [] [] ∅ ∅ "" None None (Some "7") (Some "7") ∅ false
      [ComponentSelectedData "7"] [] /\
  sent (loadComponent (Some "7") (loadComponent (Some "7") init)) =
    [ComponentSelectedData "7"].
Proof.
  destruct loadComponent_dedup as (H1 & H2 & H3).
  split; [|split].
  - apply H1. left. reflexivity.
  - apply (H2 init "7"); [reflexivity | discriminate].
  - apply (H3 init "7"); [reflexivity | discriminate].
Defined.

(** ** Selection: the detail-data handler *)

Section SelectedData.

Variable parse : string -> option Parsed.

Lemma openParent_frame id s :
  heap (openParent id s) = heap s /\
  rootInstances (openParent id s) = rootInstances s /\
  componentsMap (openParent id s) = componentsMap s /\
  componentsParent (openParent id s) = componentsParent s /\
  treeFilter (openParent id s) = treeFilter s /\
  selectedComponentId (openParent id s) = selectedComponentId s /\
  selectedComponentData (openParent id s) = selectedComponentData s /\
  selectedComponentPendingId (openParent id s) = selectedComponentPendingId s /\
  lastSelectedComponentId (openParent id s) = lastSelectedComponentId s /\
  errors (openParent id s) = errors s.
Proof.
  unfold openParent. destruct (endsWith id "root"); [repeat split|].
  rewrite requestComponentTree_eq. destruct (String.eqb _ _); repeat split.
Qed.

Lemma openParent_sent id s :
  sent (openParent id s) =
  sent s ++ (if endsWith id "root" then []
             else [ComponentTree (tree_target id) (treeFilter s)]).
Proof.
  unfold openParent. destruct (endsWith id "root"); [symmetry; apply app_nil_r|].
  rewrite requestComponentTree_eq. destruct (String.eqb _ _); reflexivity.
Qed.

Lemma openParent_expanded id s :
  expandedMap (openParent id s) =
  if endsWith id "root" then expandedMap s else <[id := true]> (expandedMap s).
Proof.
  unfold openParent. destruct (endsWith id "root"); [reflexivity|].
  rewrite requestComponentTree_eq. destruct (String.eqb _ _); reflexivity.
Qed.

(** The walk, on an already reversed list. *)
Lemma walk_frame l s :
  let s' := foldl (fun s id => openParent id s) s l in
  treeFilter s' = treeFilter s /\
  selectedComponentId s' = selectedComponentId s /\
  selectedComponentData s' = selectedComponentData s /\
  selectedComponentPendingId s' = selectedComponentPendingId s /\
  lastSelectedComponentId s' = lastSelectedComponentId s /\
  heap s' = heap s /\ rootInstances s' = rootInstances s /\
  componentsMap s' = componentsMap s /\
  componentsParent s' = componentsParent s.
Proof.
  revert s. induction l as [|id l IH]; intros s; simpl; [repeat split|].
  specialize (IH (openParent id s)). simpl in IH.
  destruct (openParent_frame id s) as (?&?&?&?&?&?&?&?&?&?).
  destruct IH as (?&?&?&?&?&?&?&?&?).
  repeat split; congruence.
Qed.

Lemma walk_sent l s :
  sent (foldl (fun s id => openParent id s) s l) =
  sent s ++ map (fun id => ComponentTree (tree_target id) (treeFilter s))
                (List.filter (fun id => negb (endsWith id "root")) l).
Proof.
  revert s. induction l as [|id l IH]; intros s; simpl.
  - symmetry; apply app_nil_r.
  - rewrite IH, openParent_sent.
    destruct (openParent_frame id s) as (_&_&_&_&->&_).
    destruct (endsWith id "root"); simpl.
    + rewrite app_nil_r. reflexivity.
    + rewrite <- app_assoc. reflexivity.
Qed.

Lemma walk_expanded_other l s k :
  (forall id, In id l -> endsWith id "root" = false -> id ≠ k) ->
  expandedMap (foldl (fun s id => openParent id s) s l) !! k = expandedMap s !! k.
Proof.
  revert s. induction l as [|id l IH]; intros s H; simpl; [reflexivity|].
  rewrite IH by (intros; apply H; [right|]; assumption).
  rewrite openParent_expanded.
  destruct (endsWith id "root") eqn:E; [reflexivity|].
  apply lookup_insert_ne. apply H; [left; reflexivity | assumption].
Qed.

Lemma walk_expanded_in l s k :
  In k l -> endsWith k "root" = false ->
  expandedMap (foldl (fun s id => openParent id s) s l) !! k = Some true.
Proof.
  revert s. induction l as [|id l IH]; intros s Hin Hk; [destruct Hin|].
  simpl. destruct (in_dec string_dec k l) as [Hl|Hl].
  - apply IH; assumption.
  - destruct Hin as [->|Hin]; [|contradiction].
    rewrite walk_expanded_other by (intros id Hid _ ->; contradiction).
    rewrite openParent_expanded, Hk. apply lookup_insert_eq.
Qed.

(** What the handler does once the payload, if it is looked at, parses. *)
Lemma onSelectedData_ok msg s v :
  (selectedComponentId s = Some (sd_instanceId msg) -> parse (sd_data msg) = Some v) ->
  onSelectedData parse msg s =
  Ok tt
    (let s1 := if strict_eq (sd_instanceId msg) (selectedComponentId s)
               then set_selectedComponentData (Some v) s else s in
     let s2 := if strict_eq (sd_instanceId msg) (selectedComponentPendingId s)
               then set_selectedComponentPendingId None s1 else s1 in
     match sd_parentIds msg with
     | Some parentIds => openParents parentIds s2
     | None => s2
     end).
Proof.
  intros Hp. unfold onSelectedData.
  destruct (strict_eq (sd_instanceId msg) (selectedComponentId s)) eqn:E.
  - apply strict_eq_true in E. rewrite (Hp E). simpl.
    destruct (strict_eq _ (selectedComponentPendingId s));
      destruct (sd_parentIds msg); reflexivity.
  - destruct (strict_eq _ (selectedComponentPendingId s));
      destruct (sd_parentIds msg); reflexivity.
Qed.

End SelectedData.

Lemma tree_target_eq x id :
  endsWith id "root" = false -> tree_target x = id -> x = id.
Proof.
  intros Hid. unfold tree_target. destruct (truthy x); [trivial|].
  intros <-. discriminate Hid.
Qed.

Lemma tree_target_id id : id ≠ "" -> tree_target id = id.
Proof.
  intros H. unfold tree_target. apply truthy_true in H. rewrite H. reflexivity.
Qed.

Lemma NoDup_rev_list {A} (l : list A) : NoDup l -> NoDup (rev l).
Proof.
  induction 1 as [|x l Hx Hnd IH]; simpl; [constructor|].
  apply NoDup_app. split; [assumption|]. split.
  - intros y Hy Hy'. apply list_elem_of_In in Hy. apply in_rev in Hy.
    apply list_elem_of_singleton in Hy' as ->. apply Hx, list_elem_of_In, Hy.
  - apply NoDup_singleton.
Qed.

Lemma tree_fetches_none id f l :
  endsWith id "root" = false -> ~ In id l ->
  tree_fetches_for id (map (fun x => ComponentTree (tree_target x) f) l) = 0.
Proof.
  intros Hid. induction l as [|x l IH]; intros Hn; [reflexivity|].
  unfold tree_fetches_for in *. simpl.
  destruct (String.eqb (tree_target x) id) eqn:E.
  - apply String.eqb_eq, tree_target_eq in E; [|assumption].
    exfalso. apply Hn. left. assumption.
  - apply IH. intros H. apply Hn. right. assumption.
Qed.

Lemma tree_fetches_once id f l :
  endsWith id "root" = false -> id ≠ "" -> NoDup l -> In id l ->
  tree_fetches_for id
    (map (fun x => ComponentTree (tree_target x) f)
         (List.filter (fun x => negb (endsWith x "root")) l)) = 1.
Proof.
  intros Hid Hne Hnd. induction Hnd as [|x l Hx Hnd IH]; intros Hin; [destruct Hin|].
  simpl. destruct (string_dec x id) as [->|Hxid].
  - rewrite Hid. simpl. unfold tree_fetches_for. simpl.
    rewrite (tree_target_id id Hne), String.eqb_refl. simpl. f_equal.
    apply (tree_fetches_none id f); [assumption|].
    intros H. apply filter_In in H. apply Hx. apply list_elem_of_In, H.
  - destruct Hin as [?|Hin]; [contradiction|].
    destruct (endsWith x "root") eqn:Ex; simpl; [apply IH; assumption|].
    unfold tree_fetches_for. simpl.
    destruct (String.eqb (tree_target x) id) eqn:E.
    + apply String.eqb_eq, tree_target_eq in E; [contradiction | assumption].
    + apply IH. assumption.
Qed.

Lemma tree_fetches_skipped id f l :
  endsWith id "root" = true -> ~ In "" l ->
  tree_fetches_for id
    (map (fun x => ComponentTree (tree_target x) f)
         (List.filter (fun x => negb (endsWith x "root")) l)) = 0.
Proof.
  intros Hid. induction l as [|x l IH]; intros Hn; [reflexivity|].
  assert (Hl : ~ In "" l) by (intros H; apply Hn; right; assumption).
  simpl. destruct (endsWith x "root") eqn:Ex; simpl; [apply IH; assumption|].
  unfold tree_fetches_for. simpl.
  destruct (String.eqb (tree_target x) id) eqn:E.
  - apply String.eqb_eq in E. rewrite tree_target_id in E.
    + congruence.
    + intros ->. apply Hn. left. reflexivity.
  - apply IH. assumption.
Qed.

(** C2: a detail response replaces the snapshot exactly when its id is the
    selected one, and clears the pending id exactly when its id is the
    pending one, whatever the selection is; the selected id is not touched. *)
Theorem detail_response_guards (parse : string -> option Parsed) msg s v :
  (selectedComponentId s = Some (sd_instanceId msg) -> parse (sd_data msg) = Some v) ->
  exists s',
    onSelectedData parse msg s = Ok tt s' /\
    selectedComponentData s' =
      (if decide (selectedComponentId s = Some (sd_instanceId msg))
       then Some v else selectedComponentData s) /\
    selectedComponentPendingId s' =
      (if decide (selectedComponentPendingId s = Some (sd_instanceId msg))
       then None else selectedComponentPendingId s) /\
    selectedComponentId s' = selectedComponentId s.
Proof.
  intros Hp. rewrite (onSelectedData_ok parse msg s v Hp).
  eexists. split; [reflexivity|].
  cbv zeta.
  set (s1 := if strict_eq (sd_instanceId msg) (selectedComponentId s)
             then set_selectedComponentData (Some v) s else s).
  set (s2 := if strict_eq (sd_instanceId msg) (selectedComponentPendingId s)
             then set_selectedComponentPendingId None s1 else s1).
  assert (H2 : selectedComponentData s2 =
                 (if decide (selectedComponentId s = Some (sd_instanceId msg))
                  then Some v else selectedComponentData s) /\
               selectedComponentPendingId s2 =
                 (if decide (selectedComponentPendingId s = Some (sd_instanceId msg))
                  then None else selectedComponentPendingId s) /\
               selectedComponentId s2 = selectedComponentId s).
  { subst s2 s1.
    destruct (strict_eq _ (selectedComponentId s)) eqn:E1;
      destruct (strict_eq _ (selectedComponentPendingId s)) eqn:E2;
      first [apply strict_eq_true in E1 | apply strict_eq_false in E1];
      first [apply strict_eq_true in E2 | apply strict_eq_false in E2];
      repeat case_decide; try contradiction; simpl; repeat split. }
  simpl. destruct (sd_parentIds msg) as [ids|]; [|exact H2].
  unfold openParents.
  destruct (walk_frame (rev ids) s2) as (_ & -> & -> & -> & _).
  exact H2.
Qed.

Lemma detail_response_guards_witness :
  let s := set_selectedComponentPendingId (Some "a")
             (set_selectedComponentId (Some "b") init) in
  exists s',
    onSelectedData (parse_table [("d", PObject "detail of a")])
      (mkSelectedDataMsg "a" "d" None) s = Ok tt s' /\
    selectedComponentData s' = None /\
    selectedComponentPendingId s' = None /\
    selectedComponentId s' = Some "b".
Proof.
  apply (detail_response_guards
           (parse_table [("d", PObject "detail of a")])
           (mkSelectedDataMsg "a" "d" None)
           (set_selectedComponentPendingId (Some "a")
              (set_selectedComponentId (Some "b") init))
           (PObject "detail of a")).
  simpl. discriminate.
Defined.

(** C9: the ancestors that come with a detail response are walked from the
    outermost to the innermost; an id ending in [root] is skipped, every
    other one is marked expanded and gets one tree fetch. *)
Theorem ancestors_expanded_and_fetched (parse : string -> option Parsed) msg s v ids :
  sd_parentIds msg = Some ids ->
  (selectedComponentId s = Some (sd_instanceId msg) -> parse (sd_data msg) = Some v) ->
  NoDup ids -> ~ In "" ids ->
  exists s',
    onSelectedData parse msg s = Ok tt s' /\
    sent s' =
      sent s ++ map (fun id => ComponentTree id (treeFilter s))
                    (List.filter (fun id => negb (endsWith id "root")) (rev ids)) /\
    (forall id, In id ids -> endsWith id "root" = false ->
       expandedMap s' !! id = Some true /\
       tree_fetches_for id (drop (length (sent s)) (sent s')) = 1) /\
    (forall id, endsWith id "root" = true ->
       expandedMap s' !! id = expandedMap s !! id /\
       tree_fetches_for id (drop (length (sent s)) (sent s')) = 0).
Proof.
  intros Hids Hp Hnd Hne.
  rewrite (onSelectedData_ok parse msg s v Hp), Hids.
  eexists. split; [reflexivity|].
  cbv zeta.
  set (s1 := if strict_eq (sd_instanceId msg) (selectedComponentId s)
             then set_selectedComponentData (Some v) s else s).
  set (s2 := if strict_eq (sd_instanceId msg) (selectedComponentPendingId s)
             then set_selectedComponentPendingId None s1 else s1).
  assert (Hs2 : sent s2 = sent s /\ treeFilter s2 = treeFilter s /\
                expandedMap s2 = expandedMap s).
  { subst s2 s1. destruct (strict_eq _ (selectedComponentId s));
      destruct (strict_eq _ (selectedComponentPendingId s)); repeat split. }
  destruct Hs2 as (Hsent & Hfilter & Hexp).
  assert (Hcmds : sent (openParents ids s2) =
                  sent s ++ map (fun id => ComponentTree (tree_target id) (treeFilter s))
                    (List.filter (fun id => negb (endsWith id "root")) (rev ids))).
  { unfold openParents. rewrite walk_sent, Hsent, Hfilter. reflexivity. }
  assert (Hne' : ~ In "" (rev ids)) by (rewrite <- in_rev; assumption).
  assert (Hnd' : NoDup (rev ids)) by (apply NoDup_rev_list; assumption).
  simpl. split; [|split].
  - rewrite Hcmds. f_equal. apply map_ext_in. intros id Hid.
    apply filter_In in Hid. rewrite tree_target_id; [reflexivity|].
    intros ->. apply Hne'. apply Hid.
  - intros id Hin Hroot. split.
    + unfold openParents. apply walk_expanded_in; [|assumption].
      rewrite <- in_rev. assumption.
    + rewrite Hcmds, drop_app_length. apply tree_fetches_once; try assumption.
      * intros ->. contradiction.
      * rewrite <- in_rev. assumption.
  - intros id Hroot. split.
    + unfold openParents. rewrite walk_expanded_other, Hexp; [reflexivity|].
      intros x _ Hx ->. congruence.
    + rewrite Hcmds, drop_app_length. apply tree_fetches_skipped; assumption.
Qed.

Lemma ancestors_expanded_and_fetched_witness :
  exists s',
    onSelectedData (parse_table []) (mkSelectedDataMsg "c" "d" (Some ["b"; "a"; "1:root"])) init
      = Ok tt s' /\
    sent s' = [ComponentTree "a" ""; ComponentTree "b" ""] /\
    expandedMap s' !! "a" = Some true /\
    expandedMap s' !! "b" = Some true /\
    expandedMap s' !! "1:root" = None.
Proof.
  destruct (ancestors_expanded_and_fetched (parse_table [])
              (mkSelectedDataMsg "c" "d" (Some ["b"; "a"; "1:root"])) init
              (PObject "") ["b"; "a"; "1:root"])
    as (s' & Hrun & Hsent & Hopen & Hskip).
  - reflexivity.
  - discriminate.
  - repeat (apply NoDup_cons_2;
              [rewrite list_elem_of_In; simpl; intuition discriminate|]).
    apply NoDup_nil_2.
  - simpl. intuition discriminate.
  - exists s'. split; [exact Hrun|]. split; [exact Hsent|].
    split; [apply Hopen; [simpl; tauto | reflexivity]|].
    split; [apply Hopen; [simpl; tauto | reflexivity]|].
    rewrite (proj1 (Hskip "1:root" eq_refl)). reflexivity.
Defined.

(** ** The tree-data handler: reset, missing data, malformed data *)

Section TreeData.

Variable parse : string -> option Parsed.

Lemma resetComponents_idem s : resetComponents (resetComponents s) = resetComponents s.
Proof. reflexivity. Qed.

(** The handler starts from [after_queued_reset]: running it on a state
    with a queued reset is running it on the cleared state. *)
Lemma onComponentTree_reset_first fuel msg s :
  onComponentTree parse fuel msg s =
  onComponentTree parse fuel msg (after_queued_reset s).
Proof.
  unfold after_queued_reset.
  destruct (resetComponentsQueued s) eqn:E; [|reflexivity].
  unfold onComponentTree. rewrite E. reflexivity.
Qed.

Lemma onComponentTree_no_data fuel msg s :
  has_data msg = false ->
  onComponentTree parse fuel msg s =
  Ok tt (if endsWith (tm_instanceId msg) "root" && negb (tm_notFound msg)
         then putError not_supported (after_queued_reset s)
         else after_queued_reset s).
Proof.
  unfold has_data, onComponentTree, after_queued_reset, not_supported.
  destruct (tm_treeData msg) as [raw|]; [intros ->|intros _]; reflexivity.
Qed.

Lemma onComponentTree_parse_failure fuel msg s raw :
  tm_treeData msg = Some raw -> truthy raw = true -> parse raw = None ->
  onComponentTree parse fuel msg s = Throw ParseFailure (after_queued_reset s).
Proof.
  intros Hd Ht Hp. unfold onComponentTree, after_queued_reset.
  rewrite Hd, Ht, Hp. reflexivity.
Qed.

End TreeData.

(** C4: a request for the whole tree changes neither the node table, nor the
    parent table, nor the roots: it queues the reset and sends the fetch with
    the current filter.  The three tables and the flag are cleared when the
    next tree-data message is handled, before anything of it is merged. *)
Theorem root_request_defers_reset
    (parse : string -> option Parsed) fuel msg s instanceId :
  instanceId = None \/ instanceId = Some "" \/ instanceId = Some "_root" ->
  let s' := requestComponentTree instanceId s in
  s' = mkState (heap s) (rootInstances s) (componentsMap s) (componentsParent s)
         (treeFilter s) (selectedComponentId s) (selectedComponentData s)
         (selectedComponentPendingId s) (lastSelectedComponentId s)
         (expandedMap s) true
         (sent s ++ [ComponentTree "_root" (treeFilter s)]) (errors s) /\
  onComponentTree parse fuel msg s' = onComponentTree parse fuel msg (resetComponents s') /\
  rootInstances (resetComponents s') = [] /\
  componentsMap (resetComponents s') = ∅ /\
  componentsParent (resetComponents s') = ∅ /\
  resetComponentsQueued (resetComponents s') = false.
Proof.
  intros H s'.
  assert (Hs' : s' = mkState (heap s) (rootInstances s) (componentsMap s)
                       (componentsParent s) (treeFilter s) (selectedComponentId s)
                       (selectedComponentData s) (selectedComponentPendingId s)
                       (lastSelectedComponentId s) (expandedMap s) true
                       (sent s ++ [ComponentTree "_root" (treeFilter s)]) (errors s)).
  { subst s'. destruct H as [->|[->| ->]]; reflexivity. }
  split; [exact Hs'|]. split; [|repeat split].
  rewrite (onComponentTree_reset_first parse fuel msg s').
  rewrite Hs'. reflexivity.
Qed.

Lemma root_request_defers_reset_witness :
  componentsMap (requestComponentTree None loaded) = componentsMap loaded /\
  state_of (onComponentTree (parse_table payloads) 8 (mkTreeMsg "_root" None true)
              (requestComponentTree None loaded))
  = resetComponents (requestComponentTree None loaded).
Proof.
  destruct (root_request_defers_reset (parse_table payloads) 8
              (mkTreeMsg "_root" None true) loaded None (or_introl eq_refl))
    as (Hreq & Hrun & _).
  split.
  - rewrite Hreq. reflexivity.
  - rewrite Hrun. reflexivity.
Defined.

(** C5, as the claim has it, fails: a root target with no data and with the
    not-found signal surfaces no error. *)
Lemma not_found_root_surfaces_nothing :
  let r := onComponentTree (parse_table []) 8 (mkTreeMsg "1:root" None true) init in
  endsWith "1:root" "root" = true /\
  r = Ok tt (state_of r) /\
  errors (state_of r) = [].
Proof. repeat split. Qed.

(** C5, amended: for a message without tree data the error is surfaced when
    the target is a root and not-found is not signalled; with the not-found
    signal, or for another target, nothing happens beyond the queued reset. *)
Theorem no_data_error_iff_root_and_not_notFound
    (parse : string -> option Parsed) fuel msg s :
  has_data msg = false ->
  exists s',
    onComponentTree parse fuel msg s = Ok tt s' /\
    (endsWith (tm_instanceId msg) "root" = true -> tm_notFound msg = false ->
       s' = putError not_supported (after_queued_reset s) /\
       errors s' = errors s ++ [not_supported]) /\
    (endsWith (tm_instanceId msg) "root" = false \/ tm_notFound msg = true ->
       s' = after_queued_reset s /\ errors s' = errors s).
Proof.
  intros Hd. rewrite onComponentTree_no_data by assumption.
  eexists. split; [reflexivity|].
  assert (He : errors (after_queued_reset s) = errors s)
    by (unfold after_queued_reset; destruct (resetComponentsQueued s); reflexivity).
  split.
  - intros -> ->. simpl. split; [reflexivity|]. rewrite He. reflexivity.
  - intros [-> | ->]; [|rewrite andb_false_r]; simpl; split; (reflexivity || exact He).
Qed.

Lemma no_data_error_iff_root_and_not_notFound_witness :
  exists s',
    onComponentTree (parse_table []) 8 (mkTreeMsg "1:root" None false) init = Ok tt s' /\
    errors s' = [not_supported].
Proof.
  destruct (no_data_error_iff_root_and_not_notFound (parse_table []) 8
              (mkTreeMsg "1:root" None false) init eq_refl) as (s' & Hrun & Hroot & _).
  exists s'. split; [exact Hrun|].
  apply (Hroot eq_refl eq_refl).
Defined.

(** ** Expand state: [toggleExpand] *)

(** C6, as the claim has it, fails: collapsing an expanded node with [load]
    requested sends a tree fetch although the resulting state is collapsed. *)
Lemma collapse_with_load_fetches :
  let instance := mkObj "a" true [0] ∅ in
  let s := setComponentOpen "a" true init in
  isExpanded instance s = true /\
  expandedMap (toggleExpand instance true s) !! "a" = Some false /\
  sent s = [] /\
  sent (toggleExpand instance true s) = [ComponentTree "a" ""].
Proof. repeat split. Qed.

(** C6, amended: [toggleExpand] does nothing for a node without children;
    otherwise it flips the entry of the node (absent counting as collapsed)
    and sends a tree fetch for the node if and only if [load] is requested,
    whether the node ends expanded or collapsed. *)
Theorem toggleExpand_flips_and_fetches_on_load instance load s :
  (o_hasChildren instance = false -> toggleExpand instance load s = s) /\
  (o_hasChildren instance = true ->
     expandedMap (toggleExpand instance load s) =
       <[o_id instance := negb (default false (expandedMap s !! o_id instance))]>
         (expandedMap s) /\
     sent (toggleExpand instance load s) =
       sent s ++ (if load
                  then [ComponentTree (tree_target (o_id instance)) (treeFilter s)]
                  else [])).
Proof.
  unfold toggleExpand. split; intros ->; simpl; [reflexivity|].
  destruct load.
  - rewrite requestComponentTree_eq. simpl.
    destruct (String.eqb _ _); split; reflexivity.
  - split; [reflexivity | symmetry; apply app_nil_r].
Qed.

Lemma toggleExpand_flips_and_fetches_on_load_witness :
  toggleExpand (mkObj "1:root" false [] ∅) true init = init /\
  expandedMap (toggleExpand (mkObj "a" true [] ∅) false init) !! "a" = Some true /\
  sent (toggleExpand (mkObj "a" true [] ∅) true init) = [ComponentTree "a" ""].
Proof.
  split; [|split].
  - apply (proj1 (toggleExpand_flips_and_fetches_on_load
                    (mkObj "1:root" false [] ∅) true init)). reflexivity.
  - destruct (proj2 (toggleExpand_flips_and_fetches_on_load
                       (mkObj "a" true [] ∅) false init) eq_refl) as [-> _].
    reflexivity.
  - destruct (proj2 (toggleExpand_flips_and_fetches_on_load
                       (mkObj "a" true [] ∅) true init) eq_refl) as [_ ->].
    reflexivity.
Defined.

(** ** Malformed tree data *)

(** C7, as the claim has it, fails: with a reset queued, a payload that does
    not parse still leaves the mirror cleared. *)
Lemma parse_failure_after_queued_reset_clears :
  let s := requestComponentTree None loaded in
  let r := onComponentTree (parse_table payloads) 8
             (mkTreeMsg "_root" (Some "garbage") false) s in
  parse_table payloads "garbage" = None /\
  resetComponentsQueued s = true /\
  componentsMap s !! "a" = Some 1 /\
  componentsParent s !! "a" = Some "1:root" /\
  rootInstances s = [3] /\
  (exists s', r = Throw ParseFailure s') /\
  componentsMap (state_of r) !! "a" = None /\
  componentsParent (state_of r) !! "a" = None /\
  rootInstances (state_of r) = [].
Proof.
  cbv zeta. repeat split; try reflexivity.
  eexists. vm_compute. reflexivity.
Qed.

(** C7, amended: when the payload does not parse, the handler throws and
    nothing of the message is merged; the mirror is as the handler found it,
    except that a queued reset has been carried out. *)
Theorem parse_failure_merges_nothing
    (parse : string -> option Parsed) fuel msg s raw :
  tm_treeData msg = Some raw -> truthy raw = true -> parse raw = None ->
  onComponentTree parse fuel msg s = Throw ParseFailure (after_queued_reset s) /\
  (resetComponentsQueued s = false -> after_queued_reset s = s) /\
  (resetComponentsQueued s = true -> after_queued_reset s = resetComponents s).
Proof.
  intros Hd Ht Hp. split; [apply (onComponentTree_parse_failure parse fuel msg s raw); assumption|].
  unfold after_queued_reset. split; intros ->; reflexivity.
Qed.

Lemma parse_failure_merges_nothing_witness :
  onComponentTree (parse_table payloads) 8
    (mkTreeMsg "_root" (Some "garbage") false) loaded = Throw ParseFailure loaded.
Proof.
  destruct (parse_failure_merges_nothing (parse_table payloads) 8
              (mkTreeMsg "_root" (Some "garbage") false) loaded "garbage"
              eq_refl eq_refl eq_refl) as (Hrun & Hkeep & _).
  rewrite Hrun, Hkeep; [reflexivity | vm_compute; reflexivity].
Defined.

(** ** Unfoldings of the store and [addToComponentsMap] *)

Lemma View_ind' (P : View -> Prop) :
  (forall a o kids, Forall P kids -> P (VNode a o kids)) ->
  forall v, P v.
Proof.
  intros H. fix IH 1. intros [a o kids]. apply H.
  induction kids as [|k kids IHk]; constructor; [apply IH | exact IHk].
Qed.

Lemma Node_ind' (P : Node -> Prop) :
  (forall i hc kids p, Forall P kids -> P (mkNode i hc kids p)) ->
  forall t, P t.
Proof.
  intros H. fix IH 1. intros [i hc kids p]. apply H.
  induction kids as [|k kids IHk]; constructor; [apply IH | exact IHk].
Qed.

Lemma shows_inv h a o kids :
  shows h (VNode a o kids) ->
  h !! a = Some o /\ o_children o = map view_addr kids /\ Forall (shows h) kids.
Proof. inversion 1; subst; auto. Qed.

Lemma shows_lookup h v : shows h v -> h !! view_addr v = Some (view_obj v).
Proof. destruct v. intros H. apply shows_inv in H. apply H. Qed.

Lemma assign_app {V} (m : gmap string V) l1 l2 :
  assign m (l1 ++ l2) = assign (assign m l1) l2.
Proof. apply foldl_app. Qed.

Lemma register_heap v s : heap (register v s) = heap s.
Proof. reflexivity. Qed.

Lemma attach_all parent kids s :
  foldl (attach parent) s kids =
  set_componentsParent
    (assign (componentsParent s)
       (flat_map (fun k => (view_id k, parent) :: parent_entries k) kids))
    (set_componentsMap
       (assign (componentsMap s) (flat_map map_entries kids)) s).
Proof.
  revert s. induction kids as [|k kids IH]; intros s; simpl.
  - destruct s; reflexivity.
  - rewrite IH. rewrite !assign_app. destruct s; reflexivity.
Qed.

Lemma depth_kids a o kids fuel :
  depth (VNode a o kids) <= S fuel -> Forall (fun k => depth k <= fuel) kids.
Proof.
  simpl. intros H. apply le_S_n in H. revert H.
  induction kids as [|k kids IH]; simpl; intros H; constructor.
  - lia.
  - apply IH. lia.
Qed.

Lemma addToComponentsMap_register v :
  forall fuel s,
    shows (heap s) v -> depth v <= fuel ->
    addToComponentsMap fuel (view_addr v) s = Ok tt (register v s).
Proof.
  induction v as [a o kids IH] using View_ind'. intros fuel s Hs Hd.
  destruct fuel as [|fuel]; [simpl in Hd; lia|].
  apply shows_inv in Hs as (Ha & Hc & Hk).
  apply depth_kids in Hd.
  simpl. rewrite Ha, Hc.
  set (s1 := set_componentsMap (<[o_id o := a]> (componentsMap s)) s).
  assert (Hloop : forall s',
             heap s' = heap s ->
             forEach
               (fun c s0 =>
                  match heap s0 !! c with
                  | Some child =>
                      addToComponentsMap fuel c
                        (set_componentsParent
                           (<[o_id child := o_id o]> (componentsParent s0)) s0)
                  | None => Throw TypeError s0
                  end) (map view_addr kids) s'
             = Ok tt (foldl (attach (o_id o)) s' kids)).
  { clear Ha Hc. induction kids as [|k kids IHk]; intros s' Hh; [reflexivity|].
    apply Forall_cons in IH as [IHhd IHtl].
    apply Forall_cons in Hk as [Hkhd Hktl].
    apply Forall_cons in Hd as [Hdhd Hdtl].
    simpl. unfold bind.
    rewrite Hh, (shows_lookup _ _ Hkhd).
    rewrite IHhd; [|simpl; rewrite Hh; assumption|assumption].
    apply (IHk IHtl Hktl Hdtl). exact Hh. }
  rewrite (Hloop s1 eq_refl). f_equal.
  rewrite attach_all. subst s1. unfold register. simpl. destruct s; reflexivity.
Qed.

(** ** Allocation of parsed trees *)

Lemma alloc_Sent i hc kids p h :
  alloc (Sent i hc kids p) h =
  let '(cs, h') := alloc_list kids h in (length h', h' ++ [mkObj i hc cs p]).
Proof. reflexivity. Qed.

Lemma shows_app h ext v : shows h v -> shows (h ++ ext) v.
Proof.
  induction v as [a o kids IH] using View_ind'. intros H.
  apply shows_inv in H as (Ha & Hc & Hk). constructor.
  - apply lookup_app_l_Some. assumption.
  - assumption.
  - rewrite Forall_forall in *. intros k Hin. apply IH; [|apply Hk]; assumption.
Qed.

Lemma height_erase v : height (erase v) = depth v.
Proof.
  induction v as [a o kids IH] using View_ind'. simpl. f_equal.
  induction kids as [|k kids IHk]; [reflexivity|].
  apply Forall_cons in IH as [Hhd Htl]. simpl. rewrite Hhd, (IHk Htl). reflexivity.
Qed.

Lemma alloc_list_fresh ts :
  Forall (fun t => forall h a h', alloc (as_sent t) h = (a, h') ->
                   exists v, fresh_view t h a h' v) ts ->
  forall h cs h',
    alloc_list (map as_sent ts) h = (cs, h') ->
    exists vs,
      (exists ext, h' = h ++ ext) /\
      Forall (shows h') vs /\ map view_addr vs = cs /\ map erase vs = ts /\
      Forall (fun v => Forall (fun x => length h <= x < length h') (addrs v)) vs.
Proof.
  induction ts as [|t ts IHts]; intros IH h cs h' Hal; simpl in Hal.
  - injection Hal as <- <-. exists []. repeat split; try constructor.
    exists []. symmetry. apply app_nil_r.
  - apply Forall_cons in IH as [Hhd Htl].
    destruct (alloc (as_sent t) h) as [a h1] eqn:E1.
    destruct (alloc_list (map as_sent ts) h1) as [as' h2] eqn:E2.
    injection Hal as <- <-.
    destruct (Hhd _ _ _ E1) as (v & [ext1 ->] & Hs & Ha & He & Hr).
    destruct (IHts Htl _ _ _ E2) as (vs & [ext2 ->] & Hss & Has & Hes & Hrs).
    exists (v :: vs). split; [exists (ext1 ++ ext2); symmetry; apply app_assoc|].
    split; [constructor; [apply shows_app; assumption | assumption]|].
    split; [simpl; congruence|]. split; [simpl; congruence|].
    constructor.
    + eapply Forall_impl; [exact Hr|]. simpl. intros x Hx.
      rewrite ?length_app in *. lia.
    + eapply Forall_impl; [exact Hrs|]. simpl. intros w Hw.
      eapply Forall_impl; [exact Hw|]. simpl. intros x Hx.
      rewrite ?length_app in *. lia.
Qed.

Lemma alloc_fresh t :
  forall h a h', alloc (as_sent t) h = (a, h') -> exists v, fresh_view t h a h' v.
Proof.
  induction t as [i hc kids p IH] using Node_ind'. intros h a h' Hal.
  simpl as_sent in Hal. rewrite alloc_Sent in Hal.
  destruct (alloc_list (map as_sent kids) h) as [cs h1] eqn:E.
  injection Hal as <- <-.
  destruct (alloc_list_fresh kids IH _ _ _ E) as (vs & [ext ->] & Hs & Ha & He & Hr).
  exists (VNode (length (h ++ ext)) (mkObj i hc cs p) vs).
  split; [exists (ext ++ [mkObj i hc cs p]); symmetry; apply app_assoc|].
  split; [|split; [reflexivity|split]].
  - constructor.
    + apply list_lookup_middle. reflexivity.
    + simpl. congruence.
    + eapply Forall_impl; [exact Hs|]. intros v. apply shows_app.
  - simpl. rewrite He. reflexivity.
  - simpl. constructor; [rewrite ?length_app; simpl; lia|].
    apply Forall_flat_map. eapply Forall_impl; [exact Hr|]. simpl. intros w Hw.
    eapply Forall_impl; [exact Hw|]. simpl. intros x Hx.
    rewrite ?length_app in *. simpl. lia.
Qed.

Lemma alloc_forest_fresh ts h cs h' :
  alloc_list (map as_sent ts) h = (cs, h') ->
  exists vs,
    (exists ext, h' = h ++ ext) /\
    Forall (shows h') vs /\ map view_addr vs = cs /\ map erase vs = ts /\
    Forall (fun v => Forall (fun x => length h <= x < length h') (addrs v)) vs.
Proof.
  apply alloc_list_fresh. apply Forall_forall. intros t _. apply alloc_fresh.
Qed.

(** ** Tables after a series of assignments *)

Lemma assign_lookup_notin {V} (m : gmap string V) l k :
  ~ In k (map fst l) -> assign m l !! k = m !! k.
Proof.
  revert m. induction l as [|[k' x] l IH]; intros m Hn; [reflexivity|].
  simpl in *. unfold assign in *. simpl. rewrite IH by tauto.
  apply lookup_insert_ne. intros ->. tauto.
Qed.

Lemma assign_lookup_in {V} (m : gmap string V) l k x :
  NoDup (map fst l) -> In (k, x) l -> assign m l !! k = Some x.
Proof.
  revert m. induction l as [|[k' x'] l IH]; intros m Hnd Hin; [destruct Hin|].
  simpl in Hnd. apply NoDup_cons in Hnd as [Hk' Hnd].
  destruct Hin as [[= -> ->]|Hin].
  - change (assign (<[k := x]> m) l !! k = Some x).
    rewrite assign_lookup_notin; [apply lookup_insert_eq|].
    rewrite <- list_elem_of_In. assumption.
  - apply (IH (<[k' := x']> m)); assumption.
Qed.

Lemma assign_lookup_iff {V} (l : list (string * V)) k x :
  NoDup (map fst l) -> assign ∅ l !! k = Some x <-> In (k, x) l.
Proof.
  intros Hnd. split.
  - intros H. destruct (in_dec string_dec k (map fst l)) as [Hin|Hin].
    + apply in_map_iff in Hin as ([k' x'] & <- & Hin). simpl in *.
      rewrite (assign_lookup_in ∅ l k' x' Hnd Hin) in H.
      injection H as <-. exact Hin.
    + rewrite assign_lookup_notin in H by assumption.
      rewrite lookup_empty in H. discriminate.
  - apply assign_lookup_in. assumption.
Qed.

(** ** Parent links of a tree *)

Lemma node_eta t : t = mkNode (node_id t) (node_hasChildren t) (node_children t) (node_fields t).
Proof. destruct t; reflexivity. Qed.

Lemma ids_head t : ids t = node_id t :: flat_map ids (node_children t).
Proof. destruct t; reflexivity. Qed.

Lemma edges_keys t : map fst (edges t) = flat_map ids (node_children t).
Proof.
  induction t as [i hc kids p IH] using Node_ind'. simpl.
  induction kids as [|k kids IHk]; [reflexivity|].
  apply Forall_cons in IH as [Hhd Htl]. simpl.
  rewrite map_app, (IHk Htl), Hhd, (ids_head k). reflexivity.
Qed.

Lemma forest_ids_split ts :
  forest_ids ts ≡ₚ map node_id ts ++ map fst (forest_edges ts).
Proof.
  unfold forest_ids, forest_edges.
  induction ts as [|t ts IH]; [reflexivity|].
  simpl. rewrite map_app, edges_keys, (ids_head t). simpl. constructor.
  rewrite IH. rewrite !app_assoc. apply Permutation_app_tail, Permutation_app_comm.
Qed.

Lemma parent_entries_erase v : parent_entries v = edges (erase v).
Proof.
  induction v as [a o kids IH] using View_ind'. simpl.
  induction kids as [|k kids IHk]; [reflexivity|].
  apply Forall_cons in IH as [Hhd Htl]. simpl.
  rewrite (IHk Htl), Hhd. destruct k; reflexivity.
Qed.

(** ** Registering a whole array of roots *)

Lemma register_all vs s :
  foldl (fun s v => register v s) s vs =
  set_componentsParent
    (assign (componentsParent s) (flat_map parent_entries vs))
    (set_componentsMap (assign (componentsMap s) (flat_map map_entries vs)) s).
Proof.
  revert s. induction vs as [|v vs IH]; intros s; simpl.
  - destruct s; reflexivity.
  - rewrite IH, !assign_app. destruct s; reflexivity.
Qed.

Lemma addToComponentsMap_all fuel vs :
  forall s,
    Forall (shows (heap s)) vs -> Forall (fun v => depth v <= fuel) vs ->
    forEach (addToComponentsMap fuel) (map view_addr vs) s =
    Ok tt (foldl (fun s v => register v s) s vs).
Proof.
  induction vs as [|v vs IH]; intros s Hs Hd; [reflexivity|].
  apply Forall_cons in Hs as [Hs1 Hs2]. apply Forall_cons in Hd as [Hd1 Hd2].
  simpl. unfold bind. rewrite addToComponentsMap_register by assumption.
  apply IH; assumption.
Qed.

Lemma forest_height_bound ts fuel :
  forest_height ts <= fuel -> Forall (fun t => height t <= fuel) ts.
Proof.
  unfold forest_height. induction ts as [|t ts IH]; simpl; intros H; constructor.
  - lia.
  - apply IH. lia.
Qed.

Lemma reloadSelected_frame isRoot s :
  heap (reloadSelected isRoot s) = heap s /\
  rootInstances (reloadSelected isRoot s) = rootInstances s /\
  componentsMap (reloadSelected isRoot s) = componentsMap s /\
  componentsParent (reloadSelected isRoot s) = componentsParent s.
Proof.
  unfold reloadSelected, loadComponent.
  destruct (_ && _); [|repeat split].
  destruct (selectedComponentId s) as [i|]; [|repeat split].
  destruct (_ || _); repeat split.
Qed.

(** ** Merging one item of a known-target update *)

Lemma Incoming_ind' (P : Incoming -> Prop) :
  (forall i hc kids p, Forall P kids -> P (Sent i hc kids p)) ->
  (forall i hc stored p, P (Kept i hc stored p)) ->
  forall d, P d.
Proof.
  intros HS HK. fix IH 1. intros [i hc kids p|i hc stored p]; [|apply HK].
  apply HS. induction kids as [|k kids IHk]; constructor; [apply IH | exact IHk].
Qed.

Lemma inc_id_as_sent t : inc_id (as_sent t) = node_id t.
Proof. destruct t; reflexivity. Qed.

Lemma inc_id_restore s t : inc_id (restoreChildrenFromComponentsMap s t) = node_id t.
Proof.
  destruct t as [i hc kids p]. simpl.
  destruct (instance_of s i) as [inst|]; [|reflexivity].
  destruct hc; [|reflexivity].
  destruct (_ && _); reflexivity.
Qed.

Lemma forEach_app {A} (body : A -> M unit) l1 l2 s s1 :
  forEach body l1 s = Ok tt s1 ->
  forEach body (l1 ++ l2) s = forEach body l2 s1.
Proof.
  revert s. induction l1 as [|x l1 IH]; intros s H; simpl in *.
  - injection H as ->. reflexivity.
  - unfold bind in *. destruct (body x s) as [[] s'|e s']; [|discriminate].
    apply IH. assumption.
Qed.

(** An item whose id is not in the node table makes the merge throw, and
    nothing has been written for it. *)
Lemma mergeItem_unseen fuel item s :
  componentsMap s !! node_id item = None ->
  mergeItem fuel item s = Throw TypeError s.
Proof.
  intros H. unfold mergeItem, bind, updateComponentsMapData.
  rewrite inc_id_restore, H. reflexivity.
Qed.

(** C10: in an update for a target that is in the node table, a top-level
    incoming node whose id is not in the node table when its turn comes makes
    the merge throw; the node is not inserted. *)
Theorem known_target_update_needs_known_items
    (parse : string -> option Parsed) fuel msg s raw pre item post s1 :
  tm_treeData msg = Some raw -> truthy raw = true ->
  parse raw = Some (PArray (pre ++ item :: post)) ->
  is_Some (componentsMap (after_queued_reset s) !! tm_instanceId msg) ->
  forEach (mergeItem fuel) pre (after_queued_reset s) = Ok tt s1 ->
  componentsMap s1 !! node_id item = None ->
  onComponentTree parse fuel msg s = Throw TypeError s1 /\
  componentsMap (state_of (onComponentTree parse fuel msg s)) !! node_id item = None.
Proof.
  intros Hd Ht Hp [t Hk] Hpre Hnew.
  assert (Hrun : onComponentTree parse fuel msg s = Throw TypeError s1).
  { rewrite onComponentTree_reset_first.
    assert (Hq : resetComponentsQueued (after_queued_reset s) = false)
      by (unfold after_queued_reset; destruct (resetComponentsQueued s) eqn:E;
          [reflexivity | exact E]).
    unfold onComponentTree. rewrite Hq, Hd, Ht, Hp, Hk. unfold bind.
    rewrite (forEach_app _ _ _ _ _ Hpre). simpl. unfold bind.
    rewrite mergeItem_unseen by assumption. reflexivity. }
  split; [exact Hrun|]. rewrite Hrun. exact Hnew.
Qed.

Lemma known_target_update_needs_known_items_witness :
  exists s1,
    onComponentTree (parse_table payloads) 8
      (mkTreeMsg "a" (Some "a-and-new") false) loaded = Throw TypeError s1 /\
    componentsMap s1 !! "n" = None.
Proof.
  exists (state_of (forEach (mergeItem 8) [mkNode "a" true [] ∅] loaded)).
  assert (Hpre : forEach (mergeItem 8) [mkNode "a" true [] ∅] (after_queued_reset loaded)
                 = Ok tt (state_of (forEach (mergeItem 8) [mkNode "a" true [] ∅] loaded)))
    by (vm_compute; reflexivity).
  assert (Hnew : componentsMap
                   (state_of (forEach (mergeItem 8) [mkNode "a" true [] ∅] loaded))
                 !! node_id (leaf "n") = None)
    by (vm_compute; reflexivity).
  assert (Hknown : is_Some (componentsMap (after_queued_reset loaded) !! "a"))
    by (exists 1; vm_compute; reflexivity).
  destruct (known_target_update_needs_known_items (parse_table payloads) 8
              (mkTreeMsg "a" (Some "a-and-new") false) loaded "a-and-new"
              [mkNode "a" true [] ∅] (leaf "n") [] _
              eq_refl eq_refl eq_refl Hknown Hpre Hnew) as [Hrun Hnone].
  split; [exact Hrun | exact Hnew].
Defined.

(** [restoreChildrenFromComponentsMap] reaches every incoming node that lies
    below known nodes with [hasChildren], and hands an empty one the stored
    children. *)
Lemma restore_lazy s n p inst :
  instance_of s n = Some inst -> o_children inst <> [] ->
  restoreChildrenFromComponentsMap s (mkNode n true [] p) =
  Kept n true (o_children inst) p.
Proof.
  intros Hi Hc. simpl. rewrite Hi.
  rewrite (bool_decide_eq_false_2 (o_children inst = [])) by assumption.
  reflexivity.
Qed.

Lemma restore_below s t n p inst :
  below s t (mkNode n true [] p) ->
  instance_of s n = Some inst -> o_children inst <> [] ->
  within (restoreChildrenFromComponentsMap s t) (Kept n true (o_children inst) p).
Proof.
  intros Hb Hi Hc. remember (mkNode n true [] p) as t' eqn:Et.
  induction Hb as [t|i kids p0 inst0 c t' Hinst Hin Hb IH]; subst.
  - rewrite (restore_lazy s n p inst) by assumption. constructor.
  - simpl. rewrite Hinst.
    rewrite (bool_decide_eq_false_2 (kids = [])) by (intros ->; destruct Hin).
    simpl.
    apply within_kid with (k := restoreChildrenFromComponentsMap s c).
    + apply in_map. assumption.
    + apply IH. reflexivity.
Qed.

Lemma alloc_list_within kids :
  Forall alloc_spec kids ->
  forall h xs h',
    alloc_list kids h = (xs, h') ->
    (exists ext, h' = h ++ ext) /\
    forall k i hc cs p,
      In k kids -> within k (Kept i hc cs p) ->
      forall h'',
        (forall y, length h <= y < length h' -> h'' !! y = h' !! y) ->
        exists x a', In x xs /\ reach h'' x a' /\ h'' !! a' = Some (mkObj i hc cs p).
Proof.
  induction kids as [|d kids IHk]; intros HP h xs h' Hal; simpl in Hal.
  - injection Hal as <- <-. split; [exists []; symmetry; apply app_nil_r|].
    intros k i hc cs p [].
  - apply Forall_cons in HP as [Hd Hrest].
    destruct (alloc d h) as [a h1] eqn:E1.
    destruct (alloc_list kids h1) as [as' h2] eqn:E2.
    injection Hal as <- <-.
    destruct (Hd _ _ _ E1) as ([ext1 ->] & Hrange & Hin1).
    destruct (IHk Hrest _ _ _ E2) as ([ext2 ->] & Hin2).
    split; [exists (ext1 ++ ext2); symmetry; apply app_assoc|].
    intros k i hc cs p [<-|Hk] Hw h'' Hagree.
    + destruct (Hin1 i hc cs p Hw h'') as (a' & Hr & Hl).
      * intros y Hy. rewrite Hagree by (rewrite !length_app in *; lia).
        apply lookup_app_l. lia.
      * exists a, a'. split; [left; reflexivity|]. split; assumption.
    + destruct (Hin2 k i hc cs p Hk Hw h'') as (x & a' & Hx & Hr & Hl).
      * intros y Hy. apply Hagree. rewrite !length_app in *. lia.
      * exists x, a'. split; [right; assumption|]. split; assumption.
Qed.

Lemma alloc_within d : alloc_spec d.
Proof.
  induction d as [i hc kids p IH|i hc stored p] using Incoming_ind';
    intros h x h' Hal.
  - rewrite alloc_Sent in Hal.
    destruct (alloc_list kids h) as [cs h1] eqn:E.
    injection Hal as <- <-.
    destruct (alloc_list_within kids IH _ _ _ E) as ([ext ->] & Hin).
    split; [exists (ext ++ [mkObj i hc cs p]); symmetry; apply app_assoc|].
    split; [rewrite !length_app; simpl; lia|].
    intros i' hc' cs' p' Hw h'' Hagree.
    inversion Hw as [|? ? ? ? k ? Hk Hwk]; subst.
    assert (Hx : h'' !! length (h ++ ext) = Some (mkObj i hc cs p)).
    { rewrite Hagree by (rewrite !length_app; simpl; lia).
      apply list_lookup_middle. reflexivity. }
    destruct (Hin k i' hc' cs' p' Hk Hwk h'') as (x & a' & Hxin & Hr & Hl).
    { intros y Hy. rewrite Hagree by (rewrite !length_app in *; simpl; lia).
      apply lookup_app_l. lia. }
    exists a'. split; [|assumption].
    eapply reach_step; [exact Hx | exact Hxin | exact Hr].
  - simpl in Hal. injection Hal as <- <-.
    split; [eexists; reflexivity|]. split; [rewrite length_app; simpl; lia|].
    intros i' hc' cs' p' Hw h'' Hagree.
    inversion Hw; subst. exists (length h). split; [constructor|].
    rewrite Hagree by (rewrite length_app; simpl; lia).
    apply list_lookup_middle. reflexivity.
Qed.

Lemma inc_children_extends d h cs h' :
  inc_children d h = (cs, h') -> exists ext, h' = h ++ ext.
Proof.
  destruct d as [i hc kids p|i hc stored p]; simpl; intros H.
  - apply (alloc_list_within kids) in H; [apply H|].
    apply Forall_forall. intros k _. apply alloc_within.
  - injection H as <- <-. exists []. symmetry. apply app_nil_r.
Qed.

(** [addToComponentsMap] writes to the two tables only, whether it returns
    or throws. *)
Lemma addToComponentsMap_heap fuel :
  forall a s,
    heap (state_of (addToComponentsMap fuel a s)) = heap s /\
    rootInstances (state_of (addToComponentsMap fuel a s)) = rootInstances s.
Proof.
  induction fuel as [|fuel IH]; intros a s; [split; reflexivity|].
  simpl. destruct (heap s !! a) as [inst|]; [|split; reflexivity].
  set (s1 := set_componentsMap _ s).
  change (heap s) with (heap s1). change (rootInstances s) with (rootInstances s1).
  generalize s1. clear s1.
  induction (o_children inst) as [|c l IHl]; intros s1; [split; reflexivity|].
  simpl. unfold bind.
  destruct (heap s1 !! c) as [child|]; [|split; reflexivity].
  set (s2 := set_componentsParent _ s1).
  destruct (IH c s2) as [Hh Hr].
  destruct (addToComponentsMap fuel c s2) as [[] s3|e s3]; simpl in *.
  - destruct (IHl s3) as [Hh' Hr']. rewrite Hh', Hr', Hh, Hr. split; reflexivity.
  - rewrite Hh, Hr. split; reflexivity.
Qed.

(** ** Finite unfoldings are trees *)

Lemma shows_functional h v1 :
  forall v2, shows h v1 -> shows h v2 -> view_addr v1 = view_addr v2 -> v1 = v2.
Proof.
  induction v1 as [a o kids IH] using View_ind'. intros [a2 o2 kids2] H1 H2 Ha.
  simpl in Ha. subst a2.
  apply shows_inv in H1 as (Hl1 & Hc1 & Hk1).
  apply shows_inv in H2 as (Hl2 & Hc2 & Hk2).
  assert (o2 = o) by congruence. subst o2. f_equal.
  rewrite Hc1 in Hc2. clear Hl1 Hl2 Hc1.
  revert kids2 Hc2 Hk2. induction kids as [|k kids IHk]; intros [|k2 kids2] Hc Hk2;
    try discriminate; [reflexivity|].
  apply Forall_cons in IH as [IHhd IHtl].
  apply Forall_cons in Hk1 as [Hk1hd Hk1tl].
  apply Forall_cons in Hk2 as [Hk2hd Hk2tl].
  simpl in Hc. injection Hc as Hca Hcs. f_equal.
  - apply IHhd; assumption.
  - apply IHk; assumption.
Qed.

Lemma depth_kid a o kids k : In k kids -> depth k < depth (VNode a o kids).
Proof.
  intros Hin.
  pose proof (depth_kids a o kids (depth (VNode a o kids) - 1)) as H.
  assert (Hd : depth (VNode a o kids) <= S (depth (VNode a o kids) - 1)) by lia.
  apply H in Hd. rewrite Forall_forall in Hd.
  specialize (Hd k (proj2 (list_elem_of_In _ _) Hin)). simpl in *. lia.
Qed.

Lemma addrs_sub h v :
  forall x, shows h v -> In x (addrs v) ->
  exists w, shows h w /\ view_addr w = x /\ depth w <= depth v.
Proof.
  induction v as [a o kids IH] using View_ind'. intros x Hs Hin.
  destruct Hin as [<-|Hin]; [exists (VNode a o kids); auto|].
  apply in_flat_map in Hin as (k & Hk & Hx).
  apply shows_inv in Hs as (_ & _ & Hks).
  rewrite Forall_forall in IH, Hks.
  apply list_elem_of_In in Hk.
  destruct (IH k Hk x (Hks k Hk) Hx) as (w & Hw & Ha & Hd).
  exists w. split; [assumption|]. split; [assumption|].
  apply list_elem_of_In in Hk. pose proof (depth_kid a o kids k Hk). lia.
Qed.

Lemma shows_acyclic h a o kids :
  shows h (VNode a o kids) -> ~ In a (flat_map addrs kids).
Proof.
  intros Hs Hin. apply in_flat_map in Hin as (k & Hk & Hx).
  pose proof Hs as Hs'. apply shows_inv in Hs' as (_ & _ & Hks).
  rewrite Forall_forall in Hks.
  destruct (addrs_sub h k a (Hks k (proj2 (list_elem_of_In _ _) Hk)) Hx)
    as (w & Hw & Ha & Hd).
  assert (w = VNode a o kids) by (apply (shows_functional h); assumption).
  subst w. pose proof (depth_kid a o kids k Hk). lia.
Qed.

Lemma shows_insert h a o v :
  shows h v -> ~ In a (addrs v) -> shows (<[a := o]> h) v.
Proof.
  induction v as [a0 o0 kids IH] using View_ind'. intros Hs Hn.
  apply shows_inv in Hs as (Hl & Hc & Hk). simpl in Hn. constructor.
  - rewrite list_lookup_insert_ne by (intros ->; tauto). assumption.
  - assumption.
  - rewrite Forall_forall in *. intros k Hin. apply IH; [assumption|apply Hk; assumption|].
    intros Hx. apply Hn. right. apply in_flat_map. exists k.
    split; [apply list_elem_of_In|]; assumption.
Qed.

(** ** The handler on the last item of a known-target update *)

Lemma mergeItem_known fuel item s c C :
  componentsMap s !! node_id item = Some c ->
  heap s !! c = Some C ->
  mergeItem fuel item s = addToComponentsMap fuel c (after_update s item c C).
Proof.
  intros Hc HC. unfold mergeItem, bind, updateComponentsMapData, after_update.
  rewrite inc_id_restore, Hc, HC.
  destruct (inc_children _ _) as [cs h1]. reflexivity.
Qed.

Section KnownTarget.

Variable parse : string -> option Parsed.

Lemma onComponentTree_last fuel msg s0 raw pre item s :
  resetComponentsQueued s0 = false ->
  is_Some (componentsMap s0 !! tm_instanceId msg) ->
  tm_treeData msg = Some raw -> truthy raw = true ->
  parse raw = Some (PArray (pre ++ [item])) ->
  forEach (mergeItem fuel) pre s0 = Ok tt s ->
  onComponentTree parse fuel msg s0 =
  match mergeItem fuel item s with
  | Ok _ s' => Ok tt (reloadSelected (endsWith (tm_instanceId msg) "root") s')
  | Throw e s' => Throw e s'
  end.
Proof.
  intros Hq [t Hk] Hd Ht Hp Hpre. unfold onComponentTree.
  rewrite Hq, Hd, Ht, Hp, Hk. unfold bind.
  rewrite (forEach_app _ _ _ _ _ Hpre). simpl. unfold bind.
  destruct (mergeItem fuel item s); reflexivity.
Qed.

Lemma onComponentTree_last_run fuel msg s0 raw pre item s c C :
  resetComponentsQueued s0 = false ->
  is_Some (componentsMap s0 !! tm_instanceId msg) ->
  tm_treeData msg = Some raw -> truthy raw = true ->
  parse raw = Some (PArray (pre ++ [item])) ->
  forEach (mergeItem fuel) pre s0 = Ok tt s ->
  componentsMap s !! node_id item = Some c -> heap s !! c = Some C ->
  onComponentTree parse fuel msg s0 =
    match addToComponentsMap fuel c (after_update s item c C) with
    | Ok _ s' => Ok tt (reloadSelected (endsWith (tm_instanceId msg) "root") s')
    | Throw e s' => Throw e s'
    end /\
  heap (state_of (onComponentTree parse fuel msg s0)) = heap (after_update s item c C).
Proof.
  intros Hq Hknown Hd Ht Hp Hpre Hc HC.
  rewrite (onComponentTree_last fuel msg s0 raw pre item s) by assumption.
  rewrite (mergeItem_known fuel item s c C Hc HC).
  split; [reflexivity|].
  pose proof (addToComponentsMap_heap fuel c (after_update s item c C)) as [Hh _].
  destruct (addToComponentsMap fuel c (after_update s item c C)) as [[] s'|e s'];
    simpl in *; [|exact Hh].
  destruct (reloadSelected_frame (endsWith (tm_instanceId msg) "root") s') as (-> & _).
  exact Hh.
Qed.

(** The handler returns when the subtree that has just been attached is
    finite and the stack is deep enough for it. *)
Lemma onComponentTree_last_returns fuel msg s0 raw pre item s c C v :
  resetComponentsQueued s0 = false ->
  is_Some (componentsMap s0 !! tm_instanceId msg) ->
  tm_treeData msg = Some raw -> truthy raw = true ->
  parse raw = Some (PArray (pre ++ [item])) ->
  forEach (mergeItem fuel) pre s0 = Ok tt s ->
  componentsMap s !! node_id item = Some c -> heap s !! c = Some C ->
  shows (heap (state_of (onComponentTree parse fuel msg s0))) v ->
  view_addr v = c -> depth v <= fuel ->
  onComponentTree parse fuel msg s0 =
  Ok tt (reloadSelected (endsWith (tm_instanceId msg) "root")
           (register v (after_update s item c C))).
Proof.
  intros Hq Hknown Hd Ht Hp Hpre Hc HC Hs Hv Hdepth.
  destruct (onComponentTree_last_run fuel msg s0 raw pre item s c C)
    as [Hrun Hheap]; try assumption.
  rewrite Hheap in Hs. rewrite Hrun. subst c.
  rewrite (addToComponentsMap_register v fuel _ Hs Hdepth). reflexivity.
Qed.

End KnownTarget.

(** ** Lazy subtrees *)

(** C1, as the claim has it, fails: the stored node [a] has [hasChildren]
    and the child [x]; its incoming copy has an empty children list and says
    it has no children any more; the merge leaves [a] without children. *)
Lemma childless_copy_drops_children :
  let r := onComponentTree (parse_table payloads) 8
             (mkTreeMsg "a" (Some "a-childless") false) loaded in
  componentsMap loaded !! "a" = Some 1 /\
  heap loaded !! 1 = Some (mkObj "a" true [0] ∅) /\
  parse_table payloads "a-childless" = Some (PArray [mkNode "a" false [] ∅]) /\
  r = Ok tt (state_of r) /\
  componentsMap (state_of r) !! "a" = Some 1 /\
  heap (state_of r) !! 1 = Some (mkObj "a" false [] ∅).
Proof. vm_compute. repeat split. Qed.

(** C1, amended.  In an update for a known target, take the last incoming
    top-level node, when its turn comes.  Let an incoming node with
    [hasChildren] and an empty children list have the id of a stored node
    [N] with a non-empty children list, and let it be that top-level node or
    lie below it under incoming nodes that are all in the mirror under their
    ids and have [hasChildren].  Then after the merge the mirror holds, at or
    below the object of the top-level node, an object with that id and with
    the children list of [N]; the other stored objects are as before; and the
    handler returns whenever the subtree it attached is finite and the stack
    is deep enough for it.  When the incoming node is the top-level one, the
    object is [N] itself, updated in place, and it is enough that the subtree
    stored under [N] is finite. *)
Theorem lazy_children_are_kept
    (parse : string -> option Parsed) fuel msg s0 raw pre item s c C n p a N :
  resetComponentsQueued s0 = false ->
  is_Some (componentsMap s0 !! tm_instanceId msg) ->
  tm_treeData msg = Some raw -> truthy raw = true ->
  parse raw = Some (PArray (pre ++ [item])) ->
  forEach (mergeItem fuel) pre s0 = Ok tt s ->
  componentsMap s !! node_id item = Some c -> heap s !! c = Some C ->
  below s item (mkNode n true [] p) ->
  componentsMap s !! n = Some a -> heap s !! a = Some N -> o_children N <> [] ->
  let r := onComponentTree parse fuel msg s0 in
  (exists a' o,
     reach (heap (state_of r)) c a' /\
     heap (state_of r) !! a' = Some o /\
     o_id o = n /\ o_hasChildren o = true /\ o_children o = o_children N) /\
  (forall x, x <> c -> x < length (heap s) -> heap (state_of r) !! x = heap s !! x) /\
  (forall v, shows (heap (state_of r)) v -> view_addr v = c -> depth v <= fuel ->
             exists s', r = Ok tt s') /\
  (item = mkNode n true [] p ->
     heap (state_of r) =
       <[a := mkObj n true (o_children N) (p ∪ o_fields N)]> (heap s) /\
     forall v, shows (heap s) v -> view_addr v = a -> depth v <= fuel ->
               exists s', r = Ok tt s').
Proof.
  intros Hq Hknown Hd Ht Hp Hpre Hc HC Hb Ha HN Hkids r.
  assert (Hinst : instance_of s n = Some N).
  { unfold instance_of. rewrite Ha. exact HN. }
  pose proof (restore_below s item n p N Hb Hinst Hkids) as Hw.
  destruct (onComponentTree_last_run parse fuel msg s0 raw pre item s c C)
    as [_ Hheap]; try assumption.
  fold r in Hheap.
  assert (Hret : forall v, shows (heap (state_of r)) v -> view_addr v = c ->
                           depth v <= fuel -> exists s', r = Ok tt s').
  { intros v Hs Hv Hdp. eexists.
    apply (onComponentTree_last_returns parse fuel msg s0 raw pre item s c C v);
      assumption. }
  unfold after_update in Hheap.
  destruct (inc_children (restoreChildrenFromComponentsMap s item) (heap s))
    as [cs h1] eqn:Hic.
  simpl in Hheap.
  pose proof (inc_children_extends _ _ _ _ Hic) as Hext.
  pose proof (lookup_lt_Some _ _ _ HC) as Hclt.
  assert (Hclt1 : c < length h1)
    by (destruct Hext as [ext ->]; rewrite length_app; lia).
  split; [|split; [|split; [exact Hret|]]].
  - rewrite Hheap. clear Hheap Hret.
    pose proof (inc_id_restore s item) as Hid.
    destruct (restoreChildrenFromComponentsMap s item) as [i hc kids p0|i hc stored p0].
    + inversion Hw as [|? ? ? ? k ? Hk Hwk]; subst.
      simpl in Hic.
      destruct (alloc_list_within kids
                  (proj2 (Forall_forall _ _) (fun k _ => alloc_within k))
                  _ _ _ Hic) as (_ & Hin).
      destruct (Hin k n true (o_children N) p Hk Hwk
                  (<[c := mkObj (node_id item) hc cs (p0 ∪ o_fields C)]> h1))
        as (x & a' & Hx & Hr & Hl).
      { intros y Hy. apply list_lookup_insert_ne. lia. }
      exists a', (mkObj n true (o_children N) p).
      split; [|split; [exact Hl|repeat split]].
      apply (reach_step _ c (mkObj (node_id item) hc cs (p0 ∪ o_fields C)) x a');
        [apply list_lookup_insert_eq; exact Hclt1 | exact Hx | exact Hr].
    + inversion Hw; subst. simpl in Hic. injection Hic as <- <-.
      simpl in Hid. subst n.
      exists c, (mkObj (node_id item) true (o_children N) (p ∪ o_fields C)).
      split; [constructor|]. split; [|repeat split].
      simpl. apply list_lookup_insert_eq. exact Hclt.
  - intros x Hx Hlt. rewrite Hheap, list_lookup_insert_ne by congruence.
    destruct Hext as [ext ->]. apply lookup_app_l. exact Hlt.
  - intros ->. simpl in Hc. assert (c = a) by congruence. subst c.
    assert (C = N) by congruence. subst C.
    rewrite (restore_lazy s n p N Hinst Hkids) in Hic, Hheap.
    simpl in Hic, Hheap. injection Hic as <- <-.
    split; [exact Hheap|].
    intros [a0 o0 kids] Hs Hva Hdepth. simpl in Hva. subst a0.
    pose proof (shows_acyclic _ _ _ _ Hs) as Hacyc.
    apply shows_inv in Hs as (Hl & Hch & Hks).
    assert (o0 = N) by congruence. subst o0.
    apply (Hret (VNode a (mkObj n true (o_children N) (p ∪ o_fields N)) kids));
      [|reflexivity|exact Hdepth].
    rewrite Hheap. constructor.
    + apply list_lookup_insert_eq. exact Hclt.
    + exact Hch.
    + rewrite Forall_forall in *. intros k Hk. apply shows_insert; [apply Hks, Hk|].
      intros Hin. apply Hacyc. apply in_flat_map. exists k.
      split; [apply list_elem_of_In|]; assumption.
Qed.

Lemma lazy_children_are_kept_witness :
  let top := onComponentTree (parse_table payloads) 8
               (mkTreeMsg "a" (Some "a-lazy") false) loaded in
  let nested := onComponentTree (parse_table payloads) 8
                  (mkTreeMsg "1:root" (Some "root-lazy-a") false) loaded in
  (heap (state_of top) !! 1 = Some (mkObj "a" true [0] ∅) /\
   exists s', top = Ok tt s') /\
  ((exists a' o,
      reach (heap (state_of nested)) 3 a' /\
      heap (state_of nested) !! a' = Some o /\
      o_id o = "a" /\ o_hasChildren o = true /\ o_children o = [0]) /\
   exists s', nested = Ok tt s').
Proof.
  assert (Hq : resetComponentsQueued loaded = false) by (vm_compute; reflexivity).
  assert (Ha : componentsMap loaded !! "a" = Some 1) by (vm_compute; reflexivity).
  assert (HN : heap loaded !! 1 = Some (mkObj "a" true [0] ∅))
    by (vm_compute; reflexivity).
  assert (Hr : componentsMap loaded !! "1:root" = Some 3) by (vm_compute; reflexivity).
  assert (HR : heap loaded !! 3 = Some (mkObj "1:root" true [1; 2] ∅))
    by (vm_compute; reflexivity).
  split.
  - destruct (lazy_children_are_kept (parse_table payloads) 8
                (mkTreeMsg "a" (Some "a-lazy") false) loaded "a-lazy" []
                (mkNode "a" true [] ∅) loaded 1 (mkObj "a" true [0] ∅) "a" ∅
                1 (mkObj "a" true [0] ∅))
      as (_ & _ & _ & Htop); try assumption.
    + exists 1. exact Ha.
    + reflexivity.
    + reflexivity.
    + vm_compute. reflexivity.
    + reflexivity.
    + apply below_here.
    + discriminate.
    + destruct (Htop eq_refl) as [Hheap Hret]. split.
      * rewrite Hheap. vm_compute. reflexivity.
      * apply (Hret (VNode 1 (mkObj "a" true [0] ∅)
                       [VNode 0 (mkObj "x" false [] ∅) []])).
        -- constructor; [exact HN | reflexivity |].
           repeat constructor.
        -- reflexivity.
        -- vm_compute. lia.
  - destruct (lazy_children_are_kept (parse_table payloads) 8
                (mkTreeMsg "1:root" (Some "root-lazy-a") false) loaded "root-lazy-a" []
                (mkNode "1:root" true [mkNode "a" true [] ∅; leaf "b"] ∅)
                loaded 3 (mkObj "1:root" true [1; 2] ∅) "a" ∅
                1 (mkObj "a" true [0] ∅))
      as (Hex & _ & Hret & _); try assumption.
    + exists 3. exact Hr.
    + reflexivity.
    + reflexivity.
    + vm_compute. reflexivity.
    + reflexivity.
    + apply below_step with (inst := mkObj "1:root" true [1; 2] ∅)
                            (c := mkNode "a" true [] ∅).
      * unfold instance_of. rewrite Hr. exact HR.
      * left. reflexivity.
      * apply below_here.
    + discriminate.
    + split; [exact Hex|].
      apply (Hret (VNode 3 (mkObj "1:root" true [4; 5] ∅)
                     [VNode 4 (mkObj "a" true [0] ∅)
                        [VNode 0 (mkObj "x" false [] ∅) []];
                      VNode 5 (mkObj "b" false [] ∅) []])).
      * constructor; [vm_compute; reflexivity | reflexivity |].
        repeat constructor; vm_compute; reflexivity.
      * reflexivity.
      * vm_compute. lia.
Defined.

(** The restoration stops at an incoming node that is not in the mirror: the
    same lazy copy of [a], sent below a new node [q], is registered with its
    empty children list. *)
Example lazy_copy_below_new_node_not_restored :
  let r := onComponentTree (parse_table payloads) 8
             (mkTreeMsg "1:root" (Some "root-wrapped-a") false) loaded in
  r = Ok tt (state_of r) /\
  componentsMap loaded !! "q" = None /\
  (exists a', componentsMap (state_of r) !! "a" = Some a' /\
              heap (state_of r) !! a' = Some (mkObj "a" true [] ∅)).
Proof.
  vm_compute. split; [reflexivity|]. split; [reflexivity|].
  eexists. split; reflexivity.
Qed.

(** ** The parent table *)

(** What one traversal does to the parent table: the links of the subtree are
    recorded, every other entry is left as it was. *)
Lemma register_parents v s :
  NoDup (map fst (parent_entries v)) ->
  (forall c p, In (c, p) (parent_entries v) ->
     componentsParent (register v s) !! c = Some p) /\
  (forall c, ~ In c (map fst (parent_entries v)) ->
     componentsParent (register v s) !! c = componentsParent s !! c).
Proof.
  intros Hnd. split.
  - intros c p Hin. apply assign_lookup_in; assumption.
  - intros c Hn. apply assign_lookup_notin; assumption.
Qed.

Lemma after_queued_reset_not_queued s :
  resetComponentsQueued (after_queued_reset s) = false.
Proof.
  unfold after_queued_reset. destruct (resetComponentsQueued s) eqn:E;
    [reflexivity | exact E].
Qed.

Lemma after_update_parents s item c C :
  componentsParent (after_update s item c C) = componentsParent s.
Proof.
  unfold after_update. destruct (inc_children _ _). reflexivity.
Qed.

(** C8, as the claim has it, fails: entries of the parent table are only
    removed by a reset.  Two full fetches are requested, the first answer
    (a root with the child [a], which has the child [x]) is merged after the
    reset, the second answer (the single root [x]) replaces the roots without
    a reset; [x] is then a root of the current tree, which has no other
    node, and the parent table still maps it to [a]. *)
Lemma stale_parent_after_second_answer :
  let s0 := requestComponentTree None (requestComponentTree None init) in
  let s1 := state_of (onComponentTree (parse_table payloads) 8
                        (mkTreeMsg "_root" (Some "tree-1") false) s0) in
  let r := onComponentTree (parse_table payloads) 8
             (mkTreeMsg "_root" (Some "x-alone") false) s1 in
  r = Ok tt (state_of r) /\
  rootInstances (state_of r) = [4] /\
  heap (state_of r) !! 4 = Some (mkObj "x" false [] ∅) /\
  componentsParent (state_of r) !! "x" = Some "a".
Proof. vm_compute. repeat split. Qed.

(** C8, amended.  A merge writes into the parent table the links of the
    subtree it attaches and leaves every other entry as it was: when the
    ids of the attached nodes are pairwise distinct, the table maps the id of
    each of them, the top ones apart, to the id of its immediate parent.
    This holds for a replacement of the roots and for the refresh of a known
    target (stated for its last item).  When the roots are replaced on a
    mirror that has just been reset, the table therefore maps the id of a
    node of the current tree to the id of [P] if and only if [P] is its
    immediate parent, and the roots have no entry.  (Entries are removed by a
    reset only, so otherwise an id can keep the entry of a former parent.) *)
Theorem parent_table_after_merge (parse : string -> option Parsed) fuel msg :
  (forall s raw items,
     tm_treeData msg = Some raw -> truthy raw = true ->
     parse raw = Some (PArray items) ->
     componentsMap (after_queued_reset s) !! tm_instanceId msg = None ->
     NoDup (forest_ids items) ->
     forest_height items <= fuel ->
     exists s' vs,
       onComponentTree parse fuel msg s = Ok tt s' /\
       rootInstances s' = map view_addr vs /\
       Forall (shows (heap s')) vs /\
       map erase vs = items /\
       (forall c p, In (c, p) (forest_edges items) ->
          componentsParent s' !! c = Some p) /\
       (forall c, ~ In c (map fst (forest_edges items)) ->
          componentsParent s' !! c = componentsParent (after_queued_reset s) !! c) /\
       (resetComponentsQueued s = true ->
          (forall c p, componentsParent s' !! c = Some p <->
                       In (c, p) (forest_edges items)) /\
          (forall r, In r items -> componentsParent s' !! node_id r = None))) /\
  (forall s0 raw pre item s c C v,
     resetComponentsQueued s0 = false ->
     is_Some (componentsMap s0 !! tm_instanceId msg) ->
     tm_treeData msg = Some raw -> truthy raw = true ->
     parse raw = Some (PArray (pre ++ [item])) ->
     forEach (mergeItem fuel) pre s0 = Ok tt s ->
     componentsMap s !! node_id item = Some c -> heap s !! c = Some C ->
     shows (heap (state_of (onComponentTree parse fuel msg s0))) v ->
     view_addr v = c -> depth v <= fuel ->
     NoDup (map fst (parent_entries v)) ->
     exists s',
       onComponentTree parse fuel msg s0 = Ok tt s' /\
       (forall k p, In (k, p) (parent_entries v) ->
          componentsParent s' !! k = Some p) /\
       (forall k, ~ In k (map fst (parent_entries v)) ->
          componentsParent s' !! k = componentsParent s !! k)).
Proof.
  split.
  - intros s raw items Hd Ht Hp Hm Hnd Hfuel.
    rewrite onComponentTree_reset_first.
    pose proof (after_queued_reset_not_queued s) as Hq.
    assert (Hempty : resetComponentsQueued s = true ->
                     componentsParent (after_queued_reset s) = ∅).
    { intros E. unfold after_queued_reset. rewrite E. reflexivity. }
    revert Hm Hq Hempty. generalize (after_queued_reset s). intros s1 Hm Hq Hempty.
    unfold onComponentTree. rewrite Hq, Hd, Ht, Hp, Hm. unfold bind.
    destruct (alloc_list (map as_sent items) (heap s1)) as [roots h] eqn:Hal.
    destruct (alloc_forest_fresh _ _ _ _ Hal) as (vs & _ & Hsh & Hroots & Her & _).
    set (s2 := set_rootInstances roots (set_heap h s1)).
    assert (Hdepth : Forall (fun v => depth v <= fuel) vs).
    { apply forest_height_bound in Hfuel. rewrite <- Her in Hfuel.
      apply Forall_map in Hfuel. eapply Forall_impl; [exact Hfuel|].
      simpl. intros v. rewrite height_erase. trivial. }
    rewrite <- Hroots.
    rewrite (addToComponentsMap_all fuel vs s2) by assumption.
    unfold modify. eexists _, vs. split; [reflexivity|].
    set (isRoot := endsWith (tm_instanceId msg) "root").
    destruct (reloadSelected_frame isRoot (foldl (fun s v => register v s) s2 vs))
      as (-> & -> & _ & ->).
    rewrite register_all. simpl.
    assert (Hpe : flat_map parent_entries vs = forest_edges items).
    { rewrite <- Her. unfold forest_edges. clear.
      induction vs as [|v vs IH]; [reflexivity|].
      simpl. rewrite IH, parent_entries_erase. reflexivity. }
    rewrite Hpe.
    pose proof (forest_ids_split items) as Hsplit.
    assert (Hnd2 : NoDup (map node_id items ++ map fst (forest_edges items)))
      by (rewrite <- Hsplit; assumption).
    apply NoDup_app in Hnd2 as (_ & Hdisj & Hkeys).
    split; [rewrite Hroots; reflexivity|]. split; [assumption|]. split; [assumption|].
    split; [|split].
    + intros c p Hin. apply assign_lookup_in; assumption.
    + intros c Hn. apply assign_lookup_notin; assumption.
    + intros E. rewrite (Hempty E). split.
      * intros c p. apply assign_lookup_iff. assumption.
      * intros r Hr. rewrite assign_lookup_notin; [apply lookup_empty|].
        intros Hin. apply (Hdisj (node_id r)).
        -- apply list_elem_of_In, in_map, Hr.
        -- apply list_elem_of_In, Hin.
  - intros s0 raw pre item s c C v Hq Hknown Hd Ht Hp Hpre Hc HC Hs Hv Hdepth Hnd.
    rewrite (onComponentTree_last_returns parse fuel msg s0 raw pre item s c C v)
      by assumption.
    eexists. split; [reflexivity|].
    destruct (reloadSelected_frame (endsWith (tm_instanceId msg) "root")
                (register v (after_update s item c C))) as (_ & _ & _ & ->).
    destruct (register_parents v (after_update s item c C) Hnd) as [Hin Hout].
    rewrite after_update_parents in Hout. split; assumption.
Qed.

Lemma parent_table_after_merge_witness :
  (exists s' vs,
     onComponentTree (parse_table payloads) 8
       (mkTreeMsg "_root" (Some "tree-1") false) (requestComponentTree None init)
       = Ok tt s' /\
     rootInstances s' = map view_addr vs /\
     map erase vs = [tree_1] /\
     componentsParent s' !! "x" = Some "a" /\
     componentsParent s' !! "1:root" = None) /\
  (exists s',
     onComponentTree (parse_table payloads) 8
       (mkTreeMsg "a" (Some "a-lazy") false) loaded = Ok tt s' /\
     componentsParent s' !! "x" = Some "a" /\
     componentsParent s' !! "b" = componentsParent loaded !! "b").
Proof.
  split.
  - destruct (proj1 (parent_table_after_merge (parse_table payloads) 8
                       (mkTreeMsg "_root" (Some "tree-1") false))
                (requestComponentTree None init) "tree-1" [tree_1])
      as (s' & vs & Hrun & Hroots & _ & Her & _ & _ & Hreset).
    + reflexivity.
    + reflexivity.
    + reflexivity.
    + reflexivity.
    + repeat (apply NoDup_cons_2;
                [rewrite list_elem_of_In; simpl; intuition discriminate|]).
      apply NoDup_nil_2.
    + vm_compute. lia.
    + destruct (Hreset eq_refl) as [Hiff Hnone].
      exists s', vs. repeat split; try assumption.
      * apply Hiff. simpl. tauto.
      * apply (Hnone tree_1). left. reflexivity.
  - destruct (proj2 (parent_table_after_merge (parse_table payloads) 8
                       (mkTreeMsg "a" (Some "a-lazy") false))
                loaded "a-lazy" [] (mkNode "a" true [] ∅) loaded
                1 (mkObj "a" true [0] ∅)
                (VNode 1 (mkObj "a" true [0] ∅) [VNode 0 (mkObj "x" false [] ∅) []]))
      as (s' & Hrun & Hin & Hout).
    + vm_compute. reflexivity.
    + exists 1. vm_compute. reflexivity.
    + reflexivity.
    + reflexivity.
    + vm_compute. reflexivity.
    + reflexivity.
    + vm_compute. reflexivity.
    + vm_compute. reflexivity.
    + constructor; [vm_compute; reflexivity | reflexivity |].
      repeat constructor.
    + reflexivity.
    + vm_compute. lia.
    + simpl. apply NoDup_cons_2; [rewrite list_elem_of_In; simpl; tauto|].
      apply NoDup_nil_2.
    + exists s'. split; [exact Hrun|]. split.
      * apply Hin. simpl. tauto.
      * apply Hout. simpl. intuition discriminate.
Defined.

(** * The rest of the module: properties *)

(** ** What [addToComponentsMap] can change *)

(** Whatever is kept by an assignment to the node table of an object under
    its own id, and by an assignment to the parent table, is kept by
    [addToComponentsMap], whether it returns or throws. *)
Lemma addToComponentsMap_keeps (P : State -> Prop) :
  (forall s a o, heap s !! a = Some o -> P s ->
     P (set_componentsMap (<[o_id o := a]> (componentsMap s)) s)) ->
  (forall s c child p, heap s !! c = Some child -> P s ->
     P (set_componentsParent (<[o_id child := p]> (componentsParent s)) s)) ->
  forall fuel a s, P s -> P (state_of (addToComponentsMap fuel a s)).
Proof.
  intros Hmap Hpar. induction fuel as [|fuel IH]; intros a s HP; [exact HP|].
  simpl. destruct (heap s !! a) as [inst|] eqn:Ha; [|exact HP].
  pose proof (Hmap s a inst Ha HP) as HP1.
  revert HP1. generalize (set_componentsMap (<[o_id inst := a]> (componentsMap s)) s).
  induction (o_children inst) as [|c l IHl]; intros s1 HP1; [exact HP1|].
  simpl. unfold bind.
  destruct (heap s1 !! c) as [child|] eqn:Hc; [|exact HP1].
  pose proof (IH c _ (Hpar s1 c child (o_id inst) Hc HP1)) as HP2.
  destruct (addToComponentsMap fuel c _) as [[] s3|e s3]; simpl in *.
  - apply IHl. exact HP2.
  - exact HP2.
Qed.

(** The same for a loop of a handler. *)
Lemma forEach_keeps {A} (P : State -> Prop) (body : A -> M unit) :
  (forall x s, P s -> P (state_of (body x s))) ->
  forall l s, P s -> P (state_of (forEach body l s)).
Proof.
  intros Hbody. induction l as [|x l IH]; intros s HP; [exact HP|].
  simpl. unfold bind. pose proof (Hbody x s HP) as H1.
  destruct (body x s) as [[] s1|e s1]; simpl in *; [apply IH|]; exact H1.
Qed.

(** ** Well-formed mirrors *)

Lemma addToComponentsMap_wf fuel a s :
  wf s -> wf (state_of (addToComponentsMap fuel a s)).
Proof.
  apply addToComponentsMap_keeps.
  - intros s0 a0 o Ha (Hm & Hc & Hr). split; [|split; assumption].
    intros k a1. simpl. intros Hk.
    destruct (decide (o_id o = k)) as [<-|Hne].
    + rewrite lookup_insert_eq in Hk. injection Hk as <-. eauto.
    + rewrite lookup_insert_ne in Hk by assumption. apply Hm. assumption.
  - intros s0 c child p _ Hwf. exact Hwf.
Qed.

Lemma closed_app_lookup h ext a o :
  closed h -> h !! a = Some o -> Forall (fun c => c < length (h ++ ext)) (o_children o).
Proof.
  intros Hc Ha. eapply Forall_impl; [apply (Hc a o Ha)|].
  simpl. intros c Hlt. rewrite length_app. lia.
Qed.

(** Adding an object whose children exist keeps the store closed. *)
Lemma closed_snoc h o :
  closed h -> Forall (fun c => c < length h) (o_children o) -> closed (h ++ [o]).
Proof.
  intros Hc Ho a o' Ha.
  destruct (decide (a < length h)) as [Hlt|Hge].
  - rewrite lookup_app_l in Ha by assumption.
    apply (closed_app_lookup h [o] a o'); assumption.
  - assert (a = length h).
    { apply lookup_lt_Some in Ha. rewrite length_app in Ha. simpl in Ha. lia. }
    subst a. rewrite list_lookup_middle in Ha by reflexivity. injection Ha as <-.
    eapply Forall_impl; [exact Ho|]. simpl. intros c Hlt. rewrite length_app. lia.
Qed.

Lemma closed_insert h a o :
  closed h -> Forall (fun c => c < length h) (o_children o) -> closed (<[a := o]> h).
Proof.
  intros Hc Ho b o' Hb. rewrite length_insert.
  destruct (decide (a = b)) as [<-|Hne].
  - destruct (decide (a < length h)) as [Hlt|Hge].
    + rewrite list_lookup_insert_eq in Hb by assumption. injection Hb as <-. exact Ho.
    + rewrite list_insert_ge in Hb by lia. apply (Hc a o' Hb).
  - rewrite list_lookup_insert_ne in Hb by assumption. apply (Hc b o' Hb).
Qed.

Lemma kept_ok_mono n m d : n <= m -> kept_ok n d -> kept_ok m d.
Proof.
  intros Hle. induction d as [i hc kids p IH|i hc stored p] using Incoming_ind';
    intros H; inversion H; subst; constructor.
  - rewrite Forall_forall in *. intros k Hk. apply IH; [|apply H1]; assumption.
  - eapply Forall_impl; [eassumption|]. simpl. intros; lia.
Qed.

Lemma alloc_list_closed kids :
  Forall alloc_closed_spec kids ->
  forall h xs h',
    closed h -> Forall (kept_ok (length h)) kids -> alloc_list kids h = (xs, h') ->
    closed h' /\ Forall (fun x => x < length h') xs /\ length h <= length h'.
Proof.
  induction kids as [|d kids IHk]; intros HP h xs h' Hc Hk Hal; simpl in Hal.
  - injection Hal as <- <-. auto.
  - apply Forall_cons in HP as [Hd Hrest]. apply Forall_cons in Hk as [Hkd Hkrest].
    destruct (alloc d h) as [a h1] eqn:E1.
    destruct (alloc_list kids h1) as [as' h2] eqn:E2.
    injection Hal as <- <-.
    destruct (Hd _ _ _ Hc Hkd E1) as (Hc1 & Ha & Hle1).
    assert (Hkrest1 : Forall (kept_ok (length h1)) kids).
    { eapply Forall_impl; [exact Hkrest|]. intros k. apply kept_ok_mono. exact Hle1. }
    destruct (IHk Hrest h1 as' h2 Hc1 Hkrest1 E2) as (Hc2 & Has & Hle2).
    split; [exact Hc2|]. split; [|lia].
    constructor; [lia | exact Has].
Qed.

Lemma alloc_closed d : alloc_closed_spec d.
Proof.
  induction d as [i hc kids p IH|i hc stored p] using Incoming_ind';
    intros h x h' Hc Hk Hal; inversion Hk; subst.
  - rewrite alloc_Sent in Hal.
    destruct (alloc_list kids h) as [cs h1] eqn:E.
    injection Hal as <- <-.
    destruct (alloc_list_closed kids IH _ _ _ Hc H0 E) as (Hc1 & Hcs & Hle).
    split; [apply closed_snoc; assumption|].
    rewrite length_app. simpl. lia.
  - simpl in Hal. injection Hal as <- <-.
    split; [apply closed_snoc; assumption|].
    rewrite length_app. simpl. lia.
Qed.

Lemma kept_ok_as_sent n t : kept_ok n (as_sent t).
Proof.
  induction t as [i hc kids p IH] using Node_ind'. simpl. constructor.
  apply Forall_map. exact IH.
Qed.

Lemma kept_ok_restore s t :
  closed (heap s) ->
  kept_ok (length (heap s)) (restoreChildrenFromComponentsMap s t).
Proof.
  intros Hc. induction t as [i hc kids p IH] using Node_ind'. simpl.
  destruct (instance_of s i) as [inst|] eqn:Hi;
    [|apply (kept_ok_as_sent _ (mkNode i hc kids p))].
  destruct hc; [|apply (kept_ok_as_sent _ (mkNode i false kids p))].
  destruct (_ && _).
  - constructor. unfold instance_of in Hi.
    destruct (componentsMap s !! i) as [a|]; [simpl in Hi|discriminate].
    apply (Hc a inst Hi).
  - constructor. apply Forall_map. exact IH.
Qed.

Lemma inc_children_closed d h cs h' :
  closed h -> kept_ok (length h) d -> inc_children d h = (cs, h') ->
  closed h' /\ Forall (fun x => x < length h') cs /\ length h <= length h'.
Proof.
  intros Hc Hk Hal. destruct d as [i hc kids p|i hc stored p]; inversion Hk; subst;
    simpl in Hal.
  - apply (alloc_list_closed kids) with (h := h); try assumption.
    apply Forall_forall. intros k _. apply alloc_closed.
  - injection Hal as <- <-. auto.
Qed.

Lemma mergeItem_wf fuel item s :
  wf s -> wf (state_of (mergeItem fuel item s)).
Proof.
  intros Hwf. unfold mergeItem, bind, updateComponentsMapData.
  rewrite inc_id_restore.
  destruct (componentsMap s !! node_id item) as [c|] eqn:Hc; [|exact Hwf].
  destruct (heap s !! c) as [C|] eqn:HC; [|exact Hwf].
  destruct (inc_children _ _) as [cs h1] eqn:Hic.
  apply addToComponentsMap_wf.
  destruct Hwf as (Hm & Hcl & Hr).
  destruct (inc_children_closed _ _ _ _ Hcl (kept_ok_restore s item Hcl) Hic)
    as (Hcl1 & Hcs & Hle).
  destruct (inc_children_extends _ _ _ _ Hic) as [ext ->].
  split; [|split]; unfold map_ok; simpl.
  - intros k a Hk. destruct (Hm k a Hk) as (o & Ha & Hid).
    destruct (decide (a = c)) as [->|Hne].
    + assert (o = C) by congruence. subst o.
      destruct (Hm _ _ Hc) as (o' & Ho' & Hid'). assert (o' = C) by congruence. subst o'.
      eexists. split.
      * apply list_lookup_insert_eq. apply lookup_lt_Some in HC.
        rewrite length_app. lia.
      * simpl. congruence.
    + exists o. split; [|exact Hid].
      rewrite list_lookup_insert_ne by congruence.
      apply lookup_app_l_Some. exact Ha.
  - apply closed_insert; assumption.
  - rewrite length_insert. eapply Forall_impl; [exact Hr|]. simpl. intros; lia.
Qed.

Lemma resetComponents_wf s : closed (heap s) -> wf (resetComponents s).
Proof.
  intros Hc. split; [|split]; unfold map_ok; simpl.
  - intros k a Hk. rewrite lookup_empty in Hk. discriminate.
  - exact Hc.
  - constructor.
Qed.

Lemma after_queued_reset_wf s : wf s -> wf (after_queued_reset s).
Proof.
  intros Hwf. unfold after_queued_reset.
  destruct (resetComponentsQueued s); [|exact Hwf].
  apply resetComponents_wf. apply Hwf.
Qed.

Lemma wf_ext s s' :
  heap s' = heap s -> rootInstances s' = rootInstances s ->
  componentsMap s' = componentsMap s -> wf s -> wf s'.
Proof.
  intros Hh Hr Hm (H1 & H2 & H3). unfold wf, map_ok. rewrite Hh, Hr, Hm. auto.
Qed.

Section WellFormed.

Variable parse : string -> option Parsed.

(** The tree-data handler keeps the mirror well formed, also when it throws. *)
Lemma onComponentTree_wf fuel msg s :
  wf s -> wf (state_of (onComponentTree parse fuel msg s)).
Proof.
  intros Hwf. rewrite onComponentTree_reset_first.
  pose proof (after_queued_reset_wf s Hwf) as Hwf1.
  pose proof (after_queued_reset_not_queued s) as Hq.
  revert Hwf1 Hq. generalize (after_queued_reset s). clear s Hwf. intros s Hwf Hq.
  unfold onComponentTree. rewrite Hq.
  assert (Hnd : forall b : bool, wf (if b then putError "Component tree not supported" s else s)).
  { intros []; [|exact Hwf]. apply (wf_ext s); auto. }
  destruct (tm_treeData msg) as [raw|]; [|apply Hnd].
  destruct (truthy raw); [|apply Hnd].
  destruct (parse raw) as [data|]; [|exact Hwf].
  unfold bind.
  assert (Hfin : forall r : Res unit,
             wf (state_of r) ->
             wf (state_of match r with
                          | Ok _ s' => modify (reloadSelected
                                                 (endsWith (tm_instanceId msg) "root")) s'
                          | Throw e s' => Throw e s'
                          end)).
  { intros [[] s'|e s'] H; simpl in *; [|exact H].
    destruct (reloadSelected_frame (endsWith (tm_instanceId msg) "root") s')
      as (Hh & Hr & Hm & _).
    apply (wf_ext s'); assumption. }
  apply Hfin.
  destruct (componentsMap s !! tm_instanceId msg) as [t|]; destruct data as [items|o];
    try exact Hwf.
  - apply forEach_keeps; [|exact Hwf]. intros x s'. apply mergeItem_wf.
  - destruct (alloc_list (map as_sent items) (heap s)) as [roots h] eqn:Hal.
    apply forEach_keeps; [intros x s'; apply addToComponentsMap_wf|].
    destruct Hwf as (Hm & Hcl & Hr).
    assert (Hspec : Forall alloc_closed_spec (map as_sent items))
      by (apply Forall_forall; intros k _; apply alloc_closed).
    assert (Hkept : Forall (kept_ok (length (heap s))) (map as_sent items))
      by (apply Forall_map, Forall_forall; intros t _; apply kept_ok_as_sent).
    destruct (alloc_list_closed _ Hspec _ _ _ Hcl Hkept Hal) as (Hcl1 & Hroots & Hle).
    destruct (alloc_forest_fresh _ _ _ _ Hal) as (_ & [ext ->] & _).
    split; [|split]; unfold map_ok; simpl.
    + intros k a Hk. destruct (Hm k a Hk) as (o & Ha & Hid).
      exists o. split; [apply lookup_app_l_Some|]; assumption.
    + exact Hcl1.
    + exact Hroots.
Qed.

End WellFormed.

(** ** Frames of the module's functions *)

Lemma loadComponent_cases id s :
  loadComponent id s = s \/
  exists x, id = Some x /\ truthy x = true /\
            selectedComponentPendingId s <> Some x /\
            loadComponent id s =
            send (ComponentSelectedData x)
              (set_selectedComponentPendingId (Some x)
                 (set_lastSelectedComponentId (Some x) s)).
Proof.
  destruct id as [x|]; [|left; reflexivity].
  unfold loadComponent.
  destruct (truthy x) eqn:Ht; simpl; [|left; reflexivity].
  destruct (strict_eq x (selectedComponentPendingId s)) eqn:Hp; [left; reflexivity|].
  right. exists x. apply strict_eq_false in Hp. auto.
Qed.

Lemma mirror_eq_trans s1 s2 s3 : mirror_eq s1 s2 -> mirror_eq s2 s3 -> mirror_eq s1 s3.
Proof.
  intros (?&?&?&?) (?&?&?&?). repeat split; congruence.
Qed.

Lemma sel_eq_trans s1 s2 s3 : sel_eq s1 s2 -> sel_eq s2 s3 -> sel_eq s1 s3.
Proof.
  intros (?&?&?) (?&?&?). repeat split; congruence.
Qed.

Lemma loadComponent_mirror id s : mirror_eq s (loadComponent id s).
Proof.
  destruct (loadComponent_cases id s) as [->|(x & _ & _ & _ & ->)]; repeat split.
Qed.

Lemma requestComponentTree_mirror id s : mirror_eq s (requestComponentTree id s).
Proof.
  rewrite requestComponentTree_eq. destruct (String.eqb _ _); repeat split.
Qed.

Lemma requestComponentTree_sel id s : sel_eq s (requestComponentTree id s).
Proof.
  rewrite requestComponentTree_eq. destruct (String.eqb _ _); repeat split.
Qed.

Lemma toggleExpand_mirror instance load s : mirror_eq s (toggleExpand instance load s).
Proof.
  unfold toggleExpand. destruct (negb _); [repeat split|].
  destruct load; [|repeat split].
  eapply mirror_eq_trans; [|apply requestComponentTree_mirror]. repeat split.
Qed.

Lemma toggleExpand_sel instance load s : sel_eq s (toggleExpand instance load s).
Proof.
  unfold toggleExpand. destruct (negb _); [repeat split|].
  destruct load; [|repeat split].
  eapply sel_eq_trans; [|apply requestComponentTree_sel]. repeat split.
Qed.

Lemma useComponent_mirror instance s : mirror_eq s (useComponent instance s).
Proof.
  unfold useComponent. destruct (isExpanded instance s); [|repeat split].
  apply requestComponentTree_mirror.
Qed.

Lemma useComponent_sel instance s : sel_eq s (useComponent instance s).
Proof.
  unfold useComponent. destruct (isExpanded instance s); [|repeat split].
  apply requestComponentTree_sel.
Qed.

Lemma openParents_mirror ids s : mirror_eq s (openParents ids s).
Proof.
  unfold openParents. destruct (walk_frame (rev ids) s) as (_&_&_&_&_&?&?&?&?).
  repeat split; assumption.
Qed.

Lemma openParents_sel ids s : sel_eq s (openParents ids s).
Proof.
  unfold openParents. destruct (walk_frame (rev ids) s) as (_&?&_&?&?&_).
  repeat split; assumption.
Qed.

Lemma wf_mirror s s' : mirror_eq s s' -> wf s -> wf s'.
Proof. intros (Hh & Hr & Hm & _). apply wf_ext; assumption. Qed.

Lemma sel_ok_eq s s' : sel_eq s s' -> sel_ok s -> sel_ok s'.
Proof.
  intros (Hs & Hp & Hl) [HJ HK]. unfold sel_ok. rewrite Hs, Hp, Hl. auto.
Qed.

(** Loading the selected id makes the selection coherent, if the pending id
    was coherent. *)
Lemma loadComponent_selected_ok s :
  (forall v, selectedComponentPendingId s = Some v ->
             truthy v = true /\ lastSelectedComponentId s = Some v) ->
  sel_ok (loadComponent (selectedComponentId s) s).
Proof.
  intros HJ.
  destruct (loadComponent_cases (selectedComponentId s) s)
    as [Heq|(x & Hx & Ht & Hp & Heq)]; rewrite Heq.
  - split; [exact HJ|]. intros Hsel.
    destruct (selectedComponentId s) as [x|] eqn:Hx; [|discriminate].
    simpl in Hsel. unfold loadComponent in Heq. rewrite Hsel in Heq. simpl in Heq.
    destruct (strict_eq x (selectedComponentPendingId s)) eqn:Hp.
    + apply strict_eq_true in Hp. apply (HJ x Hp).
    + apply (f_equal selectedComponentPendingId) in Heq. simpl in Heq.
      apply strict_eq_false in Hp. congruence.
  - split; simpl.
    + intros v [= <-]. auto.
    + intros _. congruence.
Qed.

Lemma selectComponent_core id replace a :
  core (selectComponent id replace a) = core a \/
  (selectedComponentId (core a) = Some id /\
   core (selectComponent id replace a) = loadComponent (selectedComponentId (core a)) (core a)).
Proof.
  unfold selectComponent.
  destruct (strict_eq id (selectedComponentId (core a))) eqn:E; simpl; [|left; reflexivity].
  right. apply strict_eq_true in E. rewrite E. auto.
Qed.

Lemma selectComponent_sel_ok id replace a :
  sel_ok (core a) -> sel_ok (core (selectComponent id replace a)).
Proof.
  intros H. destruct (selectComponent_core id replace a) as [->|[_ ->]]; [exact H|].
  apply loadComponent_selected_ok. apply H.
Qed.

Lemma selectComponent_mirror id replace a :
  mirror_eq (core a) (core (selectComponent id replace a)).
Proof.
  destruct (selectComponent_core id replace a) as [->|[_ ->]]; [repeat split|].
  apply loadComponent_mirror.
Qed.

Lemma selectLastComponent_sel_ok a :
  sel_ok (core a) -> sel_ok (core (selectLastComponent a)).
Proof.
  intros H. unfold selectLastComponent.
  destruct (lastSelectedComponentId (core a)) as [l|]; [|exact H].
  destruct (truthy l); [|exact H]. apply selectComponent_sel_ok. exact H.
Qed.

Lemma selectLastComponent_mirror a :
  mirror_eq (core a) (core (selectLastComponent a)).
Proof.
  unfold selectLastComponent.
  destruct (lastSelectedComponentId (core a)) as [l|]; [|repeat split].
  destruct (truthy l); [|repeat split]. apply selectComponent_mirror.
Qed.

Lemma onComponentsMap_sel_ok a : sel_ok (core a) -> sel_ok (core (onComponentsMap a)).
Proof.
  intros H. unfold onComponentsMap.
  destruct (selectedComponentId (core a)) as [x|]; [|exact H].
  destruct (_ && _); [|exact H]. apply selectComponent_sel_ok. exact H.
Qed.

Lemma onComponentsMap_mirror a : mirror_eq (core a) (core (onComponentsMap a)).
Proof.
  unfold onComponentsMap.
  destruct (selectedComponentId (core a)) as [x|]; [|repeat split].
  destruct (_ && _); [|repeat split]. apply selectComponent_mirror.
Qed.

Lemma onAppSelected_mirror id a : mirror_eq (core a) (core (onAppSelected id a)).
Proof.
  unfold onAppSelected. simpl.
  set (a1 := with_core _ a).
  assert (H1 : mirror_eq (core a) (core a1)).
  { subst a1. simpl.
    eapply mirror_eq_trans; [apply (requestComponentTree_mirror None)|]. repeat split. }
  destruct (bool_decide _); [|exact H1].
  eapply mirror_eq_trans; [exact H1|]. apply selectLastComponent_mirror.
Qed.

Lemma onAppSelected_sel_ok id a : sel_ok (core a) -> sel_ok (core (onAppSelected id a)).
Proof.
  intros H. unfold onAppSelected. simpl.
  set (a1 := with_core _ a).
  assert (H1 : sel_ok (core a1)).
  { subst a1. simpl. apply (sel_ok_eq (core a)); [|exact H].
    eapply sel_eq_trans; [apply (requestComponentTree_sel None)|]. repeat split. }
  destruct (bool_decide _); [|exact H1].
  apply selectLastComponent_sel_ok. exact H1.
Qed.

(** ** What the tree-data handler leaves alone *)

Lemma ui_eq_refl s : ui_eq s s.
Proof. repeat split. Qed.

Lemma ui_eq_trans s1 s2 s3 : ui_eq s1 s2 -> ui_eq s2 s3 -> ui_eq s1 s3.
Proof.
  intros (?&?&?&?&?&?&?) (?&?&?&?&?&?&?). repeat split; congruence.
Qed.

Lemma addToComponentsMap_ui s0 fuel a s :
  ui_eq s0 s -> ui_eq s0 (state_of (addToComponentsMap fuel a s)).
Proof.
  apply (addToComponentsMap_keeps (ui_eq s0)); intros; assumption.
Qed.

Lemma mergeItem_ui s0 fuel item s :
  ui_eq s0 s -> ui_eq s0 (state_of (mergeItem fuel item s)).
Proof.
  intros H. unfold mergeItem, bind, updateComponentsMapData.
  destruct (componentsMap s !! _) as [c|]; [|exact H].
  destruct (heap s !! c) as [C|]; [|exact H].
  destruct (inc_children _ _) as [cs h1].
  apply addToComponentsMap_ui. exact H.
Qed.

Lemma after_queued_reset_ui s : ui_eq s (after_queued_reset s).
Proof.
  unfold after_queued_reset. destruct (resetComponentsQueued s); repeat split.
Qed.

Section TreeShape.

Variable parse : string -> option Parsed.

(** The handler is a merge that leaves the selection, the expand map, the
    filter and the bridge alone, followed, when it returns with data, by the
    reload of the selection. *)
Lemma onComponentTree_shape fuel msg s :
  exists s1,
    ui_eq s s1 /\
    ((exists e, onComponentTree parse fuel msg s = Throw e s1) \/
     (has_data msg = false /\ onComponentTree parse fuel msg s = Ok tt s1) \/
     (has_data msg = true /\
      onComponentTree parse fuel msg s =
      Ok tt (reloadSelected (endsWith (tm_instanceId msg) "root") s1))).
Proof.
  rewrite onComponentTree_reset_first.
  pose proof (after_queued_reset_ui s) as Hui.
  pose proof (after_queued_reset_not_queued s) as Hq.
  revert Hui Hq. generalize (after_queued_reset s). intros s0 Hui Hq.
  unfold onComponentTree, has_data. rewrite Hq.
  assert (Hnd : forall b : bool,
             ui_eq s (if b then putError "Component tree not supported" s0 else s0)).
  { intros []; [|exact Hui]. eapply ui_eq_trans; [exact Hui|]. repeat split. }
  destruct (tm_treeData msg) as [raw|]; [|eexists; split; [apply Hnd|]; auto].
  destruct (truthy raw); [|eexists; split; [apply Hnd|]; auto].
  destruct (parse raw) as [data|]; [|exists s0; split; [exact Hui|]; left; eauto].
  unfold bind, modify.
  set (m := match componentsMap s0 !! tm_instanceId msg with
            | Some _ => _ | None => _ end).
  assert (Hm : ui_eq s (state_of (m s0))).
  { subst m.
    destruct (componentsMap s0 !! tm_instanceId msg) as [t|]; destruct data as [items|o];
      try exact Hui.
    - apply forEach_keeps; [|exact Hui]. intros x s'. apply mergeItem_ui.
    - destruct (alloc_list (map as_sent items) (heap s0)) as [roots h].
      apply forEach_keeps; [intros x s'; apply addToComponentsMap_ui|].
      eapply ui_eq_trans; [exact Hui|]. repeat split. }
  exists (state_of (m s0)). split; [exact Hm|].
  destruct (m s0) as [[] s1|e s1]; simpl; [right; right; auto | left; eauto].
Qed.

Lemma onComponentTree_sel_ok fuel msg s :
  sel_ok s -> sel_ok (state_of (onComponentTree parse fuel msg s)).
Proof.
  intros H. destruct (onComponentTree_shape fuel msg s) as (s1 & Hui & Hr).
  assert (H1 : sel_ok s1).
  { apply (sel_ok_eq s); [|exact H]. destruct Hui as (_&?&_&?&?&_).
    repeat split; assumption. }
  destruct Hr as [[e ->]|[[_ ->]|[_ ->]]]; simpl; try exact H1.
  unfold reloadSelected. destruct (_ && _); [|exact H1].
  apply loadComponent_selected_ok. apply H1.
Qed.

Lemma onSelectedData_cases msg s :
  onSelectedData parse msg s = Throw ParseFailure s \/
  exists s2,
    onSelectedData parse msg s =
      Ok tt (match sd_parentIds msg with
             | Some ids => openParents ids s2
             | None => s2
             end) /\
    mirror_eq s s2 /\
    selectedComponentId s2 = selectedComponentId s /\
    lastSelectedComponentId s2 = lastSelectedComponentId s /\
    (selectedComponentPendingId s2 = selectedComponentPendingId s \/
     selectedComponentPendingId s2 = None).
Proof.
  unfold onSelectedData.
  destruct (strict_eq (sd_instanceId msg) (selectedComponentId s)).
  - destruct (parse (sd_data msg)) as [v|]; [|left; reflexivity].
    right. destruct (strict_eq _ _); eexists;
      (split; [destruct (sd_parentIds msg); reflexivity|]); repeat split; auto.
  - right. destruct (strict_eq _ _); eexists;
      (split; [destruct (sd_parentIds msg); reflexivity|]); repeat split; auto.
Qed.

Lemma onSelectedData_sel_ok msg s :
  sel_ok s -> sel_ok (state_of (onSelectedData parse msg s)).
Proof.
  intros H. destruct (onSelectedData_cases msg s) as [->|(s2 & -> & _ & Hs & Hl & Hp)];
    [exact H|].
  assert (H2 : sel_ok s2).
  { destruct H as [HJ HK]. split.
    - intros v Hv. rewrite Hl. destruct Hp as [Hp|Hp]; rewrite Hp in Hv;
        [apply HJ; exact Hv | discriminate].
    - rewrite Hs, Hl. exact HK. }
  simpl. destruct (sd_parentIds msg) as [ids|]; [|exact H2].
  apply (sel_ok_eq s2); [apply openParents_sel | exact H2].
Qed.

Lemma onSelectedData_mirror msg s :
  mirror_eq s (state_of (onSelectedData parse msg s)).
Proof.
  destruct (onSelectedData_cases msg s) as [->|(s2 & -> & Hm & _)]; [repeat split|].
  simpl. destruct (sd_parentIds msg) as [ids|]; [|exact Hm].
  eapply mirror_eq_trans; [exact Hm | apply openParents_mirror].
Qed.

(** ** Invariants of the whole module *)

Lemma step_wf e a : wf (core a) -> wf (core (step parse e a)).
Proof.
  intros H. destruct e; simpl.
  - apply (wf_mirror (core a)); [|exact H]. unfold onRouteComponentId.
    eapply mirror_eq_trans; [|apply loadComponent_mirror]. repeat split.
  - apply (wf_mirror (core a)); [|exact H]. unfold onTreeFilter.
    eapply mirror_eq_trans; [|apply requestComponentTree_mirror]. repeat split.
  - apply (wf_mirror (core a)); [apply onComponentsMap_mirror | exact H].
  - apply (wf_mirror (core a)); [apply (onAppSelected_mirror id) | exact H].
  - apply (wf_mirror (core a)); [apply selectLastComponent_mirror | exact H].
  - apply (wf_mirror (core a)); [apply selectComponent_mirror | exact H].
  - apply (wf_mirror (core a)); [apply toggleExpand_mirror | exact H].
  - apply (wf_mirror (core a)); [apply useComponent_mirror | exact H].
  - apply (wf_mirror (core a)); [repeat split | exact H].
  - apply (wf_mirror (core a)); [apply requestComponentTree_mirror | exact H].
  - apply resetComponents_wf. apply H.
  - apply (wf_mirror (core a)); [repeat split | exact H].
  - apply onComponentTree_wf. exact H.
  - apply (wf_mirror (core a)); [apply onSelectedData_mirror | exact H].
Qed.

Lemma step_sel_ok e a : sel_ok (core a) -> sel_ok (core (step parse e a)).
Proof.
  intros H. destruct e; simpl.
  - unfold onRouteComponentId.
    apply (loadComponent_selected_ok (set_selectedComponentId value (core a))).
    apply H.
  - apply (sel_ok_eq (core a)); [|exact H]. unfold onTreeFilter.
    eapply sel_eq_trans; [|apply requestComponentTree_sel]. repeat split.
  - apply onComponentsMap_sel_ok. exact H.
  - apply (onAppSelected_sel_ok id). exact H.
  - apply selectLastComponent_sel_ok. exact H.
  - apply selectComponent_sel_ok. exact H.
  - apply (sel_ok_eq (core a)); [apply toggleExpand_sel | exact H].
  - apply (sel_ok_eq (core a)); [apply useComponent_sel | exact H].
  - apply (sel_ok_eq (core a)); [repeat split | exact H].
  - apply (sel_ok_eq (core a)); [apply requestComponentTree_sel | exact H].
  - apply (sel_ok_eq (core a)); [repeat split | exact H].
  - split; simpl; [discriminate | apply H].
  - apply onComponentTree_sel_ok. exact H.
  - apply onSelectedData_sel_ok. exact H.
Qed.

Lemma run_keeps (P : App -> Prop) :
  (forall e a, P a -> P (step parse e a)) ->
  forall events a, P a -> P (run parse events a).
Proof.
  intros Hstep. unfold run. induction events as [|e events IH]; intros a H; [exact H|].
  simpl. apply IH. apply Hstep. exact H.
Qed.

End TreeShape.

Lemma wf_init : wf init.
Proof.
  split; [|split].
  - intros k a Hk. simpl in Hk. rewrite lookup_empty in Hk. discriminate.
  - intros a o Ha. discriminate.
  - constructor.
Qed.

Lemma sel_ok_init : sel_ok init.
Proof. split; simpl; discriminate. Qed.

(** X1: whatever happens to the module, starting from its initial state
    (handlers that throw included), the mirror stays well formed: the node
    table maps an id to a stored object that carries this id, the children
    of every stored object are stored objects, and so are the roots. *)
Theorem mirror_stays_well_formed (parse : string -> option Parsed) events :
  let s := core (run parse events init_app) in
  wf s /\
  (forall k, is_Some (componentsMap s !! k) ->
             exists o, instance_of s k = Some o /\ o_id o = k).
Proof.
  intros s.
  assert (H : wf s).
  { subst s. apply (run_keeps parse (fun a => wf (core a))); [apply step_wf|].
    exact wf_init. }
  split; [exact H|].
  intros k [a Hk]. destruct (proj1 H k a Hk) as (o & Ho & Hid).
  exists o. split; [|exact Hid]. unfold instance_of. rewrite Hk. exact Ho.
Qed.

Lemma mirror_stays_well_formed_witness :
  let s := core (run (parse_table payloads)
                   [RequestTree None;
                    TreeData 8 (mkTreeMsg "_root" (Some "tree-1") false);
                    TreeData 8 (mkTreeMsg "a" (Some "x-alone") false)] init_app) in
  exists o, instance_of s "x" = Some o /\ o_id o = "x".
Proof.
  intros s.
  destruct (mirror_stays_well_formed (parse_table payloads)
              [RequestTree None;
               TreeData 8 (mkTreeMsg "_root" (Some "tree-1") false);
               TreeData 8 (mkTreeMsg "a" (Some "x-alone") false)]) as [_ H].
  apply H. exists 0. vm_compute. reflexivity.
Defined.

(** X2: whatever happens to the module, starting from its initial state, a
    pending id is a non-empty id and is the last selected id, and a
    non-empty selected id is the last selected id; so a detail request in
    flight is for the selected component whenever one is selected. *)
Theorem selection_stays_coherent (parse : string -> option Parsed) events :
  let s := core (run parse events init_app) in
  sel_ok s /\
  (forall v, selectedComponentPendingId s = Some v ->
             truthy_opt (selectedComponentId s) = true ->
             selectedComponentId s = Some v).
Proof.
  intros s.
  assert (H : sel_ok s).
  { subst s. apply (run_keeps parse (fun a => sel_ok (core a))); [apply step_sel_ok|].
    exact sel_ok_init. }
  split; [exact H|].
  intros v Hv Hsel. destruct H as [HJ HK].
  rewrite <- (HK Hsel). apply (HJ v Hv).
Qed.

Lemma selection_stays_coherent_witness :
  let s := core (run (parse_table payloads)
                   [RouteChanged (Some "a"); Setup; Select "a" false] init_app) in
  selectedComponentPendingId s = Some "a" /\ selectedComponentId s = Some "a".
Proof.
  intros s.
  destruct (selection_stays_coherent (parse_table payloads)
              [RouteChanged (Some "a"); Setup; Select "a" false]) as [_ H].
  split; [vm_compute; reflexivity|].
  apply H; vm_compute; reflexivity.
Defined.

(** ** Entries are never removed by a merge *)

Lemma is_Some_insert {V} (m : gmap string V) k x j :
  is_Some (m !! j) -> is_Some (<[k := x]> m !! j).
Proof.
  intros H. destruct (decide (k = j)) as [->|Hne].
  - rewrite lookup_insert_eq. eauto.
  - rewrite lookup_insert_ne by assumption. exact H.
Qed.

Lemma addToComponentsMap_grow s0 fuel a s :
  tables_grow s0 s -> tables_grow s0 (state_of (addToComponentsMap fuel a s)).
Proof.
  apply (addToComponentsMap_keeps (tables_grow s0)).
  - intros s1 a1 o _ [Hm Hp]. split; [|exact Hp].
    intros k Hk. simpl. apply is_Some_insert, Hm, Hk.
  - intros s1 c child p _ [Hm Hp]. split; [exact Hm|].
    intros k Hk. simpl. apply is_Some_insert, Hp, Hk.
Qed.

Lemma mergeItem_grow s0 fuel item s :
  tables_grow s0 s -> tables_grow s0 (state_of (mergeItem fuel item s)).
Proof.
  intros H. unfold mergeItem, bind, updateComponentsMapData.
  destruct (componentsMap s !! _) as [c|]; [|exact H].
  destruct (heap s !! c) as [C|]; [|exact H].
  destruct (inc_children _ _) as [cs h1].
  apply addToComponentsMap_grow. exact H.
Qed.

(** X3: a merge never removes an entry of the node table or of the parent
    table: every id that has an entry when the handler starts its work
    (after the queued reset, if there is one) still has one when the handler
    is left, whether it returns or throws. *)
Theorem merge_never_removes_entries (parse : string -> option Parsed) fuel msg s :
  tables_grow (after_queued_reset s) (state_of (onComponentTree parse fuel msg s)).
Proof.
  rewrite onComponentTree_reset_first.
  pose proof (after_queued_reset_not_queued s) as Hq.
  revert Hq. generalize (after_queued_reset s). intros s0 Hq.
  assert (Hrefl : tables_grow s0 s0) by (split; auto).
  unfold onComponentTree. rewrite Hq.
  assert (Hnd : forall b : bool,
             tables_grow s0 (if b then putError "Component tree not supported" s0 else s0)).
  { intros []; exact Hrefl. }
  destruct (tm_treeData msg) as [raw|]; [|apply Hnd].
  destruct (truthy raw); [|apply Hnd].
  destruct (parse raw) as [data|]; [|exact Hrefl].
  unfold bind, modify.
  set (m := match componentsMap s0 !! tm_instanceId msg with
            | Some _ => _ | None => _ end).
  assert (Hm : tables_grow s0 (state_of (m s0))).
  { subst m.
    destruct (componentsMap s0 !! tm_instanceId msg) as [t|]; destruct data as [items|o];
      try exact Hrefl.
    - apply forEach_keeps; [|exact Hrefl]. intros x s'. apply mergeItem_grow.
    - destruct (alloc_list (map as_sent items) (heap s0)) as [roots h].
      apply forEach_keeps; [intros x s'; apply addToComponentsMap_grow|].
      exact Hrefl. }
  destruct (m s0) as [[] s1|e s1]; simpl in *; [|exact Hm].
  destruct (reloadSelected_frame (endsWith (tm_instanceId msg) "root") s1)
    as (_ & _ & Hmap & Hpar).
  unfold tables_grow. rewrite Hmap, Hpar. exact Hm.
Qed.

(** ** Where a [TypeError] can come from *)

Lemma addToComponentsMap_no_TypeError fuel :
  forall a s,
    closed (heap s) -> a < length (heap s) ->
    not_TypeError (addToComponentsMap fuel a s).
Proof.
  induction fuel as [|fuel IH]; intros a s Hcl Ha; [intros s' H; discriminate|].
  simpl. destruct (lookup_lt_is_Some_2 _ _ Ha) as [inst Hinst]. rewrite Hinst.
  pose proof (Hcl a inst Hinst) as Hkids.
  set (s1 := set_componentsMap _ s).
  assert (Hh : heap s1 = heap s) by reflexivity.
  revert Hh. generalize s1. clear s1.
  induction (o_children inst) as [|c l IHl]; intros s1 Hh; [intros s' H; discriminate|].
  apply Forall_cons in Hkids as [Hc Hl].
  simpl. unfold bind.
  assert (Hc1 : c < length (heap s1)) by (rewrite Hh; exact Hc).
  destruct (lookup_lt_is_Some_2 _ _ Hc1) as [child Hchild]. rewrite Hchild.
  set (s2 := set_componentsParent _ s1).
  assert (Hcl2 : closed (heap s2)) by (simpl; rewrite Hh; exact Hcl).
  pose proof (IH c s2 Hcl2 Hc1) as Hno.
  pose proof (addToComponentsMap_heap fuel c s2) as [Hheap _].
  destruct (addToComponentsMap fuel c s2) as [[] s3|e s3]; simpl in *.
  - apply (IHl Hl). rewrite Hheap. exact Hh.
  - intros s' H. injection H as -> ->. apply (Hno s'). reflexivity.
Qed.

Lemma forEach_add_no_TypeError fuel roots :
  forall s,
    closed (heap s) -> Forall (fun r => r < length (heap s)) roots ->
    not_TypeError (forEach (addToComponentsMap fuel) roots s).
Proof.
  induction roots as [|r roots IH]; intros s Hcl Hr; [intros s' H; discriminate|].
  apply Forall_cons in Hr as [Hr1 Hr2]. simpl. unfold bind.
  pose proof (addToComponentsMap_no_TypeError fuel r s Hcl Hr1) as Hno.
  pose proof (addToComponentsMap_heap fuel r s) as [Hheap _].
  destruct (addToComponentsMap fuel r s) as [[] s1|e s1]; simpl in *.
  - apply IH; rewrite Hheap; assumption.
  - intros s' H. injection H as -> ->. apply (Hno s'). reflexivity.
Qed.

Lemma after_update_wf s item c C :
  wf s -> componentsMap s !! node_id item = Some c -> heap s !! c = Some C ->
  wf (after_update s item c C) /\ c < length (heap (after_update s item c C)).
Proof.
  intros (Hm & Hcl & Hr) Hc HC. unfold after_update.
  destruct (inc_children _ _) as [cs h1] eqn:Hic.
  destruct (inc_children_closed _ _ _ _ Hcl (kept_ok_restore s item Hcl) Hic)
    as (Hcl1 & Hcs & Hle).
  destruct (inc_children_extends _ _ _ _ Hic) as [ext ->].
  pose proof (lookup_lt_Some _ _ _ HC) as Hclt.
  split; [|simpl; rewrite length_insert, length_app; lia].
  split; [|split]; unfold map_ok; simpl.
  - intros k a Hk. destruct (Hm k a Hk) as (o & Ha & Hid).
    destruct (decide (a = c)) as [->|Hne].
    + assert (o = C) by congruence. subst o.
      destruct (Hm _ _ Hc) as (o' & Ho' & Hid'). assert (o' = C) by congruence. subst o'.
      eexists. split.
      * apply list_lookup_insert_eq. rewrite length_app. lia.
      * simpl. congruence.
    + exists o. split; [|exact Hid].
      rewrite list_lookup_insert_ne by congruence.
      apply lookup_app_l_Some. exact Ha.
  - apply closed_insert; assumption.
  - rewrite length_insert. eapply Forall_impl; [exact Hr|]. simpl. intros; lia.
Qed.

Lemma mergeItem_TypeError fuel item s s' :
  wf s -> mergeItem fuel item s = Throw TypeError s' ->
  componentsMap s !! node_id item = None /\ s' = s.
Proof.
  intros Hwf H.
  destruct (componentsMap s !! node_id item) as [c|] eqn:Hc.
  - exfalso. destruct (proj1 Hwf _ _ Hc) as (C & HC & _).
    rewrite (mergeItem_known fuel item s c C Hc HC) in H.
    destruct (after_update_wf s item c C Hwf Hc HC) as [Hwf1 Hlt].
    apply (addToComponentsMap_no_TypeError fuel c _ (proj1 (proj2 Hwf1)) Hlt s' H).
  - rewrite mergeItem_unseen in H by assumption. injection H as <-. auto.
Qed.

Lemma forEach_mergeItem_TypeError fuel items :
  forall s s',
    wf s -> forEach (mergeItem fuel) items s = Throw TypeError s' ->
    exists pre item post,
      items = pre ++ item :: post /\
      forEach (mergeItem fuel) pre s = Ok tt s' /\
      componentsMap s' !! node_id item = None.
Proof.
  induction items as [|x l IH]; intros s s' Hwf H; [discriminate|].
  simpl in H. unfold bind in H.
  pose proof (mergeItem_wf fuel x s Hwf) as Hwf1.
  destruct (mergeItem fuel x s) as [[] s1|e s1] eqn:E; simpl in *.
  - destruct (IH s1 s' Hwf1 H) as (pre & item & post & -> & Hpre & Hnew).
    exists (x :: pre), item, post. split; [reflexivity|]. split; [|exact Hnew].
    simpl. unfold bind. rewrite E. exact Hpre.
  - injection H as -> ->.
    destruct (mergeItem_TypeError fuel x s s' Hwf E) as [Hnew ->].
    exists [], x, l. auto.
Qed.

(** X4: on a well-formed mirror the tree-data handler throws a [TypeError]
    in two cases only, both for a target that is in the node table: the
    parsed data is not an array, or a top-level incoming node has an id that
    is not in the node table when its turn comes.  The state it leaves is
    the one reached before that node; a replacement of the roots never
    throws a [TypeError]. *)
Theorem type_errors_come_from_unknown_items
    (parse : string -> option Parsed) fuel msg s s' :
  wf s ->
  onComponentTree parse fuel msg s = Throw TypeError s' ->
  exists raw data,
    tm_treeData msg = Some raw /\ parse raw = Some data /\
    is_Some (componentsMap (after_queued_reset s) !! tm_instanceId msg) /\
    ((exists o, data = PObject o /\ s' = after_queued_reset s) \/
     (exists pre item post,
        data = PArray (pre ++ item :: post) /\
        forEach (mergeItem fuel) pre (after_queued_reset s) = Ok tt s' /\
        componentsMap s' !! node_id item = None)).
Proof.
  intros Hwf. rewrite onComponentTree_reset_first.
  pose proof (after_queued_reset_wf s Hwf) as Hwf0.
  pose proof (after_queued_reset_not_queued s) as Hq.
  revert Hwf0 Hq. generalize (after_queued_reset s). intros s0 Hwf0 Hq.
  unfold onComponentTree. rewrite Hq.
  destruct (tm_treeData msg) as [raw|]; [|discriminate].
  destruct (truthy raw); [|discriminate].
  destruct (parse raw) as [data|] eqn:Hp; [|discriminate].
  unfold bind, modify. intros H.
  exists raw, data. split; [reflexivity|]. split; [exact Hp|].
  destruct (componentsMap s0 !! tm_instanceId msg) as [t|] eqn:Ht;
    destruct data as [items|o].
  - split; [eauto|]. right.
    destruct (forEach (mergeItem fuel) items s0) as [[] s1|e s1] eqn:E;
      [discriminate|]. injection H as -> ->.
    destruct (forEach_mergeItem_TypeError fuel items s0 s' Hwf0 E)
      as (pre & item & post & -> & Hpre & Hnew).
    exists pre, item, post. auto.
  - split; [eauto|]. left. exists o. simpl in H. injection H as <-. auto.
  - exfalso.
    destruct (alloc_list (map as_sent items) (heap s0)) as [roots h] eqn:Hal.
    destruct Hwf0 as (Hm & Hcl & Hr).
    assert (Hspec : Forall alloc_closed_spec (map as_sent items))
      by (apply Forall_forall; intros k _; apply alloc_closed).
    assert (Hkept : Forall (kept_ok (length (heap s0))) (map as_sent items))
      by (apply Forall_map, Forall_forall; intros t _; apply kept_ok_as_sent).
    destruct (alloc_list_closed _ Hspec _ _ _ Hcl Hkept Hal) as (Hcl1 & Hroots & Hle).
    pose proof (forEach_add_no_TypeError fuel roots
                  (set_rootInstances roots (set_heap h s0)) Hcl1 Hroots) as Hno.
    destruct (forEach (addToComponentsMap fuel) roots _) as [[] s1|e s1];
      [discriminate|]. injection H as -> ->. apply (Hno s'). reflexivity.
  - discriminate.
Qed.

Lemma loaded_wf : wf loaded.
Proof.
  apply onComponentTree_wf.
  apply (wf_mirror init); [apply requestComponentTree_mirror | exact wf_init].
Qed.

Lemma type_errors_come_from_unknown_items_witness :
  exists pre item post,
    parse_table payloads "a-and-new" = Some (PArray (pre ++ item :: post)) /\
    componentsMap
      (state_of (onComponentTree (parse_table payloads) 8
                   (mkTreeMsg "a" (Some "a-and-new") false) loaded))
      !! node_id item = None.
Proof.
  destruct (type_errors_come_from_unknown_items (parse_table payloads) 8
              (mkTreeMsg "a" (Some "a-and-new") false) loaded
              (state_of (onComponentTree (parse_table payloads) 8
                           (mkTreeMsg "a" (Some "a-and-new") false) loaded))
              loaded_wf)
    as (raw & data & Hraw & Hp & _ & [(o & -> & _)|(pre & item & post & -> & _ & Hnew)]).
  - vm_compute. reflexivity.
  - simpl in Hraw. injection Hraw as <-. vm_compute in Hp. discriminate.
  - simpl in Hraw. injection Hraw as <-.
    exists pre, item, post. split; [exact Hp | exact Hnew].
Defined.

(** ** The node table after a replacement of the roots *)

Lemma map_entries_keys v : map fst (map_entries v) = ids (erase v).
Proof.
  induction v as [a o kids IH] using View_ind'. simpl. f_equal.
  induction kids as [|k kids IHk]; [reflexivity|].
  apply Forall_cons in IH as [Hhd Htl]. simpl.
  rewrite map_app, Hhd, (IHk Htl). reflexivity.
Qed.

Lemma view_of_entry v w :
  view_of v w -> In (view_id w, view_addr w) (map_entries v).
Proof.
  induction 1 as [[a o kids]|a o kids k w Hk Hw IH]; simpl.
  - left. reflexivity.
  - right. apply in_flat_map. exists k. auto.
Qed.

Lemma shows_view_of h v w : shows h v -> view_of v w -> shows h w.
Proof.
  intros Hs Hv. induction Hv as [v|a o kids k w Hk Hw IH]; [exact Hs|].
  apply IH. apply shows_inv in Hs as (_ & _ & Hks).
  rewrite Forall_forall in Hks. apply Hks, list_elem_of_In, Hk.
Qed.

Lemma node_of_erase v :
  forall t, node_of (erase v) t -> exists w, view_of v w /\ erase w = t.
Proof.
  induction v as [a o kids IH] using View_ind'. intros t Ht.
  inversion Ht as [|i hc ks p k t' Hk Hkt]; subst.
  - exists (VNode a o kids). split; [constructor | reflexivity].
  - apply in_map_iff in Hk as (kv & <- & Hkv).
    rewrite Forall_forall in IH.
    destruct (IH kv (proj2 (list_elem_of_In _ _) Hkv) t Hkt) as (w & Hw & Hew).
    exists w. split; [|exact Hew]. apply view_of_kid with (k := kv); assumption.
Qed.

Lemma forest_entries_keys vs :
  map fst (flat_map map_entries vs) = forest_ids (map erase vs).
Proof.
  unfold forest_ids. induction vs as [|v vs IH]; [reflexivity|].
  simpl. rewrite map_app, map_entries_keys, IH. reflexivity.
Qed.

Section RootReplacement.

Variable parse : string -> option Parsed.

(** The run of the handler on a replacement of the roots. *)
Lemma onComponentTree_roots_run fuel msg s raw items :
  tm_treeData msg = Some raw -> truthy raw = true ->
  parse raw = Some (PArray items) ->
  componentsMap (after_queued_reset s) !! tm_instanceId msg = None ->
  forest_height items <= fuel ->
  exists vs h,
    onComponentTree parse fuel msg s =
      Ok tt (reloadSelected (endsWith (tm_instanceId msg) "root")
               (foldl (fun s v => register v s)
                  (set_rootInstances (map view_addr vs)
                     (set_heap h (after_queued_reset s))) vs)) /\
    Forall (shows h) vs /\ map erase vs = items /\
    (exists ext, h = heap (after_queued_reset s) ++ ext).
Proof.
  intros Hd Ht Hp Hm Hfuel. rewrite onComponentTree_reset_first.
  pose proof (after_queued_reset_not_queued s) as Hq.
  revert Hm Hq. generalize (after_queued_reset s). intros s0 Hm Hq.
  unfold onComponentTree. rewrite Hq, Hd, Ht, Hp, Hm. unfold bind, modify.
  destruct (alloc_list (map as_sent items) (heap s0)) as [roots h] eqn:Hal.
  destruct (alloc_forest_fresh _ _ _ _ Hal) as (vs & Hext & Hsh & Hroots & Her & _).
  assert (Hdepth : Forall (fun v => depth v <= fuel) vs).
  { apply forest_height_bound in Hfuel. rewrite <- Her in Hfuel.
    apply Forall_map in Hfuel. eapply Forall_impl; [exact Hfuel|].
    simpl. intros v. rewrite height_erase. trivial. }
  exists vs, h. rewrite <- Hroots.
  rewrite (addToComponentsMap_all fuel vs
             (set_rootInstances (map view_addr vs) (set_heap h s0))) by assumption.
  auto.
Qed.

End RootReplacement.

(** X5: when the roots are replaced by incoming trees whose ids are pairwise
    distinct (and the stack is deep enough for them), the handler returns
    and every incoming node, at any depth, is then in the node table under
    its id: the entry is a stored object that unfolds to that very node.
    Entries for other ids are as they were. *)
Theorem replaced_roots_are_registered
    (parse : string -> option Parsed) fuel msg s raw items :
  tm_treeData msg = Some raw -> truthy raw = true ->
  parse raw = Some (PArray items) ->
  componentsMap (after_queued_reset s) !! tm_instanceId msg = None ->
  NoDup (forest_ids items) ->
  forest_height items <= fuel ->
  exists s',
    onComponentTree parse fuel msg s = Ok tt s' /\
    (forall root t, In root items -> node_of root t ->
       exists w, componentsMap s' !! node_id t = Some (view_addr w) /\
                 shows (heap s') w /\ erase w = t) /\
    (forall k, ~ In k (forest_ids items) ->
       componentsMap s' !! k = componentsMap (after_queued_reset s) !! k).
Proof.
  intros Hd Ht Hp Hm Hnd Hfuel.
  destruct (onComponentTree_roots_run parse fuel msg s raw items)
    as (vs & h & Hrun & Hsh & Her & _); try assumption.
  rewrite Hrun. eexists. split; [reflexivity|].
  destruct (reloadSelected_frame (endsWith (tm_instanceId msg) "root")
              (foldl (fun s v => register v s)
                 (set_rootInstances (map view_addr vs)
                    (set_heap h (after_queued_reset s))) vs)) as (-> & _ & -> & _).
  rewrite register_all. simpl.
  assert (Hkeys : NoDup (map fst (flat_map map_entries vs)))
    by (rewrite forest_entries_keys, Her; exact Hnd).
  split.
  - intros root t Hroot Hnode. rewrite <- Her in Hroot.
    apply in_map_iff in Hroot as (v & <- & Hv).
    destruct (node_of_erase v t Hnode) as (w & Hw & <-).
    exists w. split; [|split; [|reflexivity]].
    + replace (node_id (erase w)) with (view_id w) by (destruct w; reflexivity).
      apply assign_lookup_in; [exact Hkeys|].
      apply in_flat_map. exists v. split; [exact Hv | apply view_of_entry, Hw].
    + apply (shows_view_of h v w); [|exact Hw].
      rewrite Forall_forall in Hsh. apply Hsh, list_elem_of_In, Hv.
  - intros k Hk. apply assign_lookup_notin.
    rewrite forest_entries_keys, Her. exact Hk.
Qed.

Lemma replaced_roots_are_registered_witness :
  exists s' w,
    onComponentTree (parse_table payloads) 8
      (mkTreeMsg "_root" (Some "tree-1") false) (requestComponentTree None init)
      = Ok tt s' /\
    componentsMap s' !! "x" = Some (view_addr w) /\
    shows (heap s') w /\ erase w = leaf "x".
Proof.
  destruct (replaced_roots_are_registered (parse_table payloads) 8
              (mkTreeMsg "_root" (Some "tree-1") false)
              (requestComponentTree None init) "tree-1" [tree_1])
    as (s' & Hrun & Hreg & _).
  - reflexivity.
  - reflexivity.
  - reflexivity.
  - reflexivity.
  - repeat (apply NoDup_cons_2;
              [rewrite list_elem_of_In; simpl; intuition discriminate|]).
    apply NoDup_nil_2.
  - vm_compute. lia.
  - destruct (Hreg tree_1 (leaf "x")) as (w & Hw).
    + left. reflexivity.
    + apply node_of_kid with (k := mkNode "a" true [leaf "x"] ∅); [left; reflexivity|].
      apply node_of_kid with (k := leaf "x"); [left; reflexivity | constructor].
    + exists s', w. split; [exact Hrun | exact Hw].
Defined.

(** ** A known-target update works in place *)

Lemma inc_hasChildren_restore s t :
  inc_hasChildren (restoreChildrenFromComponentsMap s t) = node_hasChildren t.
Proof.
  destruct t as [i hc kids p]. simpl.
  destruct (instance_of s i); [|reflexivity].
  destruct hc; [|reflexivity]. destruct (_ && _); reflexivity.
Qed.

Lemma inc_fields_restore s t :
  inc_fields (restoreChildrenFromComponentsMap s t) = node_fields t.
Proof.
  destruct t as [i hc kids p]. simpl.
  destruct (instance_of s i); [|reflexivity].
  destruct hc; [|reflexivity]. destruct (_ && _); reflexivity.
Qed.

Lemma mergeItem_roots R fuel item s :
  rootInstances s = R -> rootInstances (state_of (mergeItem fuel item s)) = R.
Proof.
  intros H. unfold mergeItem, bind, updateComponentsMapData.
  destruct (componentsMap s !! _) as [c|]; [|exact H].
  destruct (heap s !! c) as [C|]; [|exact H].
  destruct (inc_children _ _) as [cs h1].
  rewrite (proj2 (addToComponentsMap_heap fuel c _)). exact H.
Qed.

Section InPlace.

Variable parse : string -> option Parsed.

Lemma known_target_keeps_roots fuel msg s :
  resetComponentsQueued s = false ->
  is_Some (componentsMap s !! tm_instanceId msg) ->
  rootInstances (state_of (onComponentTree parse fuel msg s)) = rootInstances s.
Proof.
  intros Hq [t Hk]. unfold onComponentTree. rewrite Hq, Hk.
  destruct (tm_treeData msg) as [raw|]; [|destruct (_ && _); reflexivity].
  destruct (truthy raw); [|destruct (_ && _); reflexivity].
  destruct (parse raw) as [[items|o]|]; try reflexivity.
  unfold bind, modify.
  pose proof (forEach_keeps (fun s' => rootInstances s' = rootInstances s)
                (mergeItem fuel) (fun x s' => mergeItem_roots _ fuel x s')
                items s eq_refl) as H.
  destruct (forEach (mergeItem fuel) items s) as [[] s1|e s1]; simpl in *; [|exact H].
  destruct (reloadSelected_frame (endsWith (tm_instanceId msg) "root") s1)
    as (_ & -> & _). exact H.
Qed.

End InPlace.

(** X6: the refresh of a known target works in place.  For the last
    incoming top-level node, the object that was in the node table under its
    id is still at the same address and carries the incoming id and
    [hasChildren]; each of its other fields has the incoming value when the
    incoming node has that key, and keeps its stored value when it has not.
    The roots array is not touched.  When the subtree attached is finite,
    with pairwise distinct ids, the handler returns and the node table still
    maps the id to that same object. *)
Theorem known_target_refresh_is_in_place
    (parse : string -> option Parsed) fuel msg s0 raw pre item s c C :
  resetComponentsQueued s0 = false ->
  is_Some (componentsMap s0 !! tm_instanceId msg) ->
  tm_treeData msg = Some raw -> truthy raw = true ->
  parse raw = Some (PArray (pre ++ [item])) ->
  forEach (mergeItem fuel) pre s0 = Ok tt s ->
  componentsMap s !! node_id item = Some c -> heap s !! c = Some C ->
  let r := onComponentTree parse fuel msg s0 in
  (exists o',
     heap (state_of r) !! c = Some o' /\
     o_id o' = node_id item /\
     o_hasChildren o' = node_hasChildren item /\
     forall k, o_fields o' !! k =
               match node_fields item !! k with
               | Some x => Some x
               | None => o_fields C !! k
               end) /\
  rootInstances (state_of r) = rootInstances s0 /\
  (forall v, shows (heap (state_of r)) v -> view_addr v = c -> depth v <= fuel ->
             NoDup (map fst (map_entries v)) ->
             exists s', r = Ok tt s' /\ componentsMap s' !! node_id item = Some c).
Proof.
  intros Hq Hknown Hd Ht Hp Hpre Hc HC r.
  destruct (onComponentTree_last_run parse fuel msg s0 raw pre item s c C)
    as [_ Hheap]; try assumption.
  fold r in Hheap.
  assert (Hobj : heap (after_update s item c C) !! c =
                 Some (mkObj (node_id item) (node_hasChildren item)
                         (o_children (default C (heap (after_update s item c C) !! c)))
                         (node_fields item ∪ o_fields C))).
  { unfold after_update.
    destruct (inc_children _ _) as [cs h1] eqn:Hic. simpl.
    destruct (inc_children_extends _ _ _ _ Hic) as [ext ->].
    assert (Hlt : c < length (heap s ++ ext)).
    { apply lookup_lt_Some in HC. rewrite length_app. lia. }
    rewrite list_lookup_insert_eq by exact Hlt. simpl.
    rewrite inc_hasChildren_restore, inc_fields_restore. reflexivity. }
  split; [|split].
  - rewrite Hheap, Hobj. eexists. split; [reflexivity|]. simpl.
    split; [reflexivity|]. split; [reflexivity|].
    intros k. rewrite lookup_union.
    destruct (node_fields item !! k); destruct (o_fields C !! k); reflexivity.
  - subst r. apply known_target_keeps_roots; assumption.
  - intros v Hs Hv Hdepth Hnd.
    pose proof (onComponentTree_last_returns parse fuel msg s0 raw pre item s c C v
                  Hq Hknown Hd Ht Hp Hpre Hc HC Hs Hv Hdepth) as Hret.
    fold r in Hret. rewrite Hret. eexists. split; [reflexivity|].
    destruct (reloadSelected_frame (endsWith (tm_instanceId msg) "root")
                (register v (after_update s item c C))) as (_ & _ & -> & _).
    simpl. apply assign_lookup_in; [exact Hnd|].
    rewrite Hheap in Hs. pose proof (shows_lookup _ _ Hs) as Hl.
    rewrite Hv, Hobj in Hl. injection Hl as Hl.
    destruct v as [a o kids]. simpl in Hv, Hl. subst a. rewrite <- Hl. simpl.
    left. reflexivity.
Qed.

Lemma known_target_refresh_is_in_place_witness :
  let r := onComponentTree (parse_table payloads_2) 8
             (mkTreeMsg "a" (Some "a-renamed") false) loaded_2 in
  (exists o',
     heap (state_of r) !! 1 = Some o' /\
     o_fields o' !! "name" = Some "New" /\
     o_fields o' !! "file" = Some "a.vue") /\
  rootInstances (state_of r) = rootInstances loaded_2 /\
  exists s', r = Ok tt s' /\ componentsMap s' !! "a" = Some 1.
Proof.
  intros r.
  destruct (known_target_refresh_is_in_place (parse_table payloads_2) 8
              (mkTreeMsg "a" (Some "a-renamed") false) loaded_2 "a-renamed" []
              (mkNode "a" true [] {["name" := "New"]}) loaded_2 1
              (mkObj "a" true [0] {["name" := "Old"; "file" := "a.vue"]}))
    as ((o' & Ho & _ & _ & Hf) & Hroots & Hret).
  - vm_compute. reflexivity.
  - exists 1. vm_compute. reflexivity.
  - reflexivity.
  - reflexivity.
  - vm_compute. reflexivity.
  - reflexivity.
  - vm_compute. reflexivity.
  - vm_compute. reflexivity.
  - split; [|split; [exact Hroots|]].
    + exists o'. split; [exact Ho|]. rewrite !Hf. split; vm_compute; reflexivity.
    + apply (Hret (VNode 1 (mkObj "a" true [0]
                              ({["name" := "New"]} ∪ {["name" := "Old"; "file" := "a.vue"]}))
                     [VNode 0 (mkObj "x" false [] ∅) []])).
      * constructor; [vm_compute; reflexivity | reflexivity |].
        repeat constructor; vm_compute; reflexivity.
      * reflexivity.
      * vm_compute. lia.
      * simpl. repeat (apply NoDup_cons_2;
                         [rewrite list_elem_of_In; simpl; intuition discriminate|]).
        apply NoDup_nil_2.
Defined.

(** ** The tree-data handler and the selection *)

Lemma reload_due_ui isRoot s s1 : ui_eq s s1 -> reload_due isRoot s1 = reload_due isRoot s.
Proof.
  intros (_ & Hs & Hd & Hp & _). unfold reload_due. rewrite Hs, Hd, Hp. reflexivity.
Qed.

Lemma reload_due_fresh isRoot s :
  reload_due isRoot s = true ->
  exists x, selectedComponentId s = Some x /\ truthy x = true /\
            selectedComponentPendingId s <> Some x.
Proof.
  unfold reload_due. intros H.
  apply andb_prop in H as [H Hp]. apply andb_prop in H as [H _].
  apply andb_prop in H as [_ Hsel].
  destruct (selectedComponentId s) as [x|]; [|discriminate].
  exists x. split; [reflexivity|]. split; [exact Hsel|].
  intros Heq. rewrite Heq in Hp. simpl in Hp, Hsel. rewrite Hsel in Hp. discriminate.
Qed.

(** X7: the tree-data handler never touches the filter, the selected id, the
    snapshot or the expand map, and it sends nothing but, at most, one
    detail fetch: when it returns from a message with data for a root
    target while an id is selected, no snapshot is loaded and nothing is
    pending, it sends the detail fetch for the selected id and records it as
    pending; in every other case the bridge and the pending id are as
    before. *)
Theorem tree_handler_reloads_selection
    (parse : string -> option Parsed) fuel msg s :
  let r := onComponentTree parse fuel msg s in
  let isRoot := endsWith (tm_instanceId msg) "root" in
  (treeFilter (state_of r) = treeFilter s /\
   selectedComponentId (state_of r) = selectedComponentId s /\
   selectedComponentData (state_of r) = selectedComponentData s /\
   expandedMap (state_of r) = expandedMap s) /\
  (forall s', r = Ok tt s' -> has_data msg = true -> reload_due isRoot s = true ->
     exists x,
       selectedComponentId s = Some x /\
       sent s' = sent s ++ [ComponentSelectedData x] /\
       selectedComponentPendingId s' = Some x /\
       lastSelectedComponentId s' = Some x) /\
  ((exists e s', r = Throw e s') \/ has_data msg = false \/ reload_due isRoot s = false ->
     sent (state_of r) = sent s /\
     selectedComponentPendingId (state_of r) = selectedComponentPendingId s /\
     lastSelectedComponentId (state_of r) = lastSelectedComponentId s).
Proof.
  intros r isRoot. subst r.
  destruct (onComponentTree_shape parse fuel msg s) as (s1 & Hui & Hr).
  fold isRoot in Hr.
  pose proof (reload_due_ui isRoot s s1 Hui) as Hdue.
  pose proof Hui as (Hf & Hs & Hd & Hp & Hl & He & Hsent).
  assert (Hre : reloadSelected isRoot s1 =
                if reload_due isRoot s then loadComponent (selectedComponentId s1) s1
                else s1).
  { rewrite <- Hdue. reflexivity. }
  split; [|split].
  - destruct Hr as [[e Hr]|[[_ Hr]|[_ Hr]]]; rewrite Hr; simpl; auto.
    rewrite Hre. destruct (reload_due isRoot s); auto.
    destruct (loadComponent_cases (selectedComponentId s1) s1)
      as [->|(x & _ & _ & _ & ->)]; simpl; auto.
  - intros s' Hok Hdata Hrd.
    destruct Hr as [[e Hr]|[[Hnd _]|[_ Hr]]]; [congruence|congruence|].
    rewrite Hr in Hok. injection Hok as <-. rewrite Hre, Hrd.
    destruct (reload_due_fresh isRoot s Hrd) as (x & Hx & Htx & Hpx).
    exists x. split; [exact Hx|].
    rewrite Hs, Hx. rewrite loadComponent_fresh by (try rewrite Hp; assumption).
    simpl. rewrite Hsent. auto.
  - intros Hcase.
    destruct Hr as [[e Hr]|[[_ Hr]|[Hdata Hr]]]; rewrite Hr in *; simpl; auto.
    destruct Hcase as [(e & s' & Habs)|[Hnd|Hrd]]; [discriminate|congruence|].
    rewrite Hre, Hrd. auto.
Qed.

Lemma tree_handler_reloads_selection_witness :
  let r := onComponentTree (parse_table payloads) 8
             (mkTreeMsg "_root" (Some "tree-1") false) reconnected in
  sent reconnected = [ComponentSelectedData "a"; ComponentTree "_root" ""] /\
  sent (state_of r) =
    [ComponentSelectedData "a"; ComponentTree "_root" ""; ComponentSelectedData "a"] /\
  selectedComponentPendingId (state_of r) = Some "a" /\
  sent (state_of (onComponentTree (parse_table payloads) 8
                    (mkTreeMsg "_root" (Some "garbage") false) reconnected))
  = sent reconnected.
Proof.
  intros r.
  destruct (tree_handler_reloads_selection (parse_table payloads) 8
              (mkTreeMsg "_root" (Some "tree-1") false) reconnected)
    as (_ & Hreload & _).
  destruct (Hreload (state_of r)) as (x & Hx & Hsent & Hp & _).
  - vm_compute. reflexivity.
  - reflexivity.
  - vm_compute. reflexivity.
  - assert (x = "a") by (vm_compute in Hx; congruence). subst x.
    split; [vm_compute; reflexivity|]. split; [|split; [exact Hp|]].
    + fold r in Hsent. rewrite Hsent. vm_compute. reflexivity.
    + destruct (tree_handler_reloads_selection (parse_table payloads) 8
                  (mkTreeMsg "_root" (Some "garbage") false) reconnected)
        as (_ & _ & Hquiet).
      apply Hquiet. left. eexists _, _. vm_compute. reflexivity.
Defined.

(** ** Detail responses that do not parse *)

(** X8: the payload of a detail response is parsed only when the response is
    for the selected id.  If it then does not parse, the handler throws
    before it has changed anything: the id stays pending, and a new
    [loadComponent] for it is still suppressed.  A response for another id
    is handled without looking at its payload, well formed or not. *)
Theorem detail_payload_parsed_only_when_selected
    (parse : string -> option Parsed) msg s :
  (selectedComponentId s = Some (sd_instanceId msg) ->
   parse (sd_data msg) = None ->
   onSelectedData parse msg s = Throw ParseFailure s /\
   (selectedComponentPendingId s = Some (sd_instanceId msg) ->
    loadComponent (Some (sd_instanceId msg))
      (state_of (onSelectedData parse msg s)) = s)) /\
  (selectedComponentId s <> Some (sd_instanceId msg) ->
   exists s',
     onSelectedData parse msg s = Ok tt s' /\
     onSelectedData (fun _ => None) msg s = Ok tt s' /\
     selectedComponentData s' = selectedComponentData s).
Proof.
  split.
  - intros Hsel Hp.
    assert (Hrun : onSelectedData parse msg s = Throw ParseFailure s).
    { unfold onSelectedData. apply strict_eq_true in Hsel. rewrite Hsel, Hp. reflexivity. }
    split; [exact Hrun|]. intros Hpend. rewrite Hrun. simpl.
    apply loadComponent_pending. exact Hpend.
  - intros Hsel. apply strict_eq_false in Hsel.
    unfold onSelectedData. rewrite Hsel.
    destruct (sd_parentIds msg) as [ids|]; eexists;
      (split; [reflexivity|split; [reflexivity|]]).
    + unfold openParents.
      match goal with
      | |- context [foldl _ ?s0 (rev ids)] =>
          destruct (walk_frame (rev ids) s0) as (_ & _ & -> & _)
      end.
      destruct (strict_eq _ (selectedComponentPendingId s)); reflexivity.
    + destruct (strict_eq _ (selectedComponentPendingId s)); reflexivity.
Qed.

Lemma detail_payload_parsed_only_when_selected_witness :
  let s := onRouteComponentId (Some "a") init in
  onSelectedData (parse_table payloads) (mkSelectedDataMsg "a" "garbage" None) s
    = Throw ParseFailure s /\
  loadComponent (Some "a") s = s /\
  exists s', onSelectedData (parse_table payloads)
               (mkSelectedDataMsg "b" "garbage" None) s = Ok tt s'.
Proof.
  intros s.
  destruct (detail_payload_parsed_only_when_selected (parse_table payloads)
              (mkSelectedDataMsg "a" "garbage" None) s) as [Hfail _].
  destruct (Hfail eq_refl eq_refl) as [Hrun Hstuck].
  split; [exact Hrun|]. split.
  - rewrite Hrun in Hstuck. apply Hstuck. reflexivity.
  - destruct (detail_payload_parsed_only_when_selected (parse_table payloads)
                (mkSelectedDataMsg "b" "garbage" None) s) as [_ Hother].
    destruct Hother as (s' & Hok & _); [discriminate|].
    exists s'. exact Hok.
Defined.

(** ** Selecting a component *)

Lemma onRouteComponentId_truthy x s :
  truthy x = true ->
  let s' := onRouteComponentId (Some x) s in
  selectedComponentId s' = Some x /\
  selectedComponentPendingId s' = Some x /\
  selectedComponentData s' = selectedComponentData s /\
  sent s' = sent s ++ (if decide (selectedComponentPendingId s = Some x)
                       then [] else [ComponentSelectedData x]).
Proof.
  intros Ht. unfold onRouteComponentId. cbv zeta.
  destruct (decide (selectedComponentPendingId s = Some x)) as [Hp|Hp].
  - rewrite loadComponent_pending by exact Hp. simpl.
    rewrite app_nil_r. auto.
  - rewrite loadComponent_fresh by assumption. simpl. auto.
Qed.

(** X9: selecting an id that is not the selected one only asks the router
    for it ([replace] or [push]): nothing is sent and the module state is as
    before.  When the router then delivers the id, it becomes the selected
    id and a detail fetch for it is in flight: it is the pending id, and one
    command was sent unless it was pending already.  The snapshot is not
    cleared by the change: it stays that of the component selected before. *)
Theorem select_goes_through_the_router
    (parse : string -> option Parsed) a id replace :
  selectedComponentId (core a) <> Some id -> truthy id = true ->
  let a1 := selectComponent id replace a in
  let a2 := step parse (RouteChanged (Some id)) a1 in
  core a1 = core a /\
  navigations a1 = navigations a ++ [(replace, id)] /\
  navigations a2 = navigations a1 /\
  selectedComponentId (core a2) = Some id /\
  selectedComponentPendingId (core a2) = Some id /\
  selectedComponentData (core a2) = selectedComponentData (core a) /\
  sent (core a2) =
    sent (core a) ++ (if decide (selectedComponentPendingId (core a) = Some id)
                      then [] else [ComponentSelectedData id]).
Proof.
  intros Hsel Ht a1 a2. apply strict_eq_false in Hsel.
  assert (H1 : a1 = mkApp (core a) (lastSelectedApp a) (navigations a ++ [(replace, id)])).
  { subst a1. unfold selectComponent. rewrite Hsel. reflexivity. }
  subst a2. rewrite H1. simpl.
  destruct (onRouteComponentId_truthy id (core a) Ht) as (? & ? & ? & ?).
  repeat split; try reflexivity; assumption.
Qed.

Lemma select_goes_through_the_router_witness :
  let a1 := selectComponent "a" false init_app in
  let a2 := step (parse_table payloads) (RouteChanged (Some "a")) a1 in
  navigations a1 = [(false, "a")] /\
  sent (core a1) = [] /\
  selectedComponentId (core a2) = Some "a" /\
  sent (core a2) = [ComponentSelectedData "a"].
Proof.
  destruct (select_goes_through_the_router (parse_table payloads) init_app "a" false)
    as (Hcore & Hnav & _ & Hsel & _ & _ & Hsent).
  - discriminate.
  - reflexivity.
  - cbv zeta. rewrite Hcore, Hnav, Hsel, Hsent. repeat split.
Defined.

(** ** Switching the inspected application *)

Lemma requestComponentTree_root s :
  requestComponentTree None s =
  send (ComponentTree "_root" (treeFilter s)) (set_resetComponentsQueued true s).
Proof. reflexivity. Qed.

Lemma selectLastComponent_core a :
  core (selectLastComponent a) = core a \/
  core (selectLastComponent a) = loadComponent (selectedComponentId (core a)) (core a).
Proof.
  unfold selectLastComponent.
  destruct (lastSelectedComponentId (core a)) as [l|]; [|left; reflexivity].
  destruct (truthy l); [|left; reflexivity].
  destruct (selectComponent_core l true a) as [H|[_ H]]; auto.
Qed.

(** X10: when another application is selected, the snapshot is dropped, the
    whole tree is requested with the reset queued, and the mirror is left
    as it is.  The first time, nothing more happens.  Later, the last
    selected component is selected again: if a component is selected, a
    detail fetch for it is then in flight (sent now, unless it was pending
    already) and the router is not called; if none is selected, the router
    is asked to replace the route by the last selected id. *)
Theorem app_switch_reselects (parse : string -> option Parsed) events id :
  let a := run parse events init_app in
  let a' := onAppSelected id a in
  let requested := set_selectedComponentData None (requestComponentTree None (core a)) in
  (selectedComponentData (core a') = None /\
   resetComponentsQueued (core a') = true /\
   mirror_eq (core a) (core a') /\
   lastSelectedApp a' = Some id) /\
  (lastSelectedApp a = None ->
   core a' = requested /\ navigations a' = navigations a) /\
  (is_Some (lastSelectedApp a) ->
   forall x, selectedComponentId (core a) = Some x -> truthy x = true ->
     selectedComponentPendingId (core a') = Some x /\
     navigations a' = navigations a /\
     sent (core a') =
       sent (core a) ++
       ComponentTree "_root" (treeFilter (core a)) ::
       (if decide (selectedComponentPendingId (core a) = Some x)
        then [] else [ComponentSelectedData x])) /\
  (is_Some (lastSelectedApp a) ->
   truthy_opt (selectedComponentId (core a)) = false ->
   forall l, lastSelectedComponentId (core a) = Some l -> truthy l = true ->
     core a' = requested /\ navigations a' = navigations a ++ [(true, l)]).
Proof.
  intros a a' requested.
  assert (Hok : sel_ok (core a)).
  { subst a. apply (run_keeps parse (fun a => sel_ok (core a))); [apply step_sel_ok|].
    exact sel_ok_init. }
  generalize dependent a. intros a a' requested Hok. clear events.
  split; [|split; [|split]].
  - assert (Hkeep : forall a1 : App,
               selectedComponentData (core (selectLastComponent a1)) =
                 selectedComponentData (core a1) /\
               resetComponentsQueued (core (selectLastComponent a1)) =
                 resetComponentsQueued (core a1)).
    { intros a1. destruct (selectLastComponent_core a1) as [-> | ->]; [auto|].
      destruct (loadComponent_cases (selectedComponentId (core a1)) (core a1))
        as [->|(y & _ & _ & _ & ->)]; auto. }
    split; [|split; [|split]].
    + subst a'. unfold onAppSelected. cbv zeta.
      destruct (bool_decide _); [|reflexivity].
      cbn [core]. rewrite (proj1 (Hkeep _)). reflexivity.
    + subst a'. unfold onAppSelected. cbv zeta.
      destruct (bool_decide _); [|reflexivity].
      cbn [core]. rewrite (proj2 (Hkeep _)). reflexivity.
    + apply onAppSelected_mirror.
    + reflexivity.
  - intros Hfirst. subst a'. unfold onAppSelected. cbv zeta.
    set (a1 := with_core _ a).
    assert (E0 : lastSelectedApp a1 = lastSelectedApp a) by reflexivity.
    rewrite E0, Hfirst.
    rewrite bool_decide_eq_false_2 by (intros [? ?]; discriminate).
    auto.
  - intros Hlater x Hx Ht. subst a'. unfold onAppSelected. cbv zeta.
    set (a1 := with_core _ a).
    assert (E0 : lastSelectedApp a1 = lastSelectedApp a) by reflexivity.
    assert (E1 : lastSelectedComponentId (core a1) = lastSelectedComponentId (core a))
      by reflexivity.
    assert (E2 : selectedComponentId (core a1) = selectedComponentId (core a))
      by reflexivity.
    assert (E3 : selectedComponentPendingId (core a1) =
                 selectedComponentPendingId (core a)) by reflexivity.
    assert (E4 : sent (core a1) =
                 sent (core a) ++ [ComponentTree "_root" (treeFilter (core a))])
      by reflexivity.
    assert (E5 : navigations a1 = navigations a) by reflexivity.
    rewrite E0, (bool_decide_eq_true_2 _ Hlater).
    assert (Hlast : lastSelectedComponentId (core a) = Some x).
    { rewrite <- Hx. apply Hok. rewrite Hx. exact Ht. }
    unfold selectLastComponent. rewrite E1, Hlast, Ht.
    unfold selectComponent. rewrite E2, Hx.
    rewrite (proj2 (strict_eq_true x (Some x)) eq_refl).
    cbn [negb with_core core navigations lastSelectedApp].
    destruct (decide (selectedComponentPendingId (core a) = Some x)) as [Hp|Hp].
    + rewrite loadComponent_pending by (rewrite E3; exact Hp).
      rewrite E3, E4, E5. auto.
    + rewrite loadComponent_fresh by (try rewrite E3; assumption).
      cbn [selectedComponentPendingId sent send set_selectedComponentPendingId
             set_lastSelectedComponentId].
      rewrite E4, E5, <- app_assoc. auto.
  - intros Hlater Hnone l Hl Ht. subst a'. unfold onAppSelected. cbv zeta.
    set (a1 := with_core _ a).
    assert (E0 : lastSelectedApp a1 = lastSelectedApp a) by reflexivity.
    assert (E1 : lastSelectedComponentId (core a1) = lastSelectedComponentId (core a))
      by reflexivity.
    assert (E2 : selectedComponentId (core a1) = selectedComponentId (core a))
      by reflexivity.
    rewrite E0, (bool_decide_eq_true_2 _ Hlater).
    unfold selectLastComponent. rewrite E1, Hl, Ht.
    unfold selectComponent. rewrite E2.
    assert (Hne : strict_eq l (selectedComponentId (core a)) = false).
    { apply strict_eq_false. intros Heq. rewrite Heq in Hnone. simpl in Hnone.
      congruence. }
    rewrite Hne. cbn [negb core navigations]. auto.
Qed.

Lemma app_switch_reselects_witness :
  let events := [AppSelected "app-1"; RouteChanged (Some "a");
                 SelectedData (mkSelectedDataMsg "a" "garbage" None)] in
  let a := run (parse_table payloads) events init_app in
  let a' := onAppSelected "app-2" a in
  lastSelectedApp init_app = None /\
  navigations (onAppSelected "app-1" init_app) = [] /\
  selectedComponentPendingId (core a') = Some "a" /\
  navigations a' = [] /\
  sent (core a') = sent (core a) ++ [ComponentTree "_root" ""].
Proof.
  intros events a a'.
  destruct (app_switch_reselects (parse_table payloads) [] "app-1")
    as (_ & Hfirst & _ & _).
  destruct (app_switch_reselects (parse_table payloads) events "app-2")
    as (_ & _ & Hlater & _).
  destruct (Hlater ltac:(eexists; vm_compute; reflexivity) "a") as (Hp & Hnav & Hsent).
  - vm_compute. reflexivity.
  - reflexivity.
  - split; [reflexivity|]. split; [apply (Hfirst eq_refl)|].
    split; [exact Hp|]. split.
    + unfold a', a. rewrite Hnav. vm_compute. reflexivity.
    + unfold a', a. rewrite Hsent. vm_compute. reflexivity.
Defined.

(** ** Expand states and pending requests *)

Lemma quiet_refl s : quiet s s.
Proof. split; [intros k H | intros H]; exact H. Qed.

Lemma quiet_trans s1 s2 s3 : quiet s1 s2 -> quiet s2 s3 -> quiet s1 s3.
Proof.
  intros [A B] [C D]. split; [intros k H; apply C, A, H | intros H; apply D, B, H].
Qed.

Lemma quiet_same s s' :
  expandedMap s' = expandedMap s ->
  selectedComponentPendingId s' = selectedComponentPendingId s ->
  quiet s s'.
Proof.
  intros E P. split; [intros k; rewrite E | unfold keeps_pending; rewrite P]; auto.
Qed.

Lemma loadComponent_quiet id s : quiet s (loadComponent id s).
Proof.
  destruct (loadComponent_cases id s) as [->|(x & _ & _ & _ & ->)]; [apply quiet_refl|].
  split; [intros k H; exact H | intros _; simpl; eauto].
Qed.

Lemma requestComponentTree_quiet id s : quiet s (requestComponentTree id s).
Proof.
  rewrite requestComponentTree_eq. destruct (String.eqb _ _); apply quiet_same; reflexivity.
Qed.

Lemma setComponentOpen_quiet id isOpen s : quiet s (setComponentOpen id isOpen s).
Proof.
  split; [|intros H; exact H]. intros k H. simpl. apply is_Some_insert. exact H.
Qed.

Lemma toggleExpand_quiet instance load s : quiet s (toggleExpand instance load s).
Proof.
  unfold toggleExpand. destruct (negb _); [apply quiet_refl|].
  destruct load; [|apply setComponentOpen_quiet].
  eapply quiet_trans; [apply setComponentOpen_quiet | apply requestComponentTree_quiet].
Qed.

Lemma useComponent_quiet instance s : quiet s (useComponent instance s).
Proof.
  unfold useComponent. destruct (isExpanded _ _);
    [apply requestComponentTree_quiet | apply quiet_refl].
Qed.

Lemma openParents_quiet ids s : quiet s (openParents ids s).
Proof.
  unfold openParents. revert s. induction (rev ids) as [|id l IH]; intros s;
    [apply quiet_refl|].
  simpl. eapply quiet_trans; [|apply IH].
  unfold openParent. destruct (endsWith id "root"); [apply quiet_refl|].
  eapply quiet_trans; [apply setComponentOpen_quiet | apply requestComponentTree_quiet].
Qed.

Lemma selectComponent_quiet id replace a :
  quiet (core a) (core (selectComponent id replace a)).
Proof.
  destruct (selectComponent_core id replace a) as [->|[_ ->]];
    [apply quiet_refl | apply loadComponent_quiet].
Qed.

Lemma selectLastComponent_quiet a : quiet (core a) (core (selectLastComponent a)).
Proof.
  destruct (selectLastComponent_core a) as [->| ->];
    [apply quiet_refl | apply loadComponent_quiet].
Qed.

Lemma onComponentsMap_quiet a : quiet (core a) (core (onComponentsMap a)).
Proof.
  unfold onComponentsMap. destruct (selectedComponentId (core a)) as [x|];
    [|apply quiet_refl].
  destruct (_ && _); [apply selectComponent_quiet | apply quiet_refl].
Qed.

Lemma onAppSelected_quiet id a : quiet (core a) (core (onAppSelected id a)).
Proof.
  unfold onAppSelected. simpl.
  set (a1 := with_core _ a).
  assert (H1 : quiet (core a) (core a1)).
  { subst a1. simpl.
    eapply quiet_trans; [apply (requestComponentTree_quiet None)|].
    apply quiet_same; reflexivity. }
  destruct (bool_decide _); [|exact H1].
  eapply quiet_trans; [exact H1 | apply selectLastComponent_quiet].
Qed.

Lemma onComponentTree_quiet (parse : string -> option Parsed) fuel msg s :
  quiet s (state_of (onComponentTree parse fuel msg s)).
Proof.
  destruct (onComponentTree_shape parse fuel msg s) as (s1 & Hui & Hr).
  assert (H1 : quiet s s1).
  { destruct Hui as (_ & _ & _ & Hp & _ & He & _). apply quiet_same; assumption. }
  destruct Hr as [[e ->]|[[_ ->]|[_ ->]]]; simpl; try exact H1.
  unfold reloadSelected. destruct (_ && _); [|exact H1].
  eapply quiet_trans; [exact H1 | apply loadComponent_quiet].
Qed.

(** The detail handler: the expand states are kept; the pending id is
    kept unless the answer is for it. *)
Lemma onSelectedData_expand (parse : string -> option Parsed) msg s :
  keeps_expand s (state_of (onSelectedData parse msg s)).
Proof.
  unfold onSelectedData.
  assert (H : forall s0, keeps_expand s s0 ->
                keeps_expand s
                  (state_of (match sd_parentIds msg with
                             | Some ids => Ok tt (openParents ids s0)
                             | None => Ok tt s0
                             end))).
  { intros s0 H0. destruct (sd_parentIds msg) as [ids|]; simpl; [|exact H0].
    intros k Hk. apply (openParents_quiet ids s0). apply H0. exact Hk. }
  destruct (strict_eq _ (selectedComponentId s)).
  - destruct (parse _); [|intros k Hk; exact Hk].
    destruct (strict_eq _ _); apply H; intros k Hk; exact Hk.
  - destruct (strict_eq _ _); apply H; intros k Hk; exact Hk.
Qed.

Lemma onSelectedData_pending (parse : string -> option Parsed) msg s :
  selectedComponentPendingId s <> Some (sd_instanceId msg) ->
  selectedComponentPendingId (state_of (onSelectedData parse msg s)) =
  selectedComponentPendingId s.
Proof.
  intros Hne. apply strict_eq_false in Hne.
  destruct (onSelectedData_cases parse msg s) as [->|_]; [reflexivity|].
  unfold onSelectedData.
  assert (H : forall s0, selectedComponentPendingId s0 = selectedComponentPendingId s ->
                selectedComponentPendingId
                  (state_of (match sd_parentIds msg with
                             | Some ids => Ok tt (openParents ids s0)
                             | None => Ok tt s0
                             end)) = selectedComponentPendingId s).
  { intros s0 H0. destruct (sd_parentIds msg) as [ids|]; simpl; [|exact H0].
    destruct (openParents_sel ids s0) as (_ & -> & _). exact H0. }
  destruct (strict_eq _ (selectedComponentId s)).
  - destruct (parse _); [|reflexivity].
    cbn [selectedComponentPendingId set_selectedComponentData]. rewrite Hne.
    apply H. reflexivity.
  - rewrite Hne. apply H. reflexivity.
Qed.

Lemma step_keeps_expand (parse : string -> option Parsed) e a :
  e <> Setup -> keeps_expand (core a) (core (step parse e a)).
Proof.
  intros He. destruct e; simpl; try contradiction.
  - unfold onRouteComponentId.
    apply (loadComponent_quiet value (set_selectedComponentId value (core a))).
  - unfold onTreeFilter.
    apply (requestComponentTree_quiet None (set_treeFilter filter (core a))).
  - apply onComponentsMap_quiet.
  - apply (onAppSelected_quiet id).
  - apply selectLastComponent_quiet.
  - apply selectComponent_quiet.
  - apply toggleExpand_quiet.
  - apply useComponent_quiet.
  - apply setComponentOpen_quiet.
  - apply requestComponentTree_quiet.
  - intros k H; exact H.
  - apply onComponentTree_quiet.
  - apply onSelectedData_expand.
Qed.

Lemma step_keeps_pending (parse : string -> option Parsed) e a :
  e <> Setup ->
  (forall msg, e = SelectedData msg ->
               selectedComponentPendingId (core a) <> Some (sd_instanceId msg)) ->
  keeps_pending (core a) (core (step parse e a)).
Proof.
  intros He Hans. destruct e; simpl; try contradiction.
  - unfold onRouteComponentId.
    apply (loadComponent_quiet value (set_selectedComponentId value (core a))).
  - unfold onTreeFilter.
    apply (requestComponentTree_quiet None (set_treeFilter filter (core a))).
  - apply onComponentsMap_quiet.
  - apply (onAppSelected_quiet id).
  - apply selectLastComponent_quiet.
  - apply selectComponent_quiet.
  - apply toggleExpand_quiet.
  - apply useComponent_quiet.
  - apply setComponentOpen_quiet.
  - apply requestComponentTree_quiet.
  - intros H; exact H.
  - apply onComponentTree_quiet.
  - unfold keeps_pending. rewrite onSelectedData_pending; [auto|].
    apply Hans. reflexivity.
Qed.

(** X11: an id that has an expand state, expanded or collapsed, keeps one
    whatever happens next, as long as the bridge is not set up again:
    [isExpandedUndefined] never turns back to true.  Resetting the mirror
    and replacing the tree do not forget the expand states. *)
Theorem expand_state_is_forgotten_by_setup_only
    (parse : string -> option Parsed) events a instance :
  Forall (fun e => e <> Setup) events ->
  isExpandedUndefined instance (core a) = false ->
  isExpandedUndefined instance (core (run parse events a)) = false.
Proof.
  intros Hev. revert a. unfold run.
  induction Hev as [|e events He _ IH]; intros a H; [exact H|].
  simpl. apply IH. unfold isExpandedUndefined in *.
  apply negb_false_iff, bool_decide_eq_true in H.
  apply negb_false_iff, bool_decide_eq_true.
  apply (step_keeps_expand parse e a He). exact H.
Qed.

Lemma expand_state_is_forgotten_by_setup_only_witness :
  let a := run (parse_table payloads) [SetOpen "a" false] init_app in
  let events := [Reset; RequestTree None;
                 TreeData 8 (mkTreeMsg "_root" (Some "tree-1") false);
                 Toggle (mkObj "x" true [] ∅) true] in
  isExpandedUndefined (mkObj "a" true [] ∅) (core (run (parse_table payloads) events a))
    = false /\
  isExpandedUndefined (mkObj "a" true [] ∅)
    (core (run (parse_table payloads) (events ++ [Setup]) a)) = true.
Proof.
  intros a events. split.
  - apply (expand_state_is_forgotten_by_setup_only (parse_table payloads) events a).
    + repeat (apply Forall_cons_2; [discriminate|]). apply Forall_nil_2.
    + vm_compute. reflexivity.
  - vm_compute. reflexivity.
Defined.

(** X12: toggling a node twice gives back its expansion, and leaves the
    expansion of every other node, the mirror and the selection as they
    were; but for a node with children the expand state is then defined,
    even if it was not before. *)
Theorem toggling_twice_restores_expansion instance load1 load2 s :
  let s' := toggleExpand instance load2 (toggleExpand instance load1 s) in
  isExpanded instance s' = isExpanded instance s /\
  (forall other, o_id other <> o_id instance ->
                 expandedMap s' !! o_id other = expandedMap s !! o_id other) /\
  (o_hasChildren instance = true -> isExpandedUndefined instance s' = false) /\
  mirror_eq s s' /\ sel_eq s s'.
Proof.
  intros s'. split; [|split; [|split; [|split]]].
  - subst s'. unfold toggleExpand. destruct (negb (o_hasChildren instance)); [reflexivity|].
    assert (E : forall (b : bool) id s0, isExpanded instance
                  (if b then requestComponentTree id s0 else s0) = isExpanded instance s0).
    { intros [] id s0; [|reflexivity]. rewrite requestComponentTree_eq.
      destruct (String.eqb _ _); reflexivity. }
    cbv zeta. rewrite !E. unfold isExpanded at 1. simpl. rewrite lookup_insert_eq. simpl.
    unfold isExpanded at 1. simpl. rewrite lookup_insert_eq. simpl.
    apply negb_involutive.
  - intros other Hne. subst s'. unfold toggleExpand.
    destruct (negb (o_hasChildren instance)); [reflexivity|].
    assert (E : forall (b : bool) id s0, expandedMap
                  (if b then requestComponentTree id s0 else s0) = expandedMap s0).
    { intros [] id s0; [|reflexivity]. rewrite requestComponentTree_eq.
      destruct (String.eqb _ _); reflexivity. }
    cbv zeta. rewrite E. simpl. rewrite lookup_insert_ne by congruence.
    rewrite E. simpl. apply lookup_insert_ne. congruence.
  - intros Hc. subst s'. unfold toggleExpand. rewrite Hc. simpl.
    assert (E : forall (b : bool) id s0, expandedMap
                  (if b then requestComponentTree id s0 else s0) = expandedMap s0).
    { intros [] id s0; [|reflexivity]. rewrite requestComponentTree_eq.
      destruct (String.eqb _ _); reflexivity. }
    cbv zeta. unfold isExpandedUndefined. rewrite E. simpl. rewrite lookup_insert_eq. reflexivity.
  - eapply mirror_eq_trans; apply toggleExpand_mirror.
  - eapply sel_eq_trans; apply toggleExpand_sel.
Qed.

Lemma toggling_twice_restores_expansion_witness :
  let instance := mkObj "a" true [] ∅ in
  let s' := toggleExpand instance false (toggleExpand instance true init) in
  isExpandedUndefined instance init = true /\
  isExpanded instance s' = isExpanded instance init /\
  isExpandedUndefined instance s' = false.
Proof.
  intros instance s'.
  destruct (toggling_twice_restores_expansion instance true false init)
    as (Hsame & _ & Hdef & _).
  split; [reflexivity|]. split; [exact Hsame|]. apply Hdef. reflexivity.
Defined.

(** X13: a pending detail request is given up in two ways only: the
    answer for the pending id arrives, or the bridge is set up again.
    Nothing else makes the pending id null, so until then a new
    [loadComponent] for the pending id stays suppressed. *)
Theorem pending_request_ends_by_answer_or_setup
    (parse : string -> option Parsed) e a v :
  selectedComponentPendingId (core a) = Some v ->
  selectedComponentPendingId (core (step parse e a)) = None ->
  e = Setup \/ exists msg, e = SelectedData msg /\ sd_instanceId msg = v.
Proof.
  intros Hp Hn.
  assert (Hs : e = Setup \/ e <> Setup).
  { destruct e; try (right; discriminate). left. reflexivity. }
  destruct Hs as [->|He]; [left; reflexivity|]. right.
  assert (Hcase : (exists msg, e = SelectedData msg /\ sd_instanceId msg = v) \/
                  (forall msg, e = SelectedData msg -> sd_instanceId msg <> v)).
  { destruct e; try (right; intros m; discriminate).
    destruct (decide (sd_instanceId msg = v)) as [E|E]; [left; eauto|].
    right. intros m [= <-]. exact E. }
  destruct Hcase as [H|H]; [exact H|]. exfalso.
  assert (Hk : keeps_pending (core a) (core (step parse e a))).
  { apply step_keeps_pending; [exact He|]. intros msg Hm Hv.
    apply (H msg Hm). congruence. }
  destruct Hk as [w Hw]; [rewrite Hp; eauto|]. congruence.
Qed.

Lemma pending_request_ends_by_answer_or_setup_witness :
  let a := run (parse_table payloads) [RouteChanged (Some "a")] init_app in
  let answer := SelectedData (mkSelectedDataMsg "a" "tree-1" None) in
  selectedComponentPendingId (core a) = Some "a" /\
  selectedComponentPendingId (core (step (parse_table payloads) answer a)) = None /\
  (answer = Setup \/
   exists msg, answer = SelectedData msg /\ sd_instanceId msg = "a").
Proof.
  intros a answer. split; [reflexivity|]. split; [vm_compute; reflexivity|].
  apply (pending_request_ends_by_answer_or_setup (parse_table payloads) answer a "a").
  - reflexivity.
  - vm_compute. reflexivity.
Defined.

(** ** An empty id among the ancestors *)

Lemma openParent_queued id s :
  resetComponentsQueued (openParent id s) =
  resetComponentsQueued s || String.eqb id "".
Proof.
  unfold openParent. destruct (endsWith id "root") eqn:E.
  - destruct (String.eqb_spec id "") as [->|_]; [discriminate E|].
    symmetry. apply orb_false_r.
  - rewrite requestComponentTree_eq. cbn [opt_target]. unfold tree_target, truthy.
    destruct (String.eqb_spec id "") as [->|Hne]; simpl.
    + symmetry. apply orb_true_r.
    + destruct (String.eqb_spec id "_root") as [->|_]; [discriminate E|].
      simpl. symmetry. apply orb_false_r.
Qed.

Lemma walk_queued l s :
  resetComponentsQueued (foldl (fun s id => openParent id s) s l) = true <->
  resetComponentsQueued s = true \/ In "" l.
Proof.
  revert s. induction l as [|id l IH]; intros s; simpl; [tauto|].
  rewrite IH, openParent_queued, orb_true_iff, String.eqb_eq. intuition auto.
Qed.

Lemma openParents_empty_id ids s :
  (resetComponentsQueued (openParents ids s) = true <->
   resetComponentsQueued s = true \/ In "" ids) /\
  (In "" ids ->
   In (ComponentTree "_root" (treeFilter s)) (sent (openParents ids s)) /\
   expandedMap (openParents ids s) !! "" = Some true).
Proof.
  unfold openParents. split.
  - rewrite walk_queued, <- in_rev. reflexivity.
  - intros Hin. apply in_rev in Hin. split.
    + rewrite walk_sent. apply in_or_app. right.
      apply (in_map (fun id => ComponentTree (tree_target id) (treeFilter s))
               _ "").
      apply filter_In. split; [exact Hin | reflexivity].
    + apply walk_expanded_in; [exact Hin | reflexivity].
Qed.

(** X14: the walk over the ancestors skips the ids that end in [root], but
    not an empty id: for an empty ancestor id the handler requests the whole
    tree and queues the reset of the mirror, and records an expand state
    under the empty id.  Without one, a detail answer never queues a
    reset. *)
Theorem empty_ancestor_id_requests_the_root
    (parse : string -> option Parsed) msg s s' :
  onSelectedData parse msg s = Ok tt s' ->
  (resetComponentsQueued s' = true <->
   resetComponentsQueued s = true \/ In "" (default [] (sd_parentIds msg))) /\
  (In "" (default [] (sd_parentIds msg)) ->
   In (ComponentTree "_root" (treeFilter s)) (sent s') /\
   expandedMap s' !! "" = Some true).
Proof.
  intros Hrun.
  assert (H : exists s2,
             resetComponentsQueued s2 = resetComponentsQueued s /\
             treeFilter s2 = treeFilter s /\
             s' = match sd_parentIds msg with
                  | Some ids => openParents ids s2
                  | None => s2
                  end).
  { unfold onSelectedData in Hrun.
    destruct (strict_eq _ (selectedComponentId s)).
    - destruct (parse _); [|discriminate].
      destruct (strict_eq _ _); destruct (sd_parentIds msg); injection Hrun as <-;
        eexists; (split; [|split; [|reflexivity]]); reflexivity.
    - destruct (strict_eq _ _); destruct (sd_parentIds msg); injection Hrun as <-;
        eexists; (split; [|split; [|reflexivity]]); reflexivity. }
  destruct H as (s2 & Hq & Hf & ->).
  destruct (sd_parentIds msg) as [ids|]; simpl.
  - rewrite <- Hq, <- Hf. apply openParents_empty_id.
  - rewrite Hq. split; [tauto | contradiction].
Qed.

Lemma empty_ancestor_id_requests_the_root_witness :
  let msg := mkSelectedDataMsg "b" "garbage" (Some ["1:root"; ""; "a"]) in
  let s' := state_of (onSelectedData (parse_table payloads) msg loaded) in
  resetComponentsQueued loaded = false /\
  resetComponentsQueued s' = true /\
  In (ComponentTree "_root" "") (sent s').
Proof.
  intros msg s'.
  destruct (empty_ancestor_id_requests_the_root (parse_table payloads) msg loaded s')
    as [Hq Hin]; [vm_compute; reflexivity|].
  split; [vm_compute; reflexivity|]. split.
  - apply Hq. right. simpl. auto.
  - apply Hin. simpl. auto.
Defined.

(** ** The subscriptions of the watchers *)

Lemma active_after_app acc l l' :
  active_after acc (l ++ l') = active_after (active_after acc l) l'.
Proof.
  revert acc. induction l as [|c l IH]; intros acc; [reflexivity|].
  destruct c; simpl; apply IH.
Qed.

Lemma onWatched_holds w previous value :
  holds w previous -> holds (onWatched value w) value.
Proof.
  intros H. unfold onWatched.
  set (w1 := match unsub w with Some n => _ | None => w end).
  assert (H1 : unsub w1 = None /\ active w1 = []).
  { subst w1. destruct previous as [p|].
    - destruct H as (n & -> & Ha). split; [reflexivity|].
      unfold active in *. simpl. rewrite active_after_app, Ha. simpl.
      rewrite Nat.eqb_refl. reflexivity.
    - destruct H as [Hu Ha]. rewrite Hu. split; [exact Hu | exact Ha]. }
  destruct H1 as [Hu Ha]. destruct value as [v|]; simpl; [|split; assumption].
  exists (subscribed w1). split; [reflexivity|].
  unfold active in *. simpl. rewrite active_after_app, Ha. reflexivity.
Qed.

(** X15: a watcher of [subscribeToSelectedData] or
    [subscribeToComponentTree] holds at most one subscription at any time:
    after it has seen any sequence of values, the subscriptions made and not
    undone are the one for the latest value, and none when that value is
    [null] or when it has seen no value yet.  An empty string is a value
    like any other: it is subscribed to. *)
Theorem watcher_holds_the_latest_subscription values :
  holds (feed values init_watcher) (List.last values None).
Proof.
  induction values as [|v values IH] using rev_ind.
  - split; reflexivity.
  - unfold feed. rewrite foldl_app, last_last. simpl.
    apply (onWatched_holds _ (List.last values None)). exact IH.
Qed.

(** ** Cycles in the store *)

Lemma reach_cycle_child h a b :
  reach h a b -> on_cycle h b ->
  exists o c, h !! a = Some o /\ In c (o_children o) /\ reach h c b.
Proof. intros Hr Hb. inversion Hr; subst; [exact Hb | eauto]. Qed.

(** On a store with a cycle under [a], no depth of stack is enough. *)
Lemma addToComponentsMap_cycle fuel :
  forall a b s,
    reach (heap s) a b -> on_cycle (heap s) b ->
    forall r, addToComponentsMap fuel a s <> Ok tt r.
Proof.
  induction fuel as [|fuel IH]; intros a b s Hr Hb r; [discriminate|].
  destruct (reach_cycle_child _ _ _ Hr Hb) as (o & c & Ho & Hc & Hcb).
  simpl. rewrite Ho.
  set (s1 := set_componentsMap _ s).
  assert (Hh : heap s1 = heap s) by reflexivity.
  revert Hh. generalize s1. clear s1. revert Hc.
  induction (o_children o) as [|x l IHl]; intros Hc s1 Hh; [destruct Hc|].
  simpl. unfold bind.
  destruct (heap s1 !! x) as [child|] eqn:Hx; [|discriminate].
  set (s2 := set_componentsParent _ s1).
  pose proof (addToComponentsMap_heap fuel x s2) as [Hheap _].
  destruct (addToComponentsMap fuel x s2) as [[] s3|e s3] eqn:Hrun; [|discriminate].
  simpl in Hheap.
  destruct Hc as [->|Hc].
  - exfalso. apply (IH c b s2 ltac:(simpl; rewrite Hh; exact Hcb)
                      ltac:(simpl; rewrite Hh; exact Hb) s3). exact Hrun.
  - apply IHl; [exact Hc | rewrite Hheap; exact Hh].
Qed.

Lemma addToComponentsMap_exn fuel :
  forall a s e s',
    addToComponentsMap fuel a s = Throw e s' -> e = TypeError \/ e = RangeError.
Proof.
  induction fuel as [|fuel IH]; intros a s e s' H.
  - injection H as <- _. right. reflexivity.
  - simpl in H. destruct (heap s !! a) as [inst|]; [|injection H as <- _; left; reflexivity].
    revert H. generalize (set_componentsMap (<[o_id inst := a]> (componentsMap s)) s).
    induction (o_children inst) as [|x l IHl]; intros s1 H; [discriminate|].
    simpl in H. unfold bind in H.
    destruct (heap s1 !! x) as [child|]; [|injection H as <- _; left; reflexivity].
    destruct (addToComponentsMap fuel x _) as [[] s3|e3 s3] eqn:E.
    + apply (IHl _ H).
    + injection H as <- _. apply (IH _ _ _ _ E).
Qed.

(** X16: [addToComponentsMap] has no guard against cycles.  On a
    well-formed store in which the traversal from [a] meets an object that
    lies under one of its own children, the call never returns, whatever
    the depth of stack: it ends in a [RangeError] (the stack is exhausted),
    not in a [TypeError]. *)
Theorem traversal_of_a_cycle_overflows fuel a b s :
  closed (heap s) -> a < length (heap s) ->
  reach (heap s) a b -> on_cycle (heap s) b ->
  exists s', addToComponentsMap fuel a s = Throw RangeError s'.
Proof.
  intros Hcl Ha Hr Hb.
  destruct (addToComponentsMap fuel a s) as [[] r|e s'] eqn:E.
  - exfalso. exact (addToComponentsMap_cycle fuel a b s Hr Hb r E).
  - destruct (addToComponentsMap_exn _ _ _ _ _ E) as [-> | ->]; [|eauto].
    exfalso. exact (addToComponentsMap_no_TypeError fuel a s Hcl Ha s' E).
Qed.

Lemma looped_wf : wf looped.
Proof. apply onComponentTree_wf. exact loaded_wf. Qed.

(** Such a store arises from an answer that lists an ancestor, without
    children, under one of its descendants: [a] is then its own grandchild,
    and the handler that merged the answer has itself overflowed. *)
Lemma traversal_of_a_cycle_overflows_witness :
  componentsMap looped !! "a" = Some 1 /\
  reach (heap looped) 1 1 /\ on_cycle (heap looped) 1 /\
  (exists s', addToComponentsMap 1000 1 looped = Throw RangeError s') /\
  onComponentTree (parse_table payloads_3) 8
    (mkTreeMsg "a" (Some "a-over-root") false) loaded = Throw RangeError looped.
Proof.
  assert (H1 : heap looped !! 1 = Some (mkObj "a" true [4] ∅))
    by (vm_compute; reflexivity).
  assert (H4 : heap looped !! 4 = Some (mkObj "1:root" true [1; 2] ∅))
    by (vm_compute; reflexivity).
  assert (Hc : on_cycle (heap looped) 1).
  { exists (mkObj "a" true [4] ∅), 4. split; [exact H1|]. split; [left; reflexivity|].
    apply (reach_step (heap looped) 4 (mkObj "1:root" true [1; 2] ∅) 1 1);
      [exact H4 | left; reflexivity | apply reach_here]. }
  split; [vm_compute; reflexivity|].
  split; [apply reach_here|]. split; [exact Hc|]. split.
  - apply (traversal_of_a_cycle_overflows 1000 1 1 looped).
    + apply looped_wf.
    + vm_compute. lia.
    + apply reach_here.
    + exact Hc.
  - vm_compute. reflexivity.
Defined.
